(** * Soft-DTW (softdtw.py): forward and backward accumulators, band policy,
      backend dispatch and cost-matrix builder, over exact real arithmetic.

    Modelling choices.
    - Floating-point values are the reals extended with the two infinities
      and a not-a-number value; the operations follow IEEE-754 on the
      special values and are exact on finite values (no rounding).
    - [gamma] is a real; the bandwidth is integer-valued ([Z]), negative
      values included, as [int(bandwidth.item())] sees it.
    - A tensor is its shape together with a total function on indices;
      slices addressed with Python indices resolve negative indices and
      raise [IndexError] out of range.
    - The loops are folds over [seq]; a kernel launch is a fold over the
      steps of an execution order that respects the barrier.
    - In-place mutation is explicit state passing: the backward pass
      returns the grid [R] it has written next to the gradient. *)

From Stdlib Require Import Reals Lra Lia ZArith List Bool Arith String.
Import ListNotations.

Open Scope R_scope.

(* ------------------------------------------------------------------ *)
(** ** Extended reals: the value domain of the tensors *)

Inductive ereal : Type :=
| Fin (r : R)
| PInf
| MInf
| NaN.

Definition is_fin (x : ereal) : Prop :=
  match x with Fin _ => True | _ => False end.

(** [math.isinf] / [np.isinf]: true on both infinities. *)
Definition isinf (x : ereal) : bool :=
  match x with PInf | MInf => true | _ => false end.

Definition Rltb (x y : R) : bool := if Rlt_dec x y then true else false.
Definition Reqb (x y : R) : bool := if Req_dec_T x y then true else false.

(** Unary minus. *)
Definition eopp (x : ereal) : ereal :=
  match x with
  | Fin r => Fin (- r)
  | PInf => MInf
  | MInf => PInf
  | NaN => NaN
  end.

(** Addition: opposite infinities give NaN. *)
Definition eadd (x y : ereal) : ereal :=
  match x, y with
  | NaN, _ | _, NaN => NaN
  | Fin a, Fin b => Fin (a + b)
  | PInf, MInf | MInf, PInf => NaN
  | PInf, _ | _, PInf => PInf
  | MInf, _ | _, MInf => MInf
  end.

Definition esub (x y : ereal) : ereal := eadd x (eopp y).

(** An infinity times a finite value: the sign decides, zero gives NaN. *)
Definition inf_times (pos : bool) (a : R) : ereal :=
  if Rltb 0 a then (if pos then PInf else MInf)
  else if Rltb a 0 then (if pos then MInf else PInf)
  else NaN.

Definition emul (x y : ereal) : ereal :=
  match x, y with
  | NaN, _ | _, NaN => NaN
  | Fin a, Fin b => Fin (a * b)
  | PInf, Fin a | Fin a, PInf => inf_times true a
  | MInf, Fin a | Fin a, MInf => inf_times false a
  | PInf, PInf | MInf, MInf => PInf
  | PInf, MInf | MInf, PInf => MInf
  end.

(** Division by a finite, non-zero scalar (the [x / gamma] of the
    sequential code; the zero divisor is handled where it is raised). *)
Definition ediv (x : ereal) (g : R) : ereal :=
  match x with
  | Fin a => Fin (a / g)
  | PInf => inf_times true g
  | MInf => inf_times false g
  | NaN => NaN
  end.

(** [1.0 / gamma] of the device code, where a zero divisor yields an
    infinity instead of an exception. *)
Definition einv (g : R) : ereal :=
  if Reqb g 0 then PInf else Fin (1 / g).

Definition eexp (x : ereal) : ereal :=
  match x with
  | Fin r => Fin (exp r)
  | PInf => PInf
  | MInf => Fin 0
  | NaN => NaN
  end.

Definition elog (x : ereal) : ereal :=
  match x with
  | Fin r => if Rltb r 0 then NaN else if Reqb r 0 then MInf else Fin (ln r)
  | PInf => PInf
  | MInf => NaN
  | NaN => NaN
  end.

(** Strict comparison; every comparison with NaN is false. *)
Definition eltb (x y : ereal) : bool :=
  match x, y with
  | NaN, _ | _, NaN => false
  | Fin a, Fin b => Rltb a b
  | MInf, MInf => false
  | MInf, _ => true
  | _, PInf => match x with PInf => false | _ => true end
  | _, _ => false
  end.

(** Python's two-argument [max(a, b)]: [b] when [b > a], else [a]. *)
Definition emax (a b : ereal) : ereal := if eltb a b then b else a.

(* ------------------------------------------------------------------ *)
(** ** Tensors of rank 3 and 1, Python indexing *)

Record tensor3 : Type := mkT3 {
  shape0 : nat;
  shape1 : nat;
  shape2 : nat;
  data : nat -> nat -> nat -> ereal
}.

(** A batch vector ([R[:, i, j]], the value returned by [forward]). *)
Record tensor1 : Type := mkT1 {
  len : nat;
  vdata : nat -> ereal
}.

Definition full (B N M : nat) (v : ereal) : tensor3 :=
  mkT3 B N M (fun _ _ _ => v).

(** [T[b, i, j] = v] *)
Definition tset (T : tensor3) (b i j : nat) (v : ereal) : tensor3 :=
  mkT3 (shape0 T) (shape1 T) (shape2 T)
       (fun b' i' j' =>
          if (b' =? b)%nat && (i' =? i)%nat && (j' =? j)%nat then v
          else data T b' i' j').

(** [T[:, i, j] = v b] for every batch index. *)
Definition tset_cell (T : tensor3) (i j : nat) (v : nat -> ereal) : tensor3 :=
  mkT3 (shape0 T) (shape1 T) (shape2 T)
       (fun b' i' j' =>
          if (i' =? i)%nat && (j' =? j)%nat then v b' else data T b' i' j').

(** [T[:, :, j] = v] *)
Definition tset_col (T : tensor3) (j : nat) (v : ereal) : tensor3 :=
  mkT3 (shape0 T) (shape1 T) (shape2 T)
       (fun b' i' j' => if (j' =? j)%nat then v else data T b' i' j').

(** [T[:, i, :] = v] *)
Definition tset_row (T : tensor3) (i : nat) (v : ereal) : tensor3 :=
  mkT3 (shape0 T) (shape1 T) (shape2 T)
       (fun b' i' j' => if (i' =? i)%nat then v else data T b' i' j').

(** [T[:, i, j]] *)
Definition tget_cell (T : tensor3) (i j : nat) : tensor1 :=
  mkT1 (shape0 T) (fun b => data T b i j).

(** Resolution of a Python index [k] against an axis of length [n]:
    negative indices count from the end, anything else out of range is an
    [IndexError] ([None]). *)
Definition py_index (n : nat) (k : Z) : option nat :=
  if ((0 <=? k) && (k <? Z.of_nat n))%Z then Some (Z.to_nat k)
  else if ((- Z.of_nat n <=? k) && (k <? 0))%Z then Some (Z.to_nat (Z.of_nat n + k))
  else None.

(** Python exceptions the modelled code can raise. *)
Inductive exn : Type :=
| AssertionError
| IndexError
| ZeroDivisionError.

Inductive result (A : Type) : Type :=
| Ok (a : A)
| Raise (e : exn).
Arguments Ok {A} a.
Arguments Raise {A} e.

Definition bind {A B : Type} (r : result A) (k : A -> result B) : result B :=
  match r with
  | Ok a => k a
  | Raise e => Raise e
  end.

Notation "x <- r ;; k" := (bind r (fun x => k))
  (at level 61, r at next level, right associativity).

Definition index_or_raise (n : nat) (k : Z) : result nat :=
  match py_index n k with
  | Some i => Ok i
  | None => Raise IndexError
  end.

(* ------------------------------------------------------------------ *)
(** ** Band policy and the per-cell recurrence *)

(** [0 < bandwidth < np.abs(i - j)] *)
Definition pruned (bandwidth : Z) (i j : nat) : bool :=
  ((0 <? bandwidth) && (bandwidth <? Z.abs (Z.of_nat i - Z.of_nat j)))%Z.

(** Lines 240-245: the soft minimum of the three predecessor values
    [x0 = R[i-1,j-1]], [x1 = R[i-1,j]], [x2 = R[i,j-1]]. *)
Definition softmin (gamma : R) (x0 x1 x2 : ereal) : ereal :=
  let r0 := ediv (eopp x0) gamma in
  let r1 := ediv (eopp x1) gamma in
  let r2 := ediv (eopp x2) gamma in
  let rmax := emax (emax r0 r1) r2 in
  let rsum := eadd (eadd (eexp (esub r0 rmax)) (eexp (esub r1 rmax)))
                   (eexp (esub r2 rmax)) in
  emul (Fin (- gamma)) (eadd (elog rsum) rmax).

(** Body of the innermost forward loop (lines 236-246). *)
Definition forward_cell (D : tensor3) (gamma : R) (bandwidth : Z)
           (b j i : nat) (Rm : tensor3) : tensor3 :=
  if pruned bandwidth i j then Rm
  else tset Rm b i j
            (eadd (data D b (i - 1) (j - 1))
                  (softmin gamma (data Rm b (i - 1) (j - 1))
                           (data Rm b (i - 1) j)
                           (data Rm b i (j - 1)))).

(** [compute_softdtw] (lines 225-250). *)
Definition compute_softdtw (D : tensor3) (gamma : R) (bandwidth : Z) : tensor3 :=
  let B := shape0 D in
  let N := shape1 D in
  let M := shape2 D in
  let R0 := tset_cell (full B (N + 2) (M + 2) (emul (Fin 1) PInf)) 0 0
                      (fun _ => Fin 0) in
  fold_left (fun Rm b =>
    fold_left (fun Rm j =>
      fold_left (fun Rm i => forward_cell D gamma bandwidth b j i Rm)
                (seq 1 N) Rm)
              (seq 1 M) Rm)
            (seq 0 B) R0.

(* ------------------------------------------------------------------ *)
(** ** Slices addressed with Python indices *)

(** [T[:, ki, kj]] *)
Definition get_cell_py (T : tensor3) (ki kj : Z) : result tensor1 :=
  i <- index_or_raise (shape1 T) ki ;;
  j <- index_or_raise (shape2 T) kj ;;
  Ok (tget_cell T i j).

(** [T[:, ki, kj] = v] *)
Definition set_cell_py (T : tensor3) (ki kj : Z) (v : nat -> ereal)
  : result tensor3 :=
  i <- index_or_raise (shape1 T) ki ;;
  j <- index_or_raise (shape2 T) kj ;;
  Ok (tset_cell T i j v).

(** [T[:, :, kj] = v] *)
Definition set_col_py (T : tensor3) (kj : Z) (v : ereal) : result tensor3 :=
  j <- index_or_raise (shape2 T) kj ;;
  Ok (tset_col T j v).

(** [T[:, ki, :] = v] *)
Definition set_row_py (T : tensor3) (ki : Z) (v : ereal) : result tensor3 :=
  i <- index_or_raise (shape1 T) ki ;;
  Ok (tset_row T i v).

(** The tensors saved by [ctx.save_for_backward]. *)
Record ctx : Type := mkCtx {
  saved_D : tensor3;
  saved_R : tensor3;
  saved_gamma : R;
  saved_bandwidth : Z
}.

(** True when the triple loop executes at least one iteration; its first
    iteration is the cell (1,1), which is never pruned, so a zero [gamma]
    raises at the first division (numba's default error model). *)
Definition has_cells (D : tensor3) : bool :=
  ((0 <? shape0 D) && (0 <? shape1 D) && (0 <? shape2 D))%nat.

(** The branch of lines 351-367 (and 129-141): the value read from the
    forward grid. *)
Definition read_value (Rm : tensor3) (l1 l2 : nat) (bw : Z) : result tensor1 :=
  if (l1 <? l2)%nat then
    if ((bw >=? Z.abs (Z.of_nat l1 - Z.of_nat l2)) || (bw =? 0))%Z
    then get_cell_py Rm (-2) (-2)
    else get_cell_py Rm (-2) (Z.of_nat l1 - Z.of_nat l2 + bw - 2)
  else if (l2 <? l1)%nat then
    if ((bw >=? Z.abs (Z.of_nat l1 - Z.of_nat l2)) || (bw =? 0))%Z
    then get_cell_py Rm (-2) (-2)
    else get_cell_py Rm (Z.of_nat l2 - Z.of_nat l1 + bw - 2) (-2)
  else get_cell_py Rm (-2) (-2).

(* ------------------------------------------------------------------ *)
(** ** Backward accumulator (sequential) *)

(** [D = zeros((B, N+2, M+2)); D[:, 1:N+1, 1:M+1] = D_] *)
Definition pad (D_ : tensor3) : tensor3 :=
  let N := shape1 D_ in
  let M := shape2 D_ in
  mkT3 (shape0 D_) (N + 2) (M + 2)
       (fun b i j =>
          if ((1 <=? i) && (i <=? N) && (1 <=? j) && (j <=? M))%nat
          then data D_ b (i - 1) (j - 1) else Fin 0).

(** [E[:, 1:N+1, 1:M+1]] *)
Definition interior (E : tensor3) (N M : nat) : tensor3 :=
  mkT3 (shape0 E) N M (fun b i j => data E b (i + 1) (j + 1)).

(** Lines 271-309: seed of [E] and boundary writes into [R].  The pair
    returned is [(R, E)]. *)
Definition backward_boundary (D_ Rm : tensor3) (bandwidth : Z)
  : result (tensor3 * tensor3) :=
  let B := shape0 D_ in
  let N := shape1 D_ in
  let M := shape2 D_ in
  let E := full B (N + 2) (M + 2) (Fin 0) in
  let l1 := Z.of_nat (shape1 D_) in
  let l2 := Z.of_nat (shape2 D_) in
  let bw := bandwidth in
  let corner :=
    E <- set_cell_py E (-1) (-1) (fun _ => Fin 1) ;;
    Rm <- set_col_py Rm (-1) MInf ;;
    Rm <- set_row_py Rm (-1) MInf ;;
    V <- get_cell_py Rm (-2) (-2) ;;
    Rm <- set_cell_py Rm (-1) (-1) (vdata V) ;;
    Ok (Rm, E) in
  if (l1 <? l2)%Z then
    if ((bw >=? Z.abs (l1 - l2)) || (bw =? 0))%Z then corner
    else
      E <- set_cell_py E (-1) (l1 - l2 + bw - 1) (fun _ => Fin 1) ;;
      Rm <- set_col_py Rm (l1 - l2 + bw - 1) MInf ;;
      Rm <- set_row_py Rm (-1) MInf ;;
      V <- get_cell_py Rm (-2) (l1 - l2 + bw - 2) ;;
      Rm <- set_cell_py Rm (-1) (l1 - l2 + bw - 1) (vdata V) ;;
      Ok (Rm, E)
  else if (l2 <? l1)%Z then
    if ((bw >=? Z.abs (l1 - l2)) || (bw =? 0))%Z then corner
    else
      E <- set_cell_py E (l2 - l1 + bw - 1) (-1) (fun _ => Fin 1) ;;
      Rm <- set_col_py Rm (-1) MInf ;;
      Rm <- set_row_py Rm (l2 - l1 + bw - 1) MInf ;;
      V <- get_cell_py Rm (l2 - l1 + bw - 2) (-2) ;;
      Rm <- set_cell_py Rm (l2 - l1 + bw - 1) (-1) (vdata V) ;;
      Ok (Rm, E)
  else corner.

(** Body of the innermost backward loop (lines 315-328) on the state
    [(R, E)]; [D] is the padded cost. *)
Definition backward_cell (D : tensor3) (gamma : R) (bandwidth : Z)
           (k j i : nat) (st : tensor3 * tensor3) : tensor3 * tensor3 :=
  let Rm := fst st in
  let E := snd st in
  let Rm := if isinf (data Rm k i j) then tset Rm k i j MInf else Rm in
  if pruned bandwidth i j then (Rm, E)
  else
    let a0 := ediv (esub (esub (data Rm k (i + 1) j) (data Rm k i j))
                         (data D k (i + 1) j)) gamma in
    let b0 := ediv (esub (esub (data Rm k i (j + 1)) (data Rm k i j))
                         (data D k i (j + 1))) gamma in
    let c0 := ediv (esub (esub (data Rm k (i + 1) (j + 1)) (data Rm k i j))
                         (data D k (i + 1) (j + 1))) gamma in
    let a := eexp a0 in
    let b := eexp b0 in
    let c := eexp c0 in
    (Rm, tset E k i j
              (eadd (eadd (emul (data E k (i + 1) j) a)
                          (emul (data E k i (j + 1)) b))
                    (emul (data E k (i + 1) (j + 1)) c))).

(** Lines 311-328: the reverse triple loop. *)
Definition backward_loop (D : tensor3) (gamma : R) (bandwidth : Z)
           (B N M : nat) (st : tensor3 * tensor3) : tensor3 * tensor3 :=
  fold_left (fun st k =>
    fold_left (fun st j =>
      fold_left (fun st i => backward_cell D gamma bandwidth k j i st)
                (rev (seq 1 N)) st)
              (rev (seq 1 M)) st)
            (seq 0 B) st.

(** [compute_softdtw_backward] (lines 254-330).  [R] is mutated in place
    by the source, so the final [R] is returned next to the gradient:
    the result is [(E[:, 1:N+1, 1:M+1], R)].  numba does not check index
    bounds; an out-of-range boundary index is reported as [IndexError]. *)
Definition compute_softdtw_backward (D_ Rm : tensor3) (gamma : R) (bandwidth : Z)
  : result (tensor3 * tensor3) :=
  let B := shape0 D_ in
  let N := shape1 D_ in
  let M := shape2 D_ in
  let D := pad D_ in
  st <- backward_boundary D_ Rm bandwidth ;;
  if Reqb gamma 0 && has_cells D_ then Raise ZeroDivisionError
  else
    let st' := backward_loop D gamma bandwidth B N M st in
    Ok (interior (snd st') N M, fst st').

(** [grad_output.view(-1, 1, 1).expand_as(E) * E] *)
Definition scale_by (grad_output : tensor1) (E : tensor3) : tensor3 :=
  mkT3 (shape0 E) (shape1 E) (shape2 E)
       (fun b i j => emul (vdata grad_output b) (data E b i j)).

(** The sequential autograd function (class [_SoftDTW]). *)
Module _SoftDTW.

(** [forward] (lines 339-370): the value and the saved context. *)
Definition forward (D : tensor3) (gamma : R) (bandwidth : Z)
  : result (tensor1 * ctx) :=
  if Reqb gamma 0 && has_cells D then Raise ZeroDivisionError
  else
    let Rm := compute_softdtw D gamma bandwidth in
    let saved := mkCtx D Rm gamma bandwidth in
    V <- read_value Rm (shape1 D) (shape2 D) bandwidth ;;
    Ok (V, saved).

(** [backward] (lines 372-383).  The numpy view [R_] shares its memory
    with the saved tensor, so the context comes back with the mutated
    grid. *)
Definition backward (c : ctx) (grad_output : tensor1) : result (tensor3 * ctx) :=
  r <- compute_softdtw_backward (saved_D c) (saved_R c) (saved_gamma c)
                                (saved_bandwidth c) ;;
  Ok (scale_by grad_output (fst r),
      mkCtx (saved_D c) (snd r) (saved_gamma c) (saved_bandwidth c)).

End _SoftDTW.

(* ------------------------------------------------------------------ *)
(** ** The device kernels and their launch *)

(** One step of a kernel launch: thread [tid] of block [b] executes the
    body of pass [p] (one iteration of [for p in range(n_passes)], up to
    [cuda.syncthreads()]). *)
Definition kstep : Type := (nat * nat * nat)%type.

Definition kblock (s : kstep) : nat := fst (fst s).
Definition kpass (s : kstep) : nat := snd (fst s).
Definition kthread (s : kstep) : nat := snd s.

(** The steps of a launch [kernel[B, T]] with [P] passes, in the order in
    which a single worker would run them. *)
Definition all_steps (B T P : nat) : list kstep :=
  flat_map (fun b =>
    flat_map (fun p => map (fun t => (b, p, t)) (seq 0 T)) (seq 0 P))
    (seq 0 B).

(** An execution order of the launch: every step of the launch, such that
    when a thread starts pass [p] every thread of its block has finished
    all earlier passes (the barrier at the end of each pass).  Blocks and
    the threads inside a pass interleave freely. *)
Definition launch_schedule (B T P : nat) (s : list kstep) : Prop :=
  (forall x, In x s <-> In x (all_steps B T P)) /\
  (forall l1 x l2, s = l1 ++ x :: l2 ->
     forall p' t', (p' < kpass x)%nat -> (t' < T)%nat ->
                   In (kblock x, p', t') l1).

Definition run_kernel {A : Type} (body : nat -> nat -> nat -> A -> A)
           (s : list kstep) (a : A) : A :=
  fold_left (fun a x => body (kblock x) (kthread x) (kpass x) a) s a.

(** [J = max(0, min(p - tid, max_j - 1))] *)
Definition clampJ (p tid max_j : nat) : nat :=
  Z.to_nat (Z.max 0 (Z.min (Z.of_nat p - Z.of_nat tid) (Z.of_nat max_j - 1))).

(** [abs(i - j) > bandwidth > 0] *)
Definition outside_band (bandwidth : Z) (i j : nat) : bool :=
  ((Z.abs (Z.of_nat i - Z.of_nat j) >? bandwidth) && (bandwidth >? 0))%Z.

(** Lines 44-49 of the forward kernel. *)
Definition softmin_cuda (gamma : R) (inv_gamma : ereal) (x0 x1 x2 : ereal) : ereal :=
  let r0 := emul (eopp x0) inv_gamma in
  let r1 := emul (eopp x1) inv_gamma in
  let r2 := emul (eopp x2) inv_gamma in
  let rmax := emax (emax r0 r1) r2 in
  let rsum := eadd (eadd (eexp (esub r0 rmax)) (eexp (esub r1 rmax)))
                   (eexp (esub r2 rmax)) in
  emul (Fin (- gamma)) (eadd (elog rsum) rmax).

(** [compute_softdtw_cuda] (lines 11-53): the body of pass [p] for thread
    [tid] of block [b]. *)
Definition compute_softdtw_cuda (D : tensor3) (gamma : R) (bandwidth : Z)
           (max_i max_j : nat) (b tid p : nat) (Rm : tensor3) : tensor3 :=
  let I := tid in
  let inv_gamma := einv gamma in
  let J := clampJ p tid max_j in
  let i := (I + 1)%nat in
  let j := (J + 1)%nat in
  if ((I + J =? p) && ((I <? max_i) && (J <? max_j)))%nat then
    if negb (outside_band bandwidth i j) then
      tset Rm b i j
           (eadd (data D b (i - 1) (j - 1))
                 (softmin_cuda gamma inv_gamma
                               (data Rm b (i - 1) (j - 1))
                               (data Rm b (i - 1) j)
                               (data Rm b i (j - 1))))
    else Rm
  else Rm.

(** [compute_softdtw_backward_cuda] (lines 57-90): the body of pass [p]
    for thread [tid] of block [k], on the state [(R, E)]. *)
Definition compute_softdtw_backward_cuda (D : tensor3) (inv_gamma : ereal)
           (bandwidth : Z) (max_i max_j n_passes : nat) (k tid p : nat)
           (st : tensor3 * tensor3) : tensor3 * tensor3 :=
  let Rm := fst st in
  let E := snd st in
  let I := tid in
  let rev_p := (n_passes - p - 1)%nat in
  let J := clampJ rev_p tid max_j in
  let i := (I + 1)%nat in
  let j := (J + 1)%nat in
  if ((I + J =? rev_p) && ((I <? max_i) && (J <? max_j)))%nat then
    let Rm := if isinf (data Rm k i j) then tset Rm k i j MInf else Rm in
    if negb (outside_band bandwidth i j) then
      let a := eexp (emul (esub (esub (data Rm k (i + 1) j) (data Rm k i j))
                                (data D k (i + 1) j)) inv_gamma) in
      let b := eexp (emul (esub (esub (data Rm k i (j + 1)) (data Rm k i j))
                                (data D k i (j + 1))) inv_gamma) in
      let c := eexp (emul (esub (esub (data Rm k (i + 1) (j + 1)) (data Rm k i j))
                                (data D k (i + 1) (j + 1))) inv_gamma) in
      (Rm, tset E k i j
                (eadd (eadd (emul (data E k (i + 1) j) a)
                            (emul (data E k i (j + 1)) b))
                      (emul (data E k (i + 1) (j + 1)) c)))
    else (Rm, E)
  else (Rm, E).

(** A scheduler picks the execution order of each launch from its
    dimensions (blocks, threads per block, passes). *)
Definition scheduler : Type := nat -> nat -> nat -> list kstep.

Definition fair (sch : scheduler) : Prop :=
  forall B T P, launch_schedule B T P (sch B T P).

(** The device autograd function (class [_SoftDTWCUDA]). *)
Module _SoftDTWCUDA.

(** [forward] (lines 100-141). *)
Definition forward (sch : scheduler) (D : tensor3) (gamma : R) (bandwidth : Z)
  : result (tensor1 * ctx) :=
  let B := shape0 D in
  let N := shape1 D in
  let M := shape2 D in
  let threads_per_block := Nat.max N M in
  let n_passes := (2 * threads_per_block - 1)%nat in
  let R0 := tset_cell (full B (N + 2) (M + 2) (emul (Fin 1) PInf)) 0 0
                      (fun _ => Fin 0) in
  let Rm := run_kernel (compute_softdtw_cuda D gamma bandwidth N M)
                       (sch B threads_per_block n_passes) R0 in
  let saved := mkCtx D Rm gamma bandwidth in
  V <- read_value Rm (shape1 D) (shape2 D) bandwidth ;;
  Ok (V, saved).

(** Lines 164-205 of [backward]: the boundary writes into [R], then the
    seeded [E].  The pair returned is [(R, E)]. *)
Definition boundary (D Rm : tensor3) (bandwidth : Z)
  : result (tensor3 * tensor3) :=
  let B := shape0 D in
  let N := shape1 D in
  let M := shape2 D in
  let l1 := Z.of_nat (shape1 D) in
  let l2 := Z.of_nat (shape2 D) in
  let bw := bandwidth in
  let zeros := full B (N + 2) (M + 2) (Fin 0) in
  let corner :=
    Rm <- set_col_py Rm (-1) MInf ;;
    Rm <- set_row_py Rm (-1) MInf ;;
    V <- get_cell_py Rm (-2) (-2) ;;
    Rm <- set_cell_py Rm (-1) (-1) (vdata V) ;;
    E <- set_cell_py zeros (-1) (-1) (fun _ => Fin 1) ;;
    Ok (Rm, E) in
  if (l1 <? l2)%Z then
    if ((bw >=? Z.abs (l1 - l2)) || (bw =? 0))%Z then corner
    else
      Rm <- set_col_py Rm (l1 - l2 + bw - 1) MInf ;;
      Rm <- set_row_py Rm (-1) MInf ;;
      V <- get_cell_py Rm (-2) (l1 - l2 + bw - 2) ;;
      Rm <- set_cell_py Rm (-1) (l1 - l2 + bw - 1) (vdata V) ;;
      E <- set_cell_py zeros (-1) (l1 - l2 + bw - 1) (fun _ => Fin 1) ;;
      Ok (Rm, E)
  else if (l2 <? l1)%Z then
    if ((bw >=? Z.abs (l1 - l2)) || (bw =? 0))%Z then corner
    else
      Rm <- set_col_py Rm (-1) MInf ;;
      Rm <- set_row_py Rm (l2 - l1 + bw - 1) MInf ;;
      V <- get_cell_py Rm (l2 - l1 + bw - 2) (-2) ;;
      Rm <- set_cell_py Rm (l2 - l1 + bw - 1) (-1) (vdata V) ;;
      E <- set_cell_py zeros (l2 - l1 + bw - 1) (-1) (fun _ => Fin 1) ;;
      Ok (Rm, E)
  else corner.

(** Lines 150-213 of [backward]: the grids [(R, E)] left by the backward
    kernel.  The host evaluates [1.0 / gamma.item()] for the launch. *)
Definition backward_grids (sch : scheduler) (c : ctx)
  : result (tensor3 * tensor3) :=
  let D := saved_D c in
  let gamma := saved_gamma c in
  let bandwidth := saved_bandwidth c in
  let B := shape0 D in
  let N := shape1 D in
  let M := shape2 D in
  let threads_per_block := Nat.max N M in
  let n_passes := (2 * threads_per_block - 1)%nat in
  let D_ := pad D in
  st <- boundary D (saved_R c) bandwidth ;;
  if Reqb gamma 0 then Raise ZeroDivisionError
  else
    Ok (run_kernel
          (compute_softdtw_backward_cuda D_ (Fin (1 / gamma)) bandwidth
                                         N M n_passes)
          (sch B threads_per_block n_passes) st).

(** [backward] (lines 146-215).  [R] is the saved tensor itself, so the
    context comes back with the mutated grid. *)
Definition backward (sch : scheduler) (c : ctx) (grad_output : tensor1)
  : result (tensor3 * ctx) :=
  st <- backward_grids sch c ;;
  let E := interior (snd st) (shape1 (saved_D c)) (shape2 (saved_D c)) in
  Ok (scale_by grad_output E,
      mkCtx (saved_D c) (fst st) (saved_gamma c) (saved_bandwidth c)).

End _SoftDTWCUDA.

(* ------------------------------------------------------------------ *)
(** ** The module [SoftDTW]: dispatch and cost matrix *)

Module SoftDTW.

Record t : Type := mk {
  normalize : bool;
  gamma : R;
  bandwidth : Z;
  use_cuda : bool
}.

(** [__init__] (lines 392-405). *)
Definition init (use_cuda : bool) (gamma : R) (normalize : bool)
           (bandwidth : option Z) : t :=
  mk normalize gamma
     (match bandwidth with None => 0%Z | Some w => w end)
     use_cuda.

Inductive func_dtw : Type :=
| SoftDTW_apply       (* _SoftDTW.apply *)
| SoftDTWCUDA_apply.  (* _SoftDTWCUDA.apply *)

Definition capacity_notice : string :=
  "SoftDTW: Cannot use CUDA because the sequence length > 1024 (the maximum block size supported by CUDA)".

(** [_get_func_dtw] (lines 407-425): the selected implementation and
    the lines printed. *)
Definition _get_func_dtw (self : t) (x y : tensor3)
  : result (func_dtw * list string) :=
  let bx := shape0 x in let lx := shape1 x in let dx := shape2 x in
  let by_ := shape0 y in let ly := shape1 y in let dy := shape2 y in
  if negb (bx =? by_)%nat then Raise AssertionError
  else if negb (dx =? dy)%nat then Raise AssertionError
  else
    if use_cuda self && ((1024 <? lx) || (1024 <? ly))%nat
    then Ok (SoftDTW_apply, [capacity_notice])
    else Ok (if use_cuda self then SoftDTWCUDA_apply else SoftDTW_apply, []).

(** One summand of the RBF cost: [2 - 2 * exp(-sigma * (x - y)^2)]. *)
Definition rbf (x y : ereal) : ereal :=
  let sigma := 0.5 in
  esub (Fin 2)
       (emul (Fin 2)
             (eexp (emul (Fin (- sigma)) (emul (esub x y) (esub x y))))).

(** [_calc_distance_matrix] (lines 427-438). *)
Definition _calc_distance_matrix (x y : tensor3) : tensor3 :=
  let n := shape1 x in
  let m := shape1 y in
  let d := shape2 x in
  mkT3 (shape0 x) n m
       (fun b i j =>
          fold_left (fun acc k => eadd acc (rbf (data x b i k) (data y b j k)))
                    (seq 0 d) (Fin 0)).

Definition apply (f : func_dtw) (sch : scheduler) (D : tensor3)
           (gamma : R) (bandwidth : Z) : result tensor1 :=
  match f with
  | SoftDTW_apply => r <- _SoftDTW.forward D gamma bandwidth ;; Ok (fst r)
  | SoftDTWCUDA_apply => r <- _SoftDTWCUDA.forward sch D gamma bandwidth ;; Ok (fst r)
  end.

(** [forward] (lines 441-465): the values and the lines printed. *)
Definition forward (self : t) (sch : scheduler) (X Y : tensor3)
  : result (tensor1 * list string) :=
  sel <- _get_func_dtw self X Y ;;
  let f := fst sel in
  if normalize self then
    let D_xy := _calc_distance_matrix X Y in
    let D_xx := _calc_distance_matrix X X in
    let D_yy := _calc_distance_matrix Y Y in
    out_xy <- apply f sch D_xy (gamma self) (bandwidth self) ;;
    out_xx <- apply f sch D_xx (gamma self) (bandwidth self) ;;
    out_yy <- apply f sch D_yy (gamma self) (bandwidth self) ;;
    Ok (mkT1 (len out_xy)
             (fun b => esub (vdata out_xy b)
                            (emul (Fin (1 / 2))
                                  (eadd (vdata out_xx b) (vdata out_yy b)))),
        snd sel)
  else
    let D_xy := _calc_distance_matrix X Y in
    out <- apply f sch D_xy (gamma self) (bandwidth self) ;;
    Ok (out, snd sel).

End SoftDTW.

(* ------------------------------------------------------------------ *)
(** ** Specification-side definitions used by the theorems *)

(** Interior cells of the padded grid: [1 <= i <= N] and [1 <= j <= M]. *)
Definition inner (N M i j : nat) : Prop :=
  (1 <= i <= N)%nat /\ (1 <= j <= M)%nat.

Definition innerb (N M i j : nat) : bool :=
  ((1 <=? i) && (i <=? N) && (1 <=? j) && (j <=? M))%nat.

(** The solution of the forward recurrence for batch element [b], row by
    row: [soft_grid D gamma w b i j] is the value the recurrence assigns
    to cell [(i, j)] of the padded grid. *)
Section SoftGrid.
Variables (D : tensor3) (gamma : R) (w : Z) (b : nat).

Fixpoint soft_row (prev : nat -> ereal) (i j : nat) : ereal :=
  match j with
  | O => PInf
  | S j' =>
      if ((i <=? shape1 D) && (S j' <=? shape2 D))%nat
         && negb (pruned w i (S j'))
      then eadd (data D b (i - 1) j')
                (softmin gamma (prev j') (prev (S j')) (soft_row prev i j'))
      else PInf
  end.

Fixpoint soft_grid (i : nat) : nat -> ereal :=
  match i with
  | O => fun j => match j with O => Fin 0 | S _ => PInf end
  | S i' => soft_row (soft_grid i') (S i')
  end.
End SoftGrid.

(** The recurrence as the specification words it: the cost minus
    [gamma * ln] of the sum of the three exponentials. *)
Definition recurrence_value (gamma : R) (cost x0 x1 x2 : ereal) : ereal :=
  esub cost
       (emul (Fin gamma)
             (elog (eadd (eadd (eexp (ediv (eopp x0) gamma))
                               (eexp (ediv (eopp x1) gamma)))
                         (eexp (ediv (eopp x2) gamma))))).

(** What the backward loop does to a grid value it visits. *)
Definition neg_if_inf (x : ereal) : ereal :=
  if isinf x then MInf else x.

(** One summand of line 328: the adjoint of the successor [(i', j')]
    times the weight the forward pass gave to the step from [(i, j)]. *)
Definition adjoint_term (D Rm E : tensor3) (gamma : R) (k i j i' j' : nat)
  : ereal :=
  emul (data E k i' j')
       (eexp (ediv (esub (esub (data Rm k i' j') (data Rm k i j))
                         (data D k i' j'))
                   gamma)).

(** The adjoint recurrence of line 328 read on grids [Rm] and [E]. *)
Definition adjoint_terms (D Rm E : tensor3) (gamma : R) (k i j : nat)
  : ereal * ereal * ereal :=
  (adjoint_term D Rm E gamma k i j (i + 1) j,
   adjoint_term D Rm E gamma k i j i (j + 1),
   adjoint_term D Rm E gamma k i j (i + 1) (j + 1)).

(** The batch of all-zero cost matrices. *)
Definition zero_cost (B N M : nat) : tensor3 := full B N M (Fin 0).

(** Every entry of a tensor is a finite real. *)
Definition finite3 (T : tensor3) : Prop :=
  forall b i j, is_fin (data T b i j).

(** A grid value that is a real or [+inf]. *)
Definition fin_or_pinf (x : ereal) : Prop :=
  match x with Fin _ | PInf => True | _ => False end.

(** The weight [exp(-x / gamma)] of a predecessor, zero at [+inf]. *)
Definition weight (g : R) (x : ereal) : R :=
  match x with Fin a => exp (- a / g) | _ => 0 end.

Definition tshape (T : tensor3) : nat * nat * nat :=
  (shape0 T, shape1 T, shape2 T).

(** Loop invariant of the forward pass: the cells that are settled (already
    visited, outside the interior, or pruned) hold the value of the
    recurrence. *)
Definition fwd_inv (D : tensor3) (gamma : R) (w : Z)
           (done : nat -> nat -> nat -> Prop) (Rm : tensor3) : Prop :=
  forall b i j,
    done b i j \/ ~ inner (shape1 D) (shape2 D) i j \/ pruned w i j = true ->
    data Rm b i j = soft_grid D gamma w b i j.

(** Cells visited by the sequential forward loops when they are about to
    run iteration [(b, j, i)]. *)
Definition seq_done (b j i : nat) (b' i' j' : nat) : Prop :=
  (b' < b)%nat \/ (b' = b /\ ((j' < j)%nat \/ (j' = j /\ (i' < i)%nat))).

(** Cells visited by the kernel steps of a list. *)
Definition cuda_done (l : list kstep) (b i j : nat) : Prop :=
  In (b, (i + j - 2)%nat, (i - 1)%nat) l.

(** Two results agree: the same exception, or values that agree under
    [same]. *)
Definition result_agree {A : Type} (same : A -> A -> Prop) (r r' : result A) : Prop :=
  match r, r' with
  | Ok a, Ok a' => same a a'
  | Raise e, Raise e' => e = e'
  | _, _ => False
  end.

(** Batch vectors of the same length with the same entries. *)
Definition same_vector (V V' : tensor1) : Prop :=
  len V = len V' /\ forall b, (b < len V)%nat -> vdata V b = vdata V' b.

(** Grids of the same shape with the same entries. *)
Definition same_grid (T T' : tensor3) : Prop :=
  tshape T = tshape T' /\
  forall b i j, (b < shape0 T)%nat -> data T b i j = data T' b i j.

(** The terminal cell as the specification words it (for [0 <= w]). *)
Definition terminal_cell (N M : nat) (w : Z) : nat * nat :=
  if ((N =? M)%nat || (w =? 0) || (w >=? Z.abs (Z.of_nat N - Z.of_nat M)))%Z
  then (N, M)
  else if (N <? M)%nat then (N, (N + Z.to_nat w)%nat)
       else ((M + Z.to_nat w)%nat, M).

(** The grid [R] after the boundary writes of the backward pass with the
    sentinel at [(si, sj)], and the seeded adjoint grid. *)
Definition boundary_R (Rm : tensor3) (si sj : nat) : tensor3 :=
  let R1 := tset_row (tset_col Rm sj MInf) si MInf in
  tset_cell R1 si sj (fun b => data R1 b (si - 1) (sj - 1)).

Definition seed_E (B N M si sj : nat) : tensor3 :=
  tset_cell (full B (N + 2) (M + 2) (Fin 0)) si sj (fun _ => Fin 1).

(** Cells visited by the steps of a list in the backward kernel, whose
    pass [p] works on the anti-diagonal [n_passes - p - 1]. *)
Definition cuda_done_back (n_passes : nat) (l : list kstep) (k i j : nat) : Prop :=
  In (k, (n_passes - 1 - (i + j - 2))%nat, (i - 1)%nat) l.

(** The scheduler that runs every launch in the order of a single
    worker. *)
Definition in_order : scheduler := all_steps.

(** The grid [R] at the end of the backward loops, given the grid [R1]
    left by the boundary writes: every interior cell has been visited
    once. *)
Definition final_R (R1 : tensor3) (N M : nat) : tensor3 :=
  mkT3 (shape0 R1) (shape1 R1) (shape2 R1)
       (fun b i j =>
          if innerb N M i j then neg_if_inf (data R1 b i j)
          else data R1 b i j).

(** The sum of line 328. *)
Definition adjoint_sum (D Rm E : tensor3) (gamma : R) (k i j : nat) : ereal :=
  eadd (eadd (fst (fst (adjoint_terms D Rm E gamma k i j)))
             (snd (fst (adjoint_terms D Rm E gamma k i j))))
       (snd (adjoint_terms D Rm E gamma k i j)).

(** The three successors of a cell in the adjoint recurrence. *)
Definition successor (i j i' j' : nat) : Prop :=
  (i' = i + 1 /\ j' = j)%nat \/ (i' = i /\ j' = j + 1)%nat
  \/ (i' = i + 1 /\ j' = j + 1)%nat.

(** Loop invariant of the backward pass on the state [(R, E)], started
    from [(R1, E1)]. *)
Definition bwd_inv (D R1 E1 : tensor3) (gamma : R) (w : Z) (N M : nat)
           (done : nat -> nat -> nat -> Prop) (st : tensor3 * tensor3) : Prop :=
  (forall b i j, done b i j -> inner N M i j ->
     data (fst st) b i j = neg_if_inf (data R1 b i j)) /\
  (forall b i j, ~ (done b i j /\ inner N M i j) ->
     data (fst st) b i j = data R1 b i j) /\
  (forall b i j, ~ (done b i j /\ inner N M i j /\ pruned w i j = false) ->
     data (snd st) b i j = data E1 b i j) /\
  (forall b i j, done b i j -> inner N M i j -> pruned w i j = false ->
     data (snd st) b i j = adjoint_sum D (final_R R1 N M) (snd st) gamma b i j).

(** A set of visited cells is closed under successors inside the
    interior. *)
Definition succ_closed (N M : nat) (done : nat -> nat -> nat -> Prop) : Prop :=
  forall b i j i' j',
    done b i j -> inner N M i j -> successor i j i' j' ->
    done b i' j' \/ ~ inner N M i' j'.

(** Cells visited by the sequential backward loops (which run downwards):
    the blocks before [k], and in block [k] the columns from [j] on and the
    rows from [i] on of column [j - 1]. *)
Definition seq_done_back (k j i : nat) (k' i' j' : nat) : Prop :=
  (k' < k)%nat \/
  (k' = k /\ ((j <= j')%nat \/ ((j' + 1)%nat = j /\ (i <= i')%nat))).

(** What a backward pass does to the interior of the saved grid: [Rb] is
    the grid before the pass, [Ra] the grid after it. *)
Definition interior_kept_unless_infinite
           (D : tensor3) (gamma : R) (w : Z) (Rb Ra : tensor3) : Prop :=
  forall b i j,
    (b < shape0 D)%nat -> inner (shape1 D) (shape2 D) i j ->
    (isinf (data Rb b i j) = false -> data Ra b i j = data Rb b i j)
    /\ (isinf (data Rb b i j) = true -> data Ra b i j = MInf)
    /\ (pruned w i j = true -> data Rb b i j = PInf /\ data Ra b i j = MInf)
    /\ (finite3 D -> pruned w i j = false -> data Ra b i j = data Rb b i j).

(** The adjoint grid [Ef] next to the final grid [Rf]: pruned cells hold 0,
    active cells hold the sum of their successor terms and, with finite
    costs, the term of a pruned successor is 0. *)
Definition pruned_cells_inert
           (D : tensor3) (gamma : R) (w : Z) (Rf Ef : tensor3) : Prop :=
  forall b i j,
    (b < shape0 D)%nat -> inner (shape1 D) (shape2 D) i j ->
    (pruned w i j = true -> data Ef b i j = Fin 0)
    /\ (pruned w i j = false ->
        data Ef b i j = adjoint_sum (pad D) Rf Ef gamma b i j
        /\ (finite3 D ->
            forall i' j',
              successor i j i' j' -> inner (shape1 D) (shape2 D) i' j' ->
              pruned w i' j' = true ->
              adjoint_term (pad D) Rf Ef gamma b i j i' j' = Fin 0)).

(** The cell a thread works on in a pass over the anti-diagonal [d], and
    the cells its body reads: the three predecessors in the forward
    kernel; the cell itself and its three successors in the backward
    kernel. *)
Definition thread_cell (d tid : nat) : nat * nat :=
  ((tid + 1)%nat, (d - tid + 1)%nat).

Definition forward_reads (c : nat * nat) : list (nat * nat) :=
  [((fst c - 1)%nat, (snd c - 1)%nat); ((fst c - 1)%nat, snd c);
   (fst c, (snd c - 1)%nat)].

Definition backward_reads (c : nat * nat) : list (nat * nat) :=
  [c; ((fst c + 1)%nat, snd c); (fst c, (snd c + 1)%nat);
   ((fst c + 1)%nat, (snd c + 1)%nat)].

(* ------------------------------------------------------------------ *)
(** ** Further specification-side definitions *)

(** The batch element [b] of a tensor as a batch of one ([T[b:b+1]]). *)
Definition batch_element (T : tensor3) (b : nat) : tensor3 :=
  mkT3 1 (shape1 T) (shape2 T) (fun _ i j => data T b i j).

(** [T.transpose(1, 2)] *)
Definition transpose (T : tensor3) : tensor3 :=
  mkT3 (shape0 T) (shape2 T) (shape1 T) (fun b i j => data T b j i).

(** An extended real that is a non-negative real. *)
Definition nonneg_fin (x : ereal) : Prop :=
  match x with Fin r => 0 <= r | _ => False end.

(** Order on grid values that are reals or [+inf]. *)
Definition ele (x y : ereal) : Prop :=
  match x, y with
  | Fin a, Fin b => a <= b
  | _, PInf => True
  | _, _ => False
  end.

(** A grid value that is a real or [-inf]: what the backward recurrence
    reads. *)
Definition fin_or_minf (x : ereal) : Prop :=
  match x with Fin _ | MInf => True | _ => False end.

(** The three predecessors of a cell in the forward recurrence. *)
Definition predecessor (i j i' j' : nat) : Prop :=
  (i' = i - 1 /\ j' = j - 1)%nat \/ (i' = i - 1 /\ j' = j)%nat
  \/ (i' = i /\ j' = j - 1)%nat.

(** The value of the recurrence at the terminal cell: what [forward]
    returns for batch element [b]. *)
Definition align_value (D : tensor3) (gamma : R) (w : Z) (b : nat) : ereal :=
  soft_grid D gamma w b
            (fst (terminal_cell (shape1 D) (shape2 D) w))
            (snd (terminal_cell (shape1 D) (shape2 D) w)).

(** The sum of the first [n] costs of the first row of batch element
    [b]: the cost of the only alignment of a single timestep with [n]
    timesteps. *)
Fixpoint row_cost (D : tensor3) (b n : nat) : ereal :=
  match n with
  | O => Fin 0
  | S n' => eadd (row_cost D b n') (data D b 0 n')
  end.

(* ------------------------------------------------------------------ *)
(** * Properties *)

(** ** Arithmetic on extended reals *)

Lemma Rltb_true x y : x < y -> Rltb x y = true.
Proof. intros H. unfold Rltb. destruct (Rlt_dec x y); [reflexivity | contradiction]. Qed.

Lemma Rltb_false x y : ~ x < y -> Rltb x y = false.
Proof. intros H. unfold Rltb. destruct (Rlt_dec x y); [contradiction | reflexivity]. Qed.


Lemma Reqb_false x y : x <> y -> Reqb x y = false.
Proof. intros H. unfold Reqb. destruct (Req_dec_T x y); [contradiction | reflexivity]. Qed.

Lemma inf_times_pos s g : 0 < g -> inf_times s g = if s then PInf else MInf.
Proof. intros H. unfold inf_times. now rewrite Rltb_true. Qed.

Lemma ones_times_inf : emul (Fin 1) PInf = PInf.
Proof. simpl. apply inf_times_pos. lra. Qed.

(** For a positive divisor, dividing is multiplying by the inverse. *)
Lemma emul_inv x g : 0 < g -> emul x (Fin (1 / g)) = ediv x g.
Proof.
  intros Hg.
  assert (Hi : 0 < 1 / g) by (apply Rdiv_lt_0_compat; lra).
  destruct x; simpl.
  - f_equal. field. lra.
  - now rewrite !inf_times_pos.
  - now rewrite !inf_times_pos.
  - reflexivity.
Qed.

Lemma ediv_einv x g : 0 < g -> emul x (einv g) = ediv x g.
Proof.
  intros Hg. unfold einv. rewrite Reqb_false by lra. now apply emul_inv.
Qed.

Lemma softmin_cuda_eq g x0 x1 x2 :
  0 < g -> softmin_cuda g (einv g) x0 x1 x2 = softmin g x0 x1 x2.
Proof.
  intros Hg. unfold softmin_cuda, softmin. now rewrite !ediv_einv.
Qed.

Lemma weight_nonneg g x : 0 <= weight g x.
Proof. destruct x; simpl; try lra. left. apply exp_pos. Qed.

Lemma weight_fin_pos g x : is_fin x -> 0 < weight g x.
Proof. destruct x; simpl; try tauto. intros _. apply exp_pos. Qed.

(** The scaled negation [-x / gamma] of a grid value. *)
Lemma scaled_cases g x :
  0 < g -> fin_or_pinf x ->
  (exists a, x = Fin a /\ ediv (eopp x) g = Fin (- a / g)) \/
  (x = PInf /\ ediv (eopp x) g = MInf).
Proof.
  intros Hg Hx. destruct x; simpl in *; try tauto.
  - left. eauto.
  - right. split; [reflexivity | now rewrite inf_times_pos].
Qed.

Lemma emax_fin_l a y :
  y = MInf \/ is_fin y -> exists m, emax (Fin a) y = Fin m.
Proof.
  intros [-> | Hy]; unfold emax; simpl; eauto.
  destruct y; simpl in *; try tauto.
  destruct (Rltb a r); eauto.
Qed.

Lemma emax_fin_r x b :
  x = MInf \/ is_fin x -> exists m, emax x (Fin b) = Fin m.
Proof.
  intros [-> | Hx]; unfold emax; simpl; eauto.
  destruct x; simpl in *; try tauto.
  destruct (Rltb r b); eauto.
Qed.

Lemma emax_minf : emax MInf MInf = MInf.
Proof. reflexivity. Qed.

(** Shifted exponential of a scaled value, through its weight. *)
Lemma eexp_shift g x m :
  0 < g -> fin_or_pinf x ->
  eexp (esub (ediv (eopp x) g) (Fin m)) = Fin (weight g x * exp (- m)).
Proof.
  intros Hg Hx. destruct x; simpl in *; try tauto.
  - f_equal. rewrite <- exp_plus. f_equal.
  - rewrite inf_times_pos by assumption. simpl. f_equal. ring.
Qed.

Lemma eexp_scaled g x :
  0 < g -> fin_or_pinf x ->
  eexp (ediv (eopp x) g) = Fin (weight g x).
Proof.
  intros Hg Hx. destruct x; simpl in *; try tauto.
  now rewrite inf_times_pos.
Qed.

Lemma elog_pos s : 0 < s -> elog (Fin s) = Fin (ln s).
Proof.
  intros Hs. simpl. rewrite Rltb_false by lra. now rewrite Reqb_false by lra.
Qed.

Lemma eadd_fin a b : eadd (Fin a) (Fin b) = Fin (a + b).
Proof. reflexivity. Qed.

Lemma weights_pos g x0 x1 x2 :
  is_fin x0 \/ is_fin x1 \/ is_fin x2 ->
  0 < weight g x0 + weight g x1 + weight g x2.
Proof.
  intros H.
  pose proof (weight_nonneg g x0). pose proof (weight_nonneg g x1).
  pose proof (weight_nonneg g x2).
  destruct H as [H | [H | H]]; apply (weight_fin_pos g) in H; lra.
Qed.

(** The stabilised soft minimum of the code, in closed form. *)
Lemma softmin_closed g x0 x1 x2 :
  0 < g ->
  fin_or_pinf x0 -> fin_or_pinf x1 -> fin_or_pinf x2 ->
  is_fin x0 \/ is_fin x1 \/ is_fin x2 ->
  softmin g x0 x1 x2
  = Fin (- g * ln (weight g x0 + weight g x1 + weight g x2)).
Proof.
  intros Hg H0 H1 H2 Hf.
  pose proof (weights_pos g _ _ _ Hf) as Hpos.
  unfold softmin.
  assert (Hm : exists m, emax (emax (ediv (eopp x0) g) (ediv (eopp x1) g))
                              (ediv (eopp x2) g) = Fin m).
  { destruct (scaled_cases g x0 Hg H0) as [[a0 [E0 ->]] | [E0 ->]];
    destruct (scaled_cases g x1 Hg H1) as [[a1 [E1 ->]] | [E1 ->]];
    destruct (scaled_cases g x2 Hg H2) as [[a2 [E2 ->]] | [E2 ->]];
    subst; simpl in Hf.
    all: try (destruct (emax_fin_l (- a0 / g) (Fin (- a1 / g))) as [m ->];
              [right; exact I | apply emax_fin_l; simpl; tauto]).
    all: try (destruct (emax_fin_l (- a0 / g) MInf) as [m ->];
              [left; reflexivity | apply emax_fin_l; simpl; tauto]).
    all: try (destruct (emax_fin_r MInf (- a1 / g)) as [m ->];
              [left; reflexivity | apply emax_fin_l; simpl; tauto]).
    all: try (rewrite emax_minf; apply emax_fin_r; left; reflexivity).
    tauto. }
  destruct Hm as [m ->].
  rewrite !eexp_shift by assumption. rewrite !eadd_fin.
  rewrite elog_pos.
  2:{ pose proof (exp_pos (- m)). nra. }
  simpl. f_equal. f_equal.
  replace (weight g x0 * exp (- m) + weight g x1 * exp (- m)
           + weight g x2 * exp (- m))
    with ((weight g x0 + weight g x1 + weight g x2) * exp (- m)) by ring.
  rewrite ln_mult; [| assumption | apply exp_pos].
  rewrite ln_exp. ring.
Qed.

(** The code's stabilised form agrees with the direct formula. *)
Lemma recurrence_value_closed g d x0 x1 x2 :
  0 < g ->
  fin_or_pinf x0 -> fin_or_pinf x1 -> fin_or_pinf x2 ->
  is_fin x0 \/ is_fin x1 \/ is_fin x2 ->
  recurrence_value g (Fin d) x0 x1 x2
  = Fin (d + - g * ln (weight g x0 + weight g x1 + weight g x2)).
Proof.
  intros Hg H0 H1 H2 Hf.
  pose proof (weights_pos g _ _ _ Hf) as Hpos.
  unfold recurrence_value. rewrite !eexp_scaled by assumption.
  rewrite !eadd_fin. rewrite elog_pos by assumption. simpl. f_equal. ring.
Qed.

(** ** Loops as folds: invariant rules *)

Lemma fold_seq_inv {A : Type} (f : A -> nat -> A) (P : nat -> A -> Prop) n :
  forall s a,
    P s a ->
    (forall k a', (s <= k < s + n)%nat -> P k a' -> P (S k) (f a' k)) ->
    P (s + n)%nat (fold_left f (seq s n) a).
Proof.
  induction n as [| n IH]; intros s a H0 Hstep; simpl.
  - now rewrite Nat.add_0_r.
  - rewrite <- Nat.add_succ_comm. apply IH.
    + apply Hstep; [lia | assumption].
    + intros k a' Hk. apply Hstep. lia.
Qed.

Lemma fold_rev_seq_inv {A : Type} (f : A -> nat -> A) (P : nat -> A -> Prop) n :
  forall s a,
    P (s + n)%nat a ->
    (forall k a', (s <= k < s + n)%nat -> P (S k) a' -> P k (f a' k)) ->
    P s (fold_left f (rev (seq s n)) a).
Proof.
  induction n as [| n IH]; intros s a H0 Hstep.
  - simpl. now rewrite Nat.add_0_r in H0.
  - rewrite seq_S, rev_app_distr. simpl. apply IH.
    + apply Hstep; [lia |]. now rewrite <- Nat.add_succ_r.
    + intros k a' Hk. apply Hstep. lia.
Qed.

Lemma fold_prefix_inv {A B : Type} (f : A -> B -> A) (P : list B -> A -> Prop) :
  forall l2 l1 a,
    P l1 a ->
    (forall p x q a', l1 ++ l2 = p ++ x :: q -> P p a' -> P (p ++ [x]) (f a' x)) ->
    P (l1 ++ l2) (fold_left f l2 a).
Proof.
  induction l2 as [| x l2 IH]; intros l1 a H0 Hstep; simpl.
  - now rewrite app_nil_r.
  - replace (l1 ++ x :: l2) with ((l1 ++ [x]) ++ l2)
      by (rewrite <- app_assoc; reflexivity).
    apply IH.
    + apply (Hstep l1 x l2); [reflexivity | assumption].
    + intros p y q a' Heq. apply (Hstep p y q). rewrite <- Heq.
      rewrite <- app_assoc. reflexivity.
Qed.

Lemma fold_left_agree {A B : Type} (f g : A -> B -> A) l :
  (forall a x, In x l -> f a x = g a x) ->
  forall a, fold_left f l a = fold_left g l a.
Proof.
  induction l as [| x l IH]; intros H a; simpl; [reflexivity |].
  rewrite (H a x) by (left; reflexivity).
  apply IH. intros a' y Hy. apply H. now right.
Qed.

(** ** The tensors *)

Lemma data_tset T b i j v b' i' j' :
  data (tset T b i j v) b' i' j'
  = if ((b' =? b) && (i' =? i) && (j' =? j))%nat then v else data T b' i' j'.
Proof. reflexivity. Qed.

Lemma data_tset_same T b i j v : data (tset T b i j v) b i j = v.
Proof. rewrite data_tset. now rewrite !Nat.eqb_refl. Qed.

Lemma data_tset_other T b i j v b' i' j' :
  (b', i', j') <> (b, i, j) -> data (tset T b i j v) b' i' j' = data T b' i' j'.
Proof.
  intros H. rewrite data_tset.
  destruct (b' =? b)%nat eqn:Eb; [| reflexivity].
  destruct (i' =? i)%nat eqn:Ei; [| reflexivity].
  destruct (j' =? j)%nat eqn:Ej; [| reflexivity].
  apply Nat.eqb_eq in Eb, Ei, Ej. subst. congruence.
Qed.

Lemma pruned_spec w i j :
  pruned w i j = true <->
  (0 < w /\ w < Z.abs (Z.of_nat i - Z.of_nat j))%Z.
Proof.
  unfold pruned. rewrite andb_true_iff, !Z.ltb_lt. tauto.
Qed.

Lemma pruned_false w i j :
  pruned w i j = false <->
  (w <= 0 \/ Z.abs (Z.of_nat i - Z.of_nat j) <= w)%Z.
Proof.
  unfold pruned. rewrite andb_false_iff, !Z.ltb_ge. tauto.
Qed.

Lemma outside_band_pruned w i j : outside_band w i j = pruned w i j.
Proof.
  unfold outside_band, pruned. rewrite !Z.gtb_ltb. apply andb_comm.
Qed.

Lemma innerb_spec N M i j : innerb N M i j = true <-> inner N M i j.
Proof.
  unfold innerb, inner.
  rewrite !andb_true_iff, !Nat.leb_le. tauto.
Qed.

Lemma inner_dec N M i j : inner N M i j \/ ~ inner N M i j.
Proof. unfold inner. lia. Qed.

(** ** The solution of the forward recurrence *)

Section SoftGridFacts.
Variables (D : tensor3) (gamma : R) (w : Z) (b : nat).
Let N := shape1 D.
Let M := shape2 D.

Lemma soft_grid_origin : soft_grid D gamma w b 0 0 = Fin 0.
Proof. reflexivity. Qed.

Lemma soft_grid_S i j :
  soft_grid D gamma w b (S i) (S j)
  = if ((S i <=? shape1 D) && (S j <=? shape2 D))%nat
       && negb (pruned w (S i) (S j))
    then eadd (data D b (S i - 1) j)
              (softmin gamma (soft_grid D gamma w b i j)
                       (soft_grid D gamma w b i (S j))
                       (soft_grid D gamma w b (S i) j))
    else PInf.
Proof. reflexivity. Qed.

Lemma soft_grid_col0 i : soft_grid D gamma w b (S i) 0 = PInf.
Proof. reflexivity. Qed.

Lemma soft_grid_row0 j : soft_grid D gamma w b 0 (S j) = PInf.
Proof. reflexivity. Qed.

Lemma soft_grid_outer i j :
  ~ inner N M i j -> (i, j) <> (0, 0)%nat ->
  soft_grid D gamma w b i j = PInf.
Proof.
  intros Hin Hne. destruct i as [| i].
  - destruct j; [congruence | reflexivity].
  - destruct j as [| j]; [reflexivity |].
    rewrite soft_grid_S.
    destruct ((S i <=? shape1 D)%nat && (S j <=? shape2 D)%nat) eqn:E;
      [| reflexivity].
    apply andb_true_iff in E. destruct E as [E1 E2].
    apply Nat.leb_le in E1, E2. exfalso. apply Hin.
    unfold inner, N, M. lia.
Qed.

Lemma soft_grid_pruned i j :
  pruned w i j = true -> soft_grid D gamma w b i j = PInf.
Proof.
  intros Hp. destruct i as [| i].
  - destruct j; [| reflexivity].
    apply pruned_spec in Hp. simpl in Hp. lia.
  - destruct j as [| j]; [reflexivity |].
    rewrite soft_grid_S, Hp. simpl negb. now rewrite andb_false_r.
Qed.

Lemma soft_grid_step i j :
  inner N M i j -> pruned w i j = false ->
  soft_grid D gamma w b i j
  = eadd (data D b (i - 1) (j - 1))
         (softmin gamma (soft_grid D gamma w b (i - 1) (j - 1))
                  (soft_grid D gamma w b (i - 1) j)
                  (soft_grid D gamma w b i (j - 1))).
Proof.
  intros [Hi Hj] Hp. unfold N, M in *.
  destruct i as [| i]; [lia |]. destruct j as [| j]; [lia |].
  rewrite soft_grid_S, Hp.
  replace (S i <=? shape1 D)%nat with true by (symmetry; apply Nat.leb_le; lia).
  replace (S j <=? shape2 D)%nat with true by (symmetry; apply Nat.leb_le; lia).
  cbn [andb negb]. replace (S i - 1)%nat with i by lia.
  replace (S j - 1)%nat with j by lia. reflexivity.
Qed.
End SoftGridFacts.

(** ** The sequential forward pass computes the recurrence *)

Section ForwardInvariant.
Variables (D : tensor3) (gamma : R) (w : Z).
Let N := shape1 D.
Let M := shape2 D.

Lemma fwd_inv_weaken (done done' : nat -> nat -> nat -> Prop) Rm :
  (forall b i j, done' b i j -> done b i j \/ ~ inner N M i j) ->
  fwd_inv D gamma w done Rm -> fwd_inv D gamma w done' Rm.
Proof.
  intros Hsub H b i j [Hd | Hd]; apply H; [| tauto].
  destruct (Hsub _ _ _ Hd); tauto.
Qed.

Lemma fwd_inv_init B :
  fwd_inv D gamma w (fun _ _ _ => False)
          (tset_cell (full B (N + 2) (M + 2) (emul (Fin 1) PInf)) 0 0
                     (fun _ => Fin 0)).
Proof.
  intros b i j H. cbn [data tset_cell full]. rewrite ones_times_inf.
  destruct H as [[] | [H | H]].
  - destruct i as [| i]; [destruct j as [| j] |]; cbn [Nat.eqb andb];
      try reflexivity; symmetry; apply soft_grid_outer;
      solve [exact H | congruence].
  - rewrite soft_grid_pruned by assumption.
    destruct i as [| i]; [destruct j as [| j] |]; cbn [Nat.eqb andb];
      try reflexivity.
    apply pruned_spec in H. simpl in H. lia.
Qed.

(** One visit of an interior cell whose three predecessors are settled. *)
Lemma forward_cell_inv (done : nat -> nat -> nat -> Prop) Rm b i j :
  fwd_inv D gamma w done Rm ->
  inner N M i j ->
  (forall i' j',
      (i', j') = (i - 1, j - 1)%nat \/ (i', j') = (i - 1, j)%nat
      \/ (i', j') = (i, j - 1)%nat ->
      done b i' j' \/ ~ inner N M i' j' \/ pruned w i' j' = true) ->
  fwd_inv D gamma w
          (fun b' i' j' => done b' i' j' \/ (b' = b /\ i' = i /\ j' = j))
          (forward_cell D gamma w b j i Rm).
Proof.
  intros Hinv Hin Hpred b' i' j' Hc. unfold forward_cell.
  destruct (pruned w i j) eqn:Hp.
  - apply Hinv. destruct Hc as [[Hd | (-> & -> & ->)] | Hc]; tauto.
  - assert (Hcase : (b', i', j') = (b, i, j) \/ (b', i', j') <> (b, i, j)).
    { destruct (Nat.eq_dec b' b), (Nat.eq_dec i' i), (Nat.eq_dec j' j);
        subst; (left; reflexivity) || (right; congruence). }
    destruct Hcase as [Heq | Hne].
    + inversion Heq; subst. rewrite data_tset_same.
      rewrite (soft_grid_step D gamma w b i j Hin Hp).
      rewrite !Hinv by (apply Hpred; tauto). reflexivity.
    + rewrite data_tset_other by assumption. apply Hinv.
      destruct Hc as [[Hd | (-> & -> & ->)] | Hc]; tauto || congruence.
Qed.

Lemma forward_cell_shape b i j Rm :
  tshape (forward_cell D gamma w b j i Rm) = tshape Rm.
Proof. unfold forward_cell. destruct (pruned w i j); reflexivity. Qed.

Lemma compute_softdtw_inv :
  fwd_inv D gamma w (fun b _ _ => (b < shape0 D)%nat)
          (compute_softdtw D gamma w).
Proof.
  unfold compute_softdtw.
  apply fwd_inv_weaken with (done := seq_done (0 + shape0 D) 1 1).
  { intros b i j Hb. left. left. simpl. exact Hb. }
  apply (fold_seq_inv _ (fun b Rm => fwd_inv D gamma w (seq_done b 1 1) Rm)).
  { eapply fwd_inv_weaken; [| apply fwd_inv_init].
    intros b i j H. unfold seq_done in H. right. unfold inner. lia. }
  intros b Rm Hb Hinv.
  apply fwd_inv_weaken with (done := seq_done b (1 + shape2 D) 1).
  { intros b' i j H. destruct (inner_dec N M i j) as [Hin | Hin]; [| tauto].
    left. unfold seq_done in *. unfold inner, N, M in Hin. lia. }
  apply (fold_seq_inv _ (fun j Rm => fwd_inv D gamma w (seq_done b j 1) Rm));
    [exact Hinv |].
  intros j Rm' Hj Hinv'.
  apply fwd_inv_weaken with (done := seq_done b j (1 + shape1 D)).
  { intros b' i j' H. destruct (inner_dec N M i j') as [Hin | Hin]; [| tauto].
    left. unfold seq_done in *. unfold inner, N, M in Hin. lia. }
  apply (fold_seq_inv _ (fun i Rm => fwd_inv D gamma w (seq_done b j i) Rm));
    [exact Hinv' |].
  intros i Rm'' Hi Hinv''.
  eapply fwd_inv_weaken; [| apply forward_cell_inv; [exact Hinv'' | |]].
  - intros b' i' j' H. left. unfold seq_done in *. lia.
  - unfold inner, N, M. lia.
  - intros i' j' H. left. unfold seq_done.
    destruct H as [H | [H | H]]; inversion H; subst; lia.
Qed.

(** Every cell of the grid returned by [compute_softdtw] holds the
    solution of the recurrence. *)
Lemma compute_softdtw_grid b i j :
  (b < shape0 D)%nat ->
  data (compute_softdtw D gamma w) b i j = soft_grid D gamma w b i j.
Proof. intros Hb. apply compute_softdtw_inv. now left. Qed.

Lemma compute_softdtw_shape :
  tshape (compute_softdtw D gamma w) = (shape0 D, (N + 2)%nat, (M + 2)%nat).
Proof.
  unfold compute_softdtw.
  set (R0 := tset_cell _ 0 0 _).
  change (shape0 D, (N + 2)%nat, (M + 2)%nat) with (tshape R0).
  generalize R0. clear R0.
  induction (seq 0 (shape0 D)) as [| b lb IHb]; intros R0; simpl;
    [reflexivity |].
  rewrite IHb. clear IHb. revert R0.
  induction (seq 1 (shape2 D)) as [| j lj IHj]; intros R0; simpl;
    [reflexivity |].
  rewrite IHj. clear IHj. revert R0.
  induction (seq 1 (shape1 D)) as [| i li IHi]; intros R0; simpl;
    [reflexivity |].
  rewrite IHi. apply forward_cell_shape.
Qed.
End ForwardInvariant.

(** ** The wavefront kernel computes the same recurrence *)

Lemma in_all_steps B T P b p t :
  In (b, p, t) (all_steps B T P) <-> (b < B /\ p < P /\ t < T)%nat.
Proof.
  unfold all_steps. rewrite in_flat_map. split.
  - intros [b' [Hb H]]. apply in_flat_map in H. destruct H as [p' [Hp H]].
    apply in_map_iff in H. destruct H as [t' [Heq Ht]].
    apply in_seq in Hb, Hp, Ht. inversion Heq; subst. lia.
  - intros (Hb & Hp & Ht). exists b. split; [apply in_seq; lia |].
    apply in_flat_map. exists p. split; [apply in_seq; lia |].
    apply in_map_iff. exists t. split; [reflexivity | apply in_seq; lia].
Qed.

(** The guard of the kernel selects the thread whose cell lies on the
    anti-diagonal of the pass; the thread then runs the sequential cell
    body on [(tid + 1, p - tid + 1)]. *)
Lemma cuda_step_cases D g w N M b t p Rm :
  0 < g ->
  ((t < N /\ t <= p /\ p - t < M)%nat /\
   compute_softdtw_cuda D g w N M b t p Rm
   = forward_cell D g w b (p - t + 1) (t + 1) Rm)
  \/
  (~ (t < N /\ t <= p /\ p - t < M)%nat /\
   compute_softdtw_cuda D g w N M b t p Rm = Rm).
Proof.
  intros Hg. unfold compute_softdtw_cuda.
  destruct ((t + clampJ p t M =? p) && ((t <? N) && (clampJ p t M <? M)))%nat
    eqn:G.
  - left. apply andb_true_iff in G. destruct G as [G1 G2].
    apply andb_true_iff in G2. destruct G2 as [G2 G3].
    apply Nat.eqb_eq in G1. apply Nat.ltb_lt in G2, G3.
    assert (HJ : clampJ p t M = (p - t)%nat) by lia.
    split; [lia |]. rewrite HJ. unfold forward_cell.
    rewrite outside_band_pruned.
    destruct (pruned w (t + 1) (p - t + 1)); [reflexivity |].
    cbn [negb]. now rewrite softmin_cuda_eq.
  - right. split; [| reflexivity]. intros (H1 & H2 & H3).
    assert (HJ : clampJ p t M = (p - t)%nat) by (unfold clampJ; lia).
    rewrite HJ in G.
    apply andb_false_iff in G. destruct G as [G | G].
    + apply Nat.eqb_neq in G. lia.
    + apply andb_false_iff in G. destruct G as [G | G];
        apply Nat.ltb_ge in G; lia.
Qed.

Section KernelInvariant.
Variables (D : tensor3) (gamma : R) (w : Z).
Hypothesis gamma_pos : 0 < gamma.
Let B := shape0 D.
Let N := shape1 D.
Let M := shape2 D.
Let T := Nat.max N M.
Let P := (2 * T - 1)%nat.

Lemma run_kernel_inv s R0 :
  launch_schedule B T P s ->
  fwd_inv D gamma w (fun _ _ _ => False) R0 ->
  fwd_inv D gamma w (cuda_done s)
          (run_kernel (compute_softdtw_cuda D gamma w N M) s R0).
Proof.
  intros [Hall Hbar] H0. unfold run_kernel.
  change s with ([] ++ s) at 1.
  apply (fold_prefix_inv _ (fun l Rm => fwd_inv D gamma w (cuda_done l) Rm)).
  { eapply fwd_inv_weaken; [| exact H0]. intros b i j []. }
  intros l1 [[b p] t] l2 Rm Heq Hinv. simpl in Heq.
  cbn [kblock kpass kthread fst snd].
  assert (Hx : (b < B /\ p < P /\ t < T)%nat).
  { apply in_all_steps, Hall. rewrite Heq. apply in_elt. }
  assert (Hnew : forall b' i j,
             cuda_done (l1 ++ [(b, p, t)]) b' i j ->
             inner N M i j ->
             cuda_done l1 b' i j \/
             (b' = b /\ i = (t + 1)%nat /\ j = (p - t + 1)%nat /\
              (t < N /\ t <= p /\ p - t < M)%nat)).
  { intros b' i j Hd Hin. unfold cuda_done in *.
    apply in_app_or in Hd. destruct Hd as [Hd | [Hd | []]]; [now left |].
    right. inversion Hd; subst. unfold inner in Hin. lia. }
  destruct (cuda_step_cases D gamma w N M b t p Rm gamma_pos)
    as [[Hg ->] | [Hg ->]].
  - eapply fwd_inv_weaken;
      [| apply forward_cell_inv; [exact Hinv | |]].
    + intros b' i j Hd.
      destruct (inner_dec N M i j) as [Hin | Hin]; [| now right].
      left. destruct (Hnew _ _ _ Hd Hin) as [H | H]; [now left |].
      right. tauto.
    + unfold inner. fold N M. lia.
    + intros i' j' Hc.
      destruct (inner_dec N M i' j') as [Hin | Hin]; [| tauto].
      left. unfold cuda_done.
      apply (Hbar l1 (b, p, t) l2 Heq); cbn [kpass fst snd];
        unfold inner in Hin;
        destruct Hc as [Hc | [Hc | Hc]]; inversion Hc; subst; lia.
  - eapply fwd_inv_weaken; [| exact Hinv].
    intros b' i j Hd.
    destruct (inner_dec N M i j) as [Hin | Hin]; [| now right].
    left. destruct (Hnew _ _ _ Hd Hin) as [H | H]; [assumption | tauto].
Qed.

Lemma run_kernel_shape s R0 :
  tshape (run_kernel (compute_softdtw_cuda D gamma w N M) s R0) = tshape R0.
Proof.
  unfold run_kernel. revert R0.
  induction s as [| x s IH]; intros R0; simpl; [reflexivity |].
  rewrite IH. unfold compute_softdtw_cuda.
  repeat match goal with |- context [if ?c then _ else _] => destruct c end;
    reflexivity.
Qed.

(** Every cell of the grid left by the kernel holds the solution of the
    recurrence, whatever the execution order of the launch. *)
Lemma run_kernel_grid s b i j :
  launch_schedule B T P s ->
  (b < B)%nat ->
  data (run_kernel (compute_softdtw_cuda D gamma w N M) s
          (tset_cell (full B (N + 2) (M + 2) (emul (Fin 1) PInf)) 0 0
                     (fun _ => Fin 0))) b i j
  = soft_grid D gamma w b i j.
Proof.
  intros Hs Hb.
  apply (run_kernel_inv s _ Hs (fwd_inv_init D gamma w B)).
  destruct (inner_dec N M i j) as [Hin | Hin]; [| tauto].
  left. unfold cuda_done. apply (proj1 Hs). apply in_all_steps.
  unfold inner in Hin. unfold P, T. lia.
Qed.
End KernelInvariant.

Lemma index_or_raise_cases n k :
  (exists i, index_or_raise n k = Ok i) \/ index_or_raise n k = Raise IndexError.
Proof.
  unfold index_or_raise. destruct (py_index n k); eauto.
Qed.

Lemma get_cell_py_agree T T' ki kj :
  same_grid T T' ->
  result_agree same_vector (get_cell_py T ki kj) (get_cell_py T' ki kj).
Proof.
  intros [Hs Hd]. unfold get_cell_py.
  unfold tshape in Hs. injection Hs as H0 H1 H2. rewrite <- H1, <- H2.
  destruct (index_or_raise_cases (shape1 T) ki) as [[i ->] | ->];
    [| reflexivity].
  destruct (index_or_raise_cases (shape2 T) kj) as [[j ->] | ->];
    [| reflexivity].
  simpl. split; [exact H0 |]. intros b Hb. now apply Hd.
Qed.

Lemma read_value_agree Rm Rm' l1 l2 bw :
  same_grid Rm Rm' ->
  result_agree same_vector (read_value Rm l1 l2 bw) (read_value Rm' l1 l2 bw).
Proof.
  intros H. unfold read_value.
  repeat match goal with |- context [if ?c then _ else _] => destruct c end;
    now apply get_cell_py_agree.
Qed.

(** ** The in-order schedule respects the barrier *)

Lemma flat_map_split {A B : Type} (f : A -> list B) l :
  forall l1 x l2,
    flat_map f l = l1 ++ x :: l2 ->
    exists la a lb m1 m2,
      l = la ++ a :: lb /\ f a = m1 ++ x :: m2 /\ l1 = flat_map f la ++ m1.
Proof.
  induction l as [| a l IH]; intros l1 x l2 H; simpl in H.
  - destruct l1; discriminate.
  - apply app_eq_app in H. destruct H as [l' [[H1 H2] | [H1 H2]]].
    + destruct l' as [| y l'].
      * simpl in H2. symmetry in H2.
        destruct (IH [] x l2 H2) as (la & a' & lb & m1 & m2 & E1 & E2 & E3).
        exists (a :: la), a', lb, m1, m2. repeat split.
        -- now rewrite E1.
        -- assumption.
        -- simpl. rewrite <- app_assoc, <- E3. rewrite app_nil_r in *.
           now symmetry.
      * inversion H2; subst. exists [], a, l, l1, l'. now repeat split.
    + destruct (IH l' x l2 H2) as (la & a' & lb & m1 & m2 & E1 & E2 & E3).
      exists (a :: la), a', lb, m1, m2. repeat split.
      * now rewrite E1.
      * assumption.
      * simpl. rewrite H1, E3. now rewrite <- app_assoc.
Qed.

Lemma seq_split_before n :
  forall s la a lb,
    seq s n = la ++ a :: lb -> forall k, (s <= k < a)%nat -> In k la.
Proof.
  induction n as [| n IH]; intros s la a lb H k Hk; simpl in H.
  - destruct la; discriminate.
  - destruct la as [| y la]; simpl in H; inversion H; subst.
    + lia.
    + destruct (Nat.eq_dec k y) as [-> | Hne]; [now left |].
      right. apply (IH (S y) la a lb); [assumption | lia].
Qed.

Lemma all_steps_schedule B T P : launch_schedule B T P (all_steps B T P).
Proof.
  split; [tauto |].
  intros l1 x l2 H p' t' Hp Ht. unfold all_steps in H.
  apply flat_map_split in H.
  destruct H as (la & b & lb & m1 & m2 & Eb & Hb & ->).
  apply flat_map_split in Hb.
  destruct Hb as (pa & p & pb & n1 & n2 & Ep & Hp' & ->).
  assert (Hx : In x (map (fun t => (b, p, t)) (seq 0 T))).
  { rewrite Hp'. apply in_elt. }
  apply in_map_iff in Hx. destruct Hx as [t [<- _]].
  cbn [kblock kpass fst snd] in *.
  apply in_or_app. right. apply in_or_app. left.
  apply in_flat_map. exists p'. split.
  - apply (seq_split_before _ _ _ _ _ Ep). lia.
  - apply in_map_iff. exists t'. split; [reflexivity | apply in_seq; lia].
Qed.

Lemma in_order_fair : fair in_order.
Proof. intros B T P. apply all_steps_schedule. Qed.

(** ** Threads of one pass do not interfere

    A step of the launch is the whole body of a pass for one thread.  This
    loses nothing: inside a pass, the cell a thread writes is neither read
    nor written by any other thread of the block, so every interleaving of
    the reads and writes of a pass gives the state that running the
    bodies one after the other gives. *)

Lemma forward_pass_independent d t t' :
  (t <= d)%nat -> (t' <= d)%nat -> t <> t' ->
  thread_cell d t' <> thread_cell d t
  /\ ~ In (thread_cell d t') (forward_reads (thread_cell d t)).
Proof.
  intros Ht Ht' Hne. unfold thread_cell, forward_reads. cbn [fst snd In].
  split.
  - intros H. inversion H. lia.
  - intros [H | [H | [H | []]]]; inversion H; lia.
Qed.

Lemma backward_pass_independent d t t' :
  (t <= d)%nat -> (t' <= d)%nat -> t <> t' ->
  thread_cell d t' <> thread_cell d t
  /\ ~ In (thread_cell d t') (backward_reads (thread_cell d t)).
Proof.
  intros Ht Ht' Hne. unfold thread_cell, backward_reads. cbn [fst snd In].
  split.
  - intros H. inversion H. lia.
  - intros [H | [H | [H | [H | []]]]]; inversion H; lia.
Qed.

(** ** Finite costs: the active cells are finite *)

Section FiniteGrid.
Variables (D : tensor3) (gamma : R) (w : Z) (b : nat).
Hypothesis gamma_pos : 0 < gamma.
Hypothesis D_finite : finite3 D.
Let N := shape1 D.
Let M := shape2 D.

Lemma soft_grid_range n :
  forall i j, (i + j <= n)%nat ->
    fin_or_pinf (soft_grid D gamma w b i j) /\
    (inner N M i j -> pruned w i j = false ->
     is_fin (soft_grid D gamma w b i j) /\
     (is_fin (soft_grid D gamma w b (i - 1) (j - 1)) \/
      is_fin (soft_grid D gamma w b (i - 1) j) \/
      is_fin (soft_grid D gamma w b i (j - 1)))).
Proof.
  induction n as [| n IH]; intros i j Hn.
  - assert (i = 0 /\ j = 0)%nat as [-> ->] by lia.
    split; [exact I |]. unfold inner. lia.
  - destruct (inner_dec N M i j) as [Hin | Hin].
    2:{ split; [| tauto].
        destruct i as [| i]; [destruct j as [| j] |]; try exact I.
        rewrite soft_grid_outer; [exact I | exact Hin | congruence]. }
    destruct (pruned w i j) eqn:Hp.
    { split; [| discriminate]. now rewrite soft_grid_pruned. }
    assert (Hpreds :
              is_fin (soft_grid D gamma w b (i - 1) (j - 1)) \/
              is_fin (soft_grid D gamma w b (i - 1) j) \/
              is_fin (soft_grid D gamma w b i (j - 1))).
    { unfold inner in Hin. apply pruned_false in Hp.
      destruct (Nat.lt_total i j) as [Hlt | [Heq | Hgt]].
      - right. right. apply (IH i (j - 1)%nat); [lia | unfold inner; lia |].
        apply pruned_false. lia.
      - left. subst j. destruct (Nat.eq_dec i 1) as [-> | Hne].
        + exact I.
        + apply (IH (i - 1) (i - 1))%nat; [lia | unfold inner; lia |].
          apply pruned_false. lia.
      - right. left. apply (IH (i - 1)%nat j); [lia | unfold inner; lia |].
        apply pruned_false. lia. }
    assert (Hval : is_fin (soft_grid D gamma w b i j)).
    { rewrite soft_grid_step by assumption.
      unfold inner in Hin.
      rewrite softmin_closed; try assumption;
        try (apply IH; lia).
      specialize (D_finite b (i - 1) (j - 1))%nat.
      destruct (data D b (i - 1) (j - 1)); simpl in *; tauto. }
    split; [| intros _ _; split; assumption].
    destruct (soft_grid D gamma w b i j); simpl in *; tauto.
Qed.

Lemma soft_grid_fin_or_pinf i j : fin_or_pinf (soft_grid D gamma w b i j).
Proof. apply (soft_grid_range (i + j)). lia. Qed.

Lemma soft_grid_active_fin i j :
  inner N M i j -> pruned w i j = false ->
  is_fin (soft_grid D gamma w b i j).
Proof. intros Hin Hp. now apply (soft_grid_range (i + j) i j). Qed.

Lemma soft_grid_pred_fin i j :
  inner N M i j -> pruned w i j = false ->
  is_fin (soft_grid D gamma w b (i - 1) (j - 1)) \/
  is_fin (soft_grid D gamma w b (i - 1) j) \/
  is_fin (soft_grid D gamma w b i (j - 1)).
Proof. intros Hin Hp. now apply (soft_grid_range (i + j) i j). Qed.

(** The value of an active cell, in closed form over the weights of its
    predecessors. *)
Lemma soft_grid_active_value i j d :
  inner N M i j -> pruned w i j = false ->
  data D b (i - 1) (j - 1) = Fin d ->
  soft_grid D gamma w b i j
  = Fin (d + - gamma *
             ln (weight gamma (soft_grid D gamma w b (i - 1) (j - 1))
                 + weight gamma (soft_grid D gamma w b (i - 1) j)
                 + weight gamma (soft_grid D gamma w b i (j - 1)))).
Proof.
  intros Hin Hp Hd. rewrite soft_grid_step by assumption.
  rewrite softmin_closed; auto using soft_grid_fin_or_pinf, soft_grid_pred_fin.
  now rewrite Hd.
Qed.

Lemma soft_grid_recurrence i j :
  inner N M i j -> pruned w i j = false ->
  soft_grid D gamma w b i j
  = recurrence_value gamma (data D b (i - 1) (j - 1))
                     (soft_grid D gamma w b (i - 1) (j - 1))
                     (soft_grid D gamma w b (i - 1) j)
                     (soft_grid D gamma w b i (j - 1)).
Proof.
  intros Hin Hp.
  pose proof (D_finite b (i - 1) (j - 1))%nat as Hd.
  destruct (data D b (i - 1) (j - 1)) as [d | | |] eqn:Ed; simpl in Hd;
    try tauto.
  rewrite (soft_grid_active_value i j d) by assumption.
  rewrite recurrence_value_closed;
    auto using soft_grid_fin_or_pinf, soft_grid_pred_fin.
Qed.
End FiniteGrid.

(* ------------------------------------------------------------------ *)
(** * The claims *)

(** C2. For cost matrices with finite entries and [gamma > 0], the grid
    returned by the forward accumulator has shape [(B, N+2, M+2)]; for
    every batch element [R[0,0] = 0], every other border cell and every
    inactive interior cell holds [+infinity], and every active interior
    cell holds the cost minus [gamma * ln] of the sum of the exponentials
    of the three predecessors scaled by [-1/gamma]. *)
Theorem C2_forward_grid (D : tensor3) (gamma : R) (w : Z) :
  0 < gamma -> finite3 D ->
  let N := shape1 D in
  let M := shape2 D in
  let Rm := compute_softdtw D gamma w in
  tshape Rm = (shape0 D, (N + 2)%nat, (M + 2)%nat) /\
  forall b, (b < shape0 D)%nat ->
    data Rm b 0 0 = Fin 0 /\
    (forall i j, (i <= N + 1)%nat -> (j <= M + 1)%nat ->
       (i = 0 \/ j = 0 \/ i = N + 1 \/ j = M + 1)%nat ->
       (i, j) <> (0, 0)%nat -> data Rm b i j = PInf) /\
    (forall i j, inner N M i j -> pruned w i j = true ->
       data Rm b i j = PInf) /\
    (forall i j, inner N M i j -> pruned w i j = false ->
       is_fin (data Rm b i j) /\
       data Rm b i j
       = recurrence_value gamma (data D b (i - 1) (j - 1))
                          (data Rm b (i - 1) (j - 1))
                          (data Rm b (i - 1) j)
                          (data Rm b i (j - 1))).
Proof.
  intros Hg HD N M Rm. split; [apply compute_softdtw_shape |].
  intros b Hb. unfold Rm. repeat split.
  - now rewrite compute_softdtw_grid.
  - intros i j Hi Hj Hborder Hne. rewrite compute_softdtw_grid by assumption.
    apply soft_grid_outer; [| assumption]. unfold inner. fold N M. lia.
  - intros i j Hin Hp. rewrite compute_softdtw_grid by assumption.
    now apply soft_grid_pruned.
  - rewrite compute_softdtw_grid by assumption.
    now apply soft_grid_active_fin.
  - rewrite !compute_softdtw_grid by assumption.
    now apply soft_grid_recurrence.
Qed.

(** ** Python indices and the terminal cell *)

Lemma index_or_raise_neg n k i :
  (- Z.of_nat n <= k < 0)%Z -> Z.of_nat i = (Z.of_nat n + k)%Z ->
  index_or_raise n k = Ok i.
Proof.
  intros Hk Hi. unfold index_or_raise, py_index.
  replace ((0 <=? k)%Z) with false by (symmetry; apply Z.leb_gt; lia).
  replace ((- Z.of_nat n <=? k)%Z) with true by (symmetry; apply Z.leb_le; lia).
  replace ((k <? 0)%Z) with true by (symmetry; apply Z.ltb_lt; lia).
  cbn [andb]. f_equal. lia.
Qed.

Lemma terminal_cell_corner N M w :
  (N = M \/ w = 0 \/ w >= Z.abs (Z.of_nat N - Z.of_nat M))%Z ->
  terminal_cell N M w = (N, M).
Proof.
  intros H. unfold terminal_cell.
  replace ((N =? M)%nat || (w =? 0)%Z
           || (w >=? Z.abs (Z.of_nat N - Z.of_nat M))%Z) with true;
    [reflexivity |].
  symmetry. rewrite !orb_true_iff, Nat.eqb_eq, Z.eqb_eq, Z.geb_le. lia.
Qed.

Lemma terminal_cell_narrow_cols N M w :
  (N < M)%nat -> (0 < w < Z.of_nat M - Z.of_nat N)%Z ->
  terminal_cell N M w = (N, (N + Z.to_nat w)%nat).
Proof.
  intros HNM Hw. unfold terminal_cell.
  replace ((N =? M)%nat || (w =? 0)%Z
           || (w >=? Z.abs (Z.of_nat N - Z.of_nat M))%Z) with false.
  - now replace (N <? M)%nat with true by (symmetry; apply Nat.ltb_lt; lia).
  - symmetry. rewrite !orb_false_iff, Nat.eqb_neq, Z.eqb_neq, Z.geb_leb, Z.leb_gt.
    lia.
Qed.

Lemma terminal_cell_narrow_rows N M w :
  (M < N)%nat -> (0 < w < Z.of_nat N - Z.of_nat M)%Z ->
  terminal_cell N M w = ((M + Z.to_nat w)%nat, M).
Proof.
  intros HNM Hw. unfold terminal_cell.
  replace ((N =? M)%nat || (w =? 0)%Z
           || (w >=? Z.abs (Z.of_nat N - Z.of_nat M))%Z) with false.
  - now replace (N <? M)%nat with false by (symmetry; apply Nat.ltb_ge; lia).
  - symmetry. rewrite !orb_false_iff, Nat.eqb_neq, Z.eqb_neq, Z.geb_leb, Z.leb_gt.
    lia.
Qed.

(** The terminal cell is an active interior cell (for shapes with at
    least one row and one column). *)
Lemma terminal_cell_active N M w :
  (1 <= N)%nat -> (1 <= M)%nat -> (0 <= w)%Z ->
  inner N M (fst (terminal_cell N M w)) (snd (terminal_cell N M w)) /\
  pruned w (fst (terminal_cell N M w)) (snd (terminal_cell N M w)) = false.
Proof.
  intros HN HM Hw.
  destruct (Z_lt_le_dec w (Z.abs (Z.of_nat N - Z.of_nat M))) as [Hlt | Hge].
  - destruct (Z.eq_dec w 0) as [-> | Hw0].
    { rewrite terminal_cell_corner by lia. unfold inner. simpl.
      split; [lia | reflexivity]. }
    destruct (Nat.lt_total N M) as [H | [H | H]].
    + rewrite terminal_cell_narrow_cols by lia. simpl. unfold inner.
      split; [lia |]. apply pruned_false. lia.
    + subst. lia.
    + rewrite terminal_cell_narrow_rows by lia. simpl. unfold inner.
      split; [lia |]. apply pruned_false. lia.
  - rewrite terminal_cell_corner by lia. simpl. unfold inner.
    split; [lia |]. apply pruned_false. lia.
Qed.

Ltac rewrite_index n k i :=
  rewrite (index_or_raise_neg n k i) by (try split; lia); cbn [bind].

Ltac step_index H1 H2 n k i :=
  cbn [bind shape1 shape2 full tset_col tset_row tset_cell];
  rewrite ?H1, ?H2;
  rewrite ?(index_or_raise_neg n k i) by (try split; lia);
  cbn [bind shape1 shape2 full tset_col tset_row tset_cell].

Lemma get_cell_py_terminal Rm N M ki kj i j :
  shape1 Rm = (N + 2)%nat -> shape2 Rm = (M + 2)%nat ->
  (- Z.of_nat (N + 2) <= ki < 0)%Z -> Z.of_nat i = (Z.of_nat (N + 2) + ki)%Z ->
  (- Z.of_nat (M + 2) <= kj < 0)%Z -> Z.of_nat j = (Z.of_nat (M + 2) + kj)%Z ->
  get_cell_py Rm ki kj = Ok (tget_cell Rm i j).
Proof.
  intros H1 H2 Hki Hi Hkj Hj. unfold get_cell_py. rewrite H1, H2.
  rewrite_index (N + 2)%nat ki i. rewrite_index (M + 2)%nat kj j. reflexivity.
Qed.

(** The value read by [forward] is the grid at the terminal cell. *)
Lemma read_value_terminal Rm N M w :
  shape1 Rm = (N + 2)%nat -> shape2 Rm = (M + 2)%nat ->
  (0 <= w)%Z \/ N = M ->
  read_value Rm N M w
  = Ok (tget_cell Rm (fst (terminal_cell N M w)) (snd (terminal_cell N M w))).
Proof.
  intros H1 H2 Hw. unfold read_value.
  destruct (Nat.eq_dec N M) as [Heq | Hne].
  { rewrite terminal_cell_corner by lia. subst M.
    rewrite Nat.ltb_irrefl. apply (get_cell_py_terminal Rm N N); cbn [fst snd]; lia. }
  destruct (Z_lt_le_dec w (Z.abs (Z.of_nat N - Z.of_nat M))) as [Hlt | Hge].
  - assert (Hw' : (0 <= w)%Z) by lia.
    replace ((w >=? Z.abs (Z.of_nat N - Z.of_nat M))%Z) with false
      by (symmetry; rewrite Z.geb_leb; apply Z.leb_gt; lia).
    destruct (Z.eq_dec w 0) as [-> | Hw0].
    { rewrite terminal_cell_corner by lia. cbn [orb Z.eqb fst snd].
      destruct (N <? M)%nat; [| destruct (M <? N)%nat];
        apply (get_cell_py_terminal Rm N M); lia. }
    replace ((w =? 0)%Z) with false by (symmetry; apply Z.eqb_neq; lia).
    cbn [orb].
    destruct (N <? M)%nat eqn:E1.
    + apply Nat.ltb_lt in E1. rewrite terminal_cell_narrow_cols by lia.
      apply (get_cell_py_terminal Rm N M); cbn [fst snd]; lia.
    + apply Nat.ltb_ge in E1. destruct (M <? N)%nat eqn:E2.
      * apply Nat.ltb_lt in E2. rewrite terminal_cell_narrow_rows by lia.
        apply (get_cell_py_terminal Rm N M); cbn [fst snd]; lia.
      * apply Nat.ltb_ge in E2. lia.
  - replace ((w >=? Z.abs (Z.of_nat N - Z.of_nat M))%Z) with true
      by (symmetry; apply Z.geb_le; lia).
    rewrite terminal_cell_corner by lia. cbn [orb fst snd].
    destruct (N <? M)%nat; [| destruct (M <? N)%nat];
      apply (get_cell_py_terminal Rm N M); lia.
Qed.

(** The boundary writes of the backward pass: the sentinel is the cell
    diagonally after the terminal cell. *)
Lemma backward_boundary_terminal D_ Rm w :
  let N := shape1 D_ in
  let M := shape2 D_ in
  shape1 Rm = (N + 2)%nat -> shape2 Rm = (M + 2)%nat ->
  (0 <= w)%Z \/ N = M ->
  backward_boundary D_ Rm w
  = Ok (boundary_R Rm (fst (terminal_cell N M w) + 1)
                   (snd (terminal_cell N M w) + 1),
        seed_E (shape0 D_) N M (fst (terminal_cell N M w) + 1)
               (snd (terminal_cell N M w) + 1)).
Proof.
  intros N M H1 H2 Hw.
  assert (Hcorner :
    (E <- set_cell_py (full (shape0 D_) (N + 2) (M + 2) (Fin 0)) (-1) (-1)
                      (fun _ => Fin 1) ;;
     Rm0 <- set_col_py Rm (-1) MInf ;;
     Rm1 <- set_row_py Rm0 (-1) MInf ;;
     V <- get_cell_py Rm1 (-2) (-2) ;;
     Rm2 <- set_cell_py Rm1 (-1) (-1) (vdata V) ;;
     Ok (Rm2, E))
    = Ok (boundary_R Rm (N + 1) (M + 1),
          seed_E (shape0 D_) N M (N + 1) (M + 1))).
  { unfold set_cell_py, set_col_py, set_row_py, get_cell_py.
    step_index H1 H2 (N + 2)%nat (-1)%Z (N + 1)%nat.
    step_index H1 H2 (M + 2)%nat (-1)%Z (M + 1)%nat.
    step_index H1 H2 (M + 2)%nat (-1)%Z (M + 1)%nat.
    step_index H1 H2 (N + 2)%nat (-1)%Z (N + 1)%nat.
    step_index H1 H2 (N + 2)%nat (-2)%Z (N + 1 - 1)%nat.
    step_index H1 H2 (M + 2)%nat (-2)%Z (M + 1 - 1)%nat.
    step_index H1 H2 (N + 2)%nat (-1)%Z (N + 1)%nat.
    step_index H1 H2 (M + 2)%nat (-1)%Z (M + 1)%nat.
    reflexivity. }
  unfold backward_boundary. fold N M.
  destruct (Nat.eq_dec N M) as [Heq | Hne].
  { rewrite terminal_cell_corner by lia.
    replace (Z.of_nat N <? Z.of_nat M)%Z with false
      by (symmetry; apply Z.ltb_ge; lia).
    replace (Z.of_nat M <? Z.of_nat N)%Z with false
      by (symmetry; apply Z.ltb_ge; lia).
    exact Hcorner. }
  destruct (Z_lt_le_dec w (Z.abs (Z.of_nat N - Z.of_nat M))) as [Hlt | Hge].
  - assert (Hw' : (0 <= w)%Z) by lia.
    replace ((w >=? Z.abs (Z.of_nat N - Z.of_nat M))%Z) with false
      by (symmetry; rewrite Z.geb_leb; apply Z.leb_gt; lia).
    destruct (Z.eq_dec w 0) as [-> | Hw0].
    { rewrite terminal_cell_corner by lia. cbn [orb Z.eqb fst snd].
      destruct (Z.of_nat N <? Z.of_nat M)%Z;
        [| destruct (Z.of_nat M <? Z.of_nat N)%Z]; exact Hcorner. }
    replace ((w =? 0)%Z) with false by (symmetry; apply Z.eqb_neq; lia).
    cbn [orb].
    destruct (Z.of_nat N <? Z.of_nat M)%Z eqn:E1.
    + apply Z.ltb_lt in E1. rewrite terminal_cell_narrow_cols by lia.
      cbn [fst snd].
      unfold set_cell_py, set_col_py, set_row_py, get_cell_py.
        set (k := (Z.of_nat N - Z.of_nat M + w - 1)%Z).
      replace (Z.of_nat N - Z.of_nat M + w - 2)%Z with (k - 1)%Z by lia.
      set (sj := (N + Z.to_nat w + 1)%nat).
      step_index H1 H2 (N + 2)%nat (-1)%Z (N + 1)%nat.
      step_index H1 H2 (M + 2)%nat k sj.
      step_index H1 H2 (M + 2)%nat k sj.
      step_index H1 H2 (N + 2)%nat (-1)%Z (N + 1)%nat.
      step_index H1 H2 (N + 2)%nat (-2)%Z (N + 1 - 1)%nat.
      step_index H1 H2 (M + 2)%nat (k - 1)%Z (sj - 1)%nat.
      step_index H1 H2 (N + 2)%nat (-1)%Z (N + 1)%nat.
      step_index H1 H2 (M + 2)%nat k sj.
      reflexivity.
    + apply Z.ltb_ge in E1. destruct (Z.of_nat M <? Z.of_nat N)%Z eqn:E2.
      * apply Z.ltb_lt in E2. rewrite terminal_cell_narrow_rows by lia.
        cbn [fst snd].
        unfold set_cell_py, set_col_py, set_row_py, get_cell_py.
            set (k := (Z.of_nat M - Z.of_nat N + w - 1)%Z).
        replace (Z.of_nat M - Z.of_nat N + w - 2)%Z with (k - 1)%Z by lia.
        set (si := (M + Z.to_nat w + 1)%nat).
        step_index H1 H2 (N + 2)%nat k si.
        step_index H1 H2 (M + 2)%nat (-1)%Z (M + 1)%nat.
        step_index H1 H2 (M + 2)%nat (-1)%Z (M + 1)%nat.
        step_index H1 H2 (N + 2)%nat k si.
        step_index H1 H2 (N + 2)%nat (k - 1)%Z (si - 1)%nat.
        step_index H1 H2 (M + 2)%nat (-2)%Z (M + 1 - 1)%nat.
        step_index H1 H2 (N + 2)%nat k si.
        step_index H1 H2 (M + 2)%nat (-1)%Z (M + 1)%nat.
        reflexivity.
      * apply Z.ltb_ge in E2. lia.
  - replace ((w >=? Z.abs (Z.of_nat N - Z.of_nat M))%Z) with true
      by (symmetry; apply Z.geb_le; lia).
    rewrite terminal_cell_corner by lia. cbn [orb fst snd].
    destruct (Z.of_nat N <? Z.of_nat M)%Z;
      [| destruct (Z.of_nat M <? Z.of_nat N)%Z]; exact Hcorner.
Qed.

Lemma compute_softdtw_shape1 D gamma w :
  shape1 (compute_softdtw D gamma w) = (shape1 D + 2)%nat.
Proof.
  pose proof (compute_softdtw_shape D gamma w) as H.
  unfold tshape in H. now injection H.
Qed.

Lemma compute_softdtw_shape2 D gamma w :
  shape2 (compute_softdtw D gamma w) = (shape2 D + 2)%nat.
Proof.
  pose proof (compute_softdtw_shape D gamma w) as H.
  unfold tshape in H. now injection H.
Qed.

Lemma compute_softdtw_shape0 D gamma w :
  shape0 (compute_softdtw D gamma w) = shape0 D.
Proof.
  pose proof (compute_softdtw_shape D gamma w) as H.
  unfold tshape in H. now injection H.
Qed.

(** [forward] returns the grid at the terminal cell for every non-zero
    [gamma] and every non-negative bandwidth. *)
Lemma forward_terminal D gamma w :
  gamma <> 0 -> (0 <= w)%Z \/ shape1 D = shape2 D ->
  _SoftDTW.forward D gamma w
  = Ok (tget_cell (compute_softdtw D gamma w)
                  (fst (terminal_cell (shape1 D) (shape2 D) w))
                  (snd (terminal_cell (shape1 D) (shape2 D) w)),
        mkCtx D (compute_softdtw D gamma w) gamma w).
Proof.
  intros Hg Hw. unfold _SoftDTW.forward.
  rewrite Reqb_false by assumption. cbn [andb].
  rewrite read_value_terminal;
    auto using compute_softdtw_shape1, compute_softdtw_shape2.
Qed.

(** C1. The value [align] returns per batch element is the forward grid
    read at the terminal cell: [(N, M)] when [N = M], [w = 0] or
    [w >= |N - M|]; [(N, N + w)] when [N < M] and [0 < w < M - N];
    [(M + w, M)] when [N > M] and [0 < w < N - M].  The backward pass
    seeds the adjoint grid with 1 at the sentinel cell diagonally after
    that terminal cell, and with 0 everywhere else. *)
Theorem C1_terminal_cell (D : tensor3) (gamma : R) (w : Z) (ti tj : nat) :
  0 < gamma ->
  let N := shape1 D in
  let M := shape2 D in
  let Rm := compute_softdtw D gamma w in
  ((N = M \/ w = 0%Z \/ (w >= Z.abs (Z.of_nat N - Z.of_nat M))%Z)
   /\ ti = N /\ tj = M)
  \/ ((N < M)%nat /\ (0 < w < Z.of_nat M - Z.of_nat N)%Z
      /\ ti = N /\ tj = (N + Z.to_nat w)%nat)
  \/ ((M < N)%nat /\ (0 < w < Z.of_nat N - Z.of_nat M)%Z
      /\ ti = (M + Z.to_nat w)%nat /\ tj = M) ->
  _SoftDTW.forward D gamma w = Ok (tget_cell Rm ti tj, mkCtx D Rm gamma w)
  /\ (forall b, vdata (tget_cell Rm ti tj) b = data Rm b ti tj)
  /\ exists R1 E1,
      backward_boundary D Rm w = Ok (R1, E1)
      /\ forall b i j,
          data E1 b i j
          = if ((i =? ti + 1) && (j =? tj + 1))%nat then Fin 1 else Fin 0.
Proof.
  intros Hg N M Rm Hcase.
  assert (Hw : (0 <= w)%Z \/ N = M) by lia.
  assert (Htc : terminal_cell N M w = (ti, tj)).
  { destruct Hcase as [(H & -> & ->) | [(H1 & H2 & -> & ->) | (H1 & H2 & -> & ->)]].
    - now apply terminal_cell_corner.
    - now apply terminal_cell_narrow_cols.
    - now apply terminal_cell_narrow_rows. }
  split; [| split].
  - unfold Rm. rewrite forward_terminal by (assumption || lra).
    fold N M. now rewrite Htc.
  - reflexivity.
  - eexists. eexists. split.
    + unfold Rm. rewrite backward_boundary_terminal;
        auto using compute_softdtw_shape1, compute_softdtw_shape2.
    + fold N M. rewrite Htc. reflexivity.
Qed.

Lemma C1_terminal_cell_witness :
  0 < 1 /\
  _SoftDTW.forward (zero_cost 1 3 5) 1 1
  = Ok (tget_cell (compute_softdtw (zero_cost 1 3 5) 1 1) 3 4,
        mkCtx (zero_cost 1 3 5) (compute_softdtw (zero_cost 1 3 5) 1 1) 1 1).
Proof.
  split; [lra |].
  apply (C1_terminal_cell (zero_cost 1 3 5) 1 1 3 4); [lra |].
  right. left. simpl. repeat split; lia.
Defined.

Lemma C2_forward_grid_witness :
  0 < 1 /\ finite3 (zero_cost 1 1 1) /\
  data (compute_softdtw (zero_cost 1 1 1) 1 0) 0 0 0 = Fin 0.
Proof.
  assert (Hfin : finite3 (zero_cost 1 1 1)) by (intros b i j; exact I).
  split; [lra |]. split; [exact Hfin |].
  destruct (C2_forward_grid (zero_cost 1 1 1) 1 0) as [_ H]; [lra | exact Hfin |].
  apply (H 0%nat). simpl. lia.
Defined.

(** C9. For a positive [gamma] and every execution order of the launch
    that respects the barrier, the wavefront kernel leaves the same grid
    as the sequential triple loop, and the two [forward] functions agree:
    the same values, or the same exception. *)
Theorem C9_wavefront_equals_sequential
        (sch : scheduler) (D : tensor3) (gamma : R) (w : Z) :
  fair sch -> 0 < gamma ->
  result_agree
    (fun r r' =>
       same_vector (fst r) (fst r') /\
       same_grid (saved_R (snd r)) (saved_R (snd r')))
    (_SoftDTW.forward D gamma w)
    (_SoftDTWCUDA.forward sch D gamma w)
  /\ ((0 <= w)%Z -> exists r, _SoftDTW.forward D gamma w = Ok r).
Proof.
  intros Hfair Hg. split.
  2:{ intros Hw. eexists. apply forward_terminal; [lra | now left]. }
  unfold _SoftDTW.forward, _SoftDTWCUDA.forward.
  rewrite Reqb_false by lra. cbn [andb].
  set (Rs := compute_softdtw D gamma w).
  set (Rc := run_kernel _ _ _).
  assert (Hsame : same_grid Rs Rc).
  { split.
    - unfold Rs, Rc. rewrite compute_softdtw_shape, run_kernel_shape.
      reflexivity.
    - intros b i j Hb. unfold Rs in Hb. rewrite compute_softdtw_shape0 in Hb.
      unfold Rs, Rc. rewrite compute_softdtw_grid by assumption.
      symmetry. apply run_kernel_grid; [assumption | apply Hfair | assumption]. }
  pose proof (read_value_agree Rs Rc (shape1 D) (shape2 D) w Hsame) as Hread.
  destruct (read_value Rs (shape1 D) (shape2 D) w) as [V | e];
    destruct (read_value Rc (shape1 D) (shape2 D) w) as [V' | e'];
    simpl in *; tauto.
Qed.

Lemma C9_wavefront_equals_sequential_witness :
  fair in_order /\ 0 < 1 /\
  exists r, _SoftDTW.forward (zero_cost 1 2 3) 1 1 = Ok r.
Proof.
  split; [exact in_order_fair |]. split; [lra |].
  apply (C9_wavefront_equals_sequential in_order (zero_cost 1 2 3) 1 1
           in_order_fair); [lra | lia].
Defined.

(** ** The sequential backward pass *)

Lemma adjoint_sum_agree D Rm Rm' E E' gamma k i j :
  data Rm k i j = data Rm' k i j ->
  (forall i' j', successor i j i' j' ->
     data Rm k i' j' = data Rm' k i' j' /\ data E k i' j' = data E' k i' j') ->
  adjoint_sum D Rm E gamma k i j = adjoint_sum D Rm' E' gamma k i j.
Proof.
  intros H0 Hs. unfold adjoint_sum, adjoint_terms, adjoint_term. cbn [fst snd].
  destruct (Hs (i + 1)%nat j) as [-> ->]; [unfold successor; lia |].
  destruct (Hs i (j + 1)%nat) as [-> ->]; [unfold successor; lia |].
  destruct (Hs (i + 1)%nat (j + 1)%nat) as [-> ->]; [unfold successor; lia |].
  now rewrite H0.
Qed.

Lemma data_final_R_inner R1 N M b i j :
  inner N M i j -> data (final_R R1 N M) b i j = neg_if_inf (data R1 b i j).
Proof.
  intros H. simpl. apply innerb_spec in H. now rewrite H.
Qed.

Lemma data_final_R_outer R1 N M b i j :
  ~ inner N M i j -> data (final_R R1 N M) b i j = data R1 b i j.
Proof.
  intros H. simpl. destruct (innerb N M i j) eqn:E; [| reflexivity].
  apply innerb_spec in E. contradiction.
Qed.

Lemma cell_eq_dec (b i j b' i' j' : nat) :
  (b', i', j') = (b, i, j) \/ (b', i', j') <> (b, i, j).
Proof.
  destruct (Nat.eq_dec b' b), (Nat.eq_dec i' i), (Nat.eq_dec j' j);
    subst; (left; reflexivity) || (right; congruence).
Qed.

Section BackwardInvariant.
Variables (D R1 E1 : tensor3) (gamma : R) (w : Z) (N M : nat).

Lemma bwd_inv_equiv (done done' : nat -> nat -> nat -> Prop) st :
  (forall b i j, inner N M i j -> (done b i j <-> done' b i j)) ->
  bwd_inv D R1 E1 gamma w N M done st ->
  bwd_inv D R1 E1 gamma w N M done' st.
Proof.
  intros Heq (I1 & I2 & I3 & I4). repeat split.
  - intros b i j Hd Hin. apply I1; [apply Heq |]; assumption.
  - intros b i j Hn. apply I2. intros [Hd Hin]. apply Hn.
    split; [apply Heq |]; assumption.
  - intros b i j Hn. apply I3. intros (Hd & Hin & Hp). apply Hn.
    split; [apply Heq |]; tauto.
  - intros b i j Hd Hin Hp. apply I4; [apply Heq | |]; assumption.
Qed.

Lemma bwd_inv_init :
  bwd_inv D R1 E1 gamma w N M (fun _ _ _ => False) (R1, E1).
Proof. repeat split; intros; tauto. Qed.

(** One visit of an interior cell whose successors are settled. *)
Lemma backward_cell_inv (done : nat -> nat -> nat -> Prop) st k i j :
  bwd_inv D R1 E1 gamma w N M done st ->
  succ_closed N M done ->
  inner N M i j ->
  ~ done k i j ->
  (forall i' j', successor i j i' j' -> done k i' j' \/ ~ inner N M i' j') ->
  bwd_inv D R1 E1 gamma w N M
          (fun b' i' j' => done b' i' j' \/ (b', i', j') = (k, i, j))
          (backward_cell D gamma w k j i st).
Proof.
  intros (I1 & I2 & I3 & I4) Hclosed Hin Hnd Hsucc.
  destruct st as [Rm E]. cbn [fst snd] in *.
  set (Rm' := if isinf (data Rm k i j) then tset Rm k i j MInf else Rm).
  assert (Hown : data Rm' k i j = neg_if_inf (data R1 k i j)).
  { unfold Rm', neg_if_inf. rewrite <- (I2 k i j) by tauto.
    destruct (isinf (data Rm k i j)); [apply data_tset_same | reflexivity]. }
  assert (Hother : forall b' i' j', (b', i', j') <> (k, i, j) ->
                                    data Rm' b' i' j' = data Rm b' i' j').
  { intros b' i' j' Hne. unfold Rm'.
    destruct (isinf (data Rm k i j)); [| reflexivity].
    now apply data_tset_other. }
  assert (HR1 : forall b' i' j',
             (done b' i' j' \/ (b', i', j') = (k, i, j)) -> inner N M i' j' ->
             data Rm' b' i' j' = neg_if_inf (data R1 b' i' j')).
  { intros b' i' j' Hd Hin'.
    destruct (cell_eq_dec k i j b' i' j') as [Heq | Hne].
    - inversion Heq; subst. exact Hown.
    - rewrite Hother by assumption. apply I1; [| assumption].
      destruct Hd; [assumption | contradiction]. }
  assert (HR2 : forall b' i' j',
             ~ ((done b' i' j' \/ (b', i', j') = (k, i, j)) /\ inner N M i' j') ->
             data Rm' b' i' j' = data R1 b' i' j').
  { intros b' i' j' Hn.
    destruct (cell_eq_dec k i j b' i' j') as [Heq | Hne].
    - inversion Heq; subst. tauto.
    - rewrite Hother by assumption. apply I2. tauto. }
  assert (Hsucc_ne : forall i' j', successor i j i' j' ->
                                   (k, i', j') <> (k, i, j)).
  { intros i' j' Hs Heq. inversion Heq; subst. unfold successor in Hs. lia. }
  assert (Hfin : forall i' j',
             successor i j i' j' ->
             data Rm' k i' j' = data (final_R R1 N M) k i' j').
  { intros i' j' Hs. rewrite Hother by (apply Hsucc_ne; assumption).
    destruct (Hsucc i' j' Hs) as [Hd | Hout].
    - destruct (inner_dec N M i' j') as [Hin' | Hout].
      + rewrite data_final_R_inner by assumption. now apply I1.
      + rewrite data_final_R_outer by assumption. apply I2. tauto.
    - rewrite data_final_R_outer by assumption. apply I2. tauto. }
  assert (Hold : forall E' b' i' j',
             (forall b2 i2 j2, (b2, i2, j2) <> (k, i, j) ->
                               data E' b2 i2 j2 = data E b2 i2 j2) ->
             (b', i', j') <> (k, i, j) ->
             done b' i' j' -> inner N M i' j' -> pruned w i' j' = false ->
             data E' b' i' j'
             = adjoint_sum D (final_R R1 N M) E' gamma b' i' j').
  { intros E' b' i' j' HE' Hne Hd Hin' Hp.
    rewrite HE' by assumption. rewrite (I4 b' i' j') by assumption.
    apply adjoint_sum_agree; [reflexivity |].
    intros i2 j2 Hs. split; [reflexivity |]. symmetry. apply HE'.
    intros Heq. inversion Heq; subst.
    destruct (Hclosed _ _ _ _ _ Hd Hin' Hs); contradiction. }
  unfold backward_cell. cbn [fst snd]. fold Rm'.
  destruct (pruned w i j) eqn:Hp.
  - repeat split; cbn [fst snd].
    + exact HR1.
    + exact HR2.
    + intros b' i' j' Hn. apply I3. intros (Hd & Hin' & Hp'). apply Hn. tauto.
    + intros b' i' j' Hd Hin' Hp'.
      destruct (cell_eq_dec k i j b' i' j') as [Heq | Hne].
      * inversion Heq; subst. congruence.
      * apply (Hold E); auto. destruct Hd; [assumption | contradiction].
  - repeat split; cbn [fst snd].
    + exact HR1.
    + exact HR2.
    + intros b' i' j' Hn.
      destruct (cell_eq_dec k i j b' i' j') as [Heq | Hne].
      * inversion Heq; subst. tauto.
      * rewrite data_tset_other by assumption. apply I3. tauto.
    + intros b' i' j' Hd Hin' Hp'.
      destruct (cell_eq_dec k i j b' i' j') as [Heq | Hne].
      * inversion Heq; subst. rewrite data_tset_same.
        change (adjoint_sum D Rm' E gamma k i j
                = adjoint_sum D (final_R R1 N M)
                              (tset E k i j (adjoint_sum D Rm' E gamma k i j))
                              gamma k i j).
        apply adjoint_sum_agree.
        -- rewrite data_final_R_inner by assumption. exact Hown.
        -- intros i' j' Hs. split; [now apply Hfin |].
           symmetry. apply data_tset_other. now apply Hsucc_ne.
      * apply Hold; auto.
        -- intros b2 i2 j2 H2. now apply data_tset_other.
        -- destruct Hd; [assumption | contradiction].
Qed.

Lemma seq_done_back_closed k j i : succ_closed N M (seq_done_back k j i).
Proof.
  intros b i0 j0 i' j' Hd Hin Hs. left.
  unfold seq_done_back, successor in *. lia.
Qed.

(** The state after the reverse triple loop. *)
Lemma backward_loop_inv B :
  bwd_inv D R1 E1 gamma w N M (fun b _ _ => (b < B)%nat)
          (backward_loop D gamma w B N M (R1, E1)).
Proof.
  unfold backward_loop.
  apply bwd_inv_equiv with (done := seq_done_back (0 + B) (1 + M) (1 + N)).
  { intros b i j Hin. unfold seq_done_back, inner in *. simpl. lia. }
  apply (fold_seq_inv _
           (fun k st => bwd_inv D R1 E1 gamma w N M
                                (seq_done_back k (1 + M) (1 + N)) st)).
  { eapply bwd_inv_equiv; [| apply bwd_inv_init].
    intros b i j Hin. unfold seq_done_back, inner in *. lia. }
  intros k st Hk Hinv.
  apply bwd_inv_equiv with (done := seq_done_back k 1 (1 + N)).
  { intros b i j Hin. unfold seq_done_back, inner in *. lia. }
  apply (fold_rev_seq_inv _
           (fun j st => bwd_inv D R1 E1 gamma w N M
                                (seq_done_back k j (1 + N)) st));
    [exact Hinv |].
  intros j st' Hj Hinv'.
  apply bwd_inv_equiv with (done := seq_done_back k (S j) 1).
  { intros b i j' Hin. unfold seq_done_back, inner in *. lia. }
  apply (fold_rev_seq_inv _
           (fun i st => bwd_inv D R1 E1 gamma w N M
                                (seq_done_back k (S j) i) st));
    [exact Hinv' |].
  intros i st'' Hi Hinv''.
  eapply bwd_inv_equiv;
    [| apply backward_cell_inv;
       [exact Hinv'' | apply seq_done_back_closed | | |]].
  - intros b i' j' Hin. unfold seq_done_back, inner in *.
    split.
    + intros [H | H]; [lia | inversion H; subst; lia].
    + intros H.
      destruct (cell_eq_dec k i j b i' j') as [Heq | Hne]; [now right |].
      left. assert (b <> k \/ i' <> i \/ j' <> j) by
        (destruct (Nat.eq_dec b k), (Nat.eq_dec i' i), (Nat.eq_dec j' j);
         subst; try tauto; congruence).
      lia.
  - unfold inner. lia.
  - unfold seq_done_back. lia.
  - intros i' j' Hs.
    destruct (inner_dec N M i' j') as [Hin | Hout]; [| now right].
    left. unfold seq_done_back, successor, inner in *. lia.
Qed.
End BackwardInvariant.

(** ** The backward kernel *)


Section BackwardRevisit.
Variables (D R1 E1 : tensor3) (gamma : R) (w : Z) (N M : nat).

Lemma bwd_inv_pointwise (done : nat -> nat -> nat -> Prop) st st' :
  (forall b i j, data (fst st') b i j = data (fst st) b i j) ->
  (forall b i j, data (snd st') b i j = data (snd st) b i j) ->
  bwd_inv D R1 E1 gamma w N M done st ->
  bwd_inv D R1 E1 gamma w N M done st'.
Proof.
  intros HR HE (I1 & I2 & I3 & I4). repeat split.
  - intros b i j Hd Hin. rewrite HR. now apply I1.
  - intros b i j Hn. rewrite HR. now apply I2.
  - intros b i j Hn. rewrite HE. now apply I3.
  - intros b i j Hd Hin Hp. rewrite HE, I4 by assumption.
    apply adjoint_sum_agree; [reflexivity |].
    intros i' j' _. split; [reflexivity | symmetry; apply HE].
Qed.

(** Visiting a settled cell again leaves every entry as it is. *)
Lemma backward_cell_revisit (done : nat -> nat -> nat -> Prop) st k i j :
  bwd_inv D R1 E1 gamma w N M done st ->
  inner N M i j -> done k i j ->
  (forall i' j', successor i j i' j' -> done k i' j' \/ ~ inner N M i' j') ->
  (forall b i' j',
      data (fst (backward_cell D gamma w k j i st)) b i' j'
      = data (fst st) b i' j')
  /\ (forall b i' j',
         data (snd (backward_cell D gamma w k j i st)) b i' j'
         = data (snd st) b i' j').
Proof.
  intros (I1 & I2 & I3 & I4) Hin Hd Hsucc.
  destruct st as [Rm E]. cbn [fst snd] in *.
  set (Rm' := if isinf (data Rm k i j) then tset Rm k i j MInf else Rm).
  assert (HR : forall b i' j', data Rm' b i' j' = data Rm b i' j').
  { intros b i' j'. unfold Rm'.
    destruct (isinf (data Rm k i j)) eqn:Einf; [| reflexivity].
    destruct (cell_eq_dec k i j b i' j') as [Heq | Hne].
    - inversion Heq; subst. rewrite data_tset_same.
      rewrite (I1 k i j Hd Hin) in *.
      destruct (data R1 k i j); unfold neg_if_inf in *; simpl in *;
        congruence.
    - now apply data_tset_other. }
  unfold backward_cell. cbn [fst snd]. fold Rm'.
  destruct (pruned w i j) eqn:Hp; cbn [fst snd]; split; auto.
  intros b i' j'.
  destruct (cell_eq_dec k i j b i' j') as [Heq | Hne].
  - inversion Heq; subst. rewrite data_tset_same.
    rewrite (I4 k i j Hd Hin Hp).
    change (adjoint_sum D Rm' E gamma k i j
            = adjoint_sum D (final_R R1 N M) E gamma k i j).
    apply adjoint_sum_agree.
    + rewrite HR, data_final_R_inner by assumption. now apply I1.
    + intros i2 j2 Hs. split; [| reflexivity]. rewrite HR.
      destruct (Hsucc i2 j2 Hs) as [Hd2 | Hout].
      * destruct (inner_dec N M i2 j2) as [Hin2 | Hout].
        -- rewrite data_final_R_inner by assumption. now apply I1.
        -- rewrite data_final_R_outer by assumption. apply I2. tauto.
      * rewrite data_final_R_outer by assumption. apply I2. tauto.
  - now apply data_tset_other.
Qed.

(** One visit of an interior cell whose successors are settled, be it
    the first visit or not. *)
Lemma backward_cell_inv_any (done : nat -> nat -> nat -> Prop) st k i j :
  bwd_inv D R1 E1 gamma w N M done st ->
  succ_closed N M done ->
  inner N M i j ->
  done k i j \/ ~ done k i j ->
  (forall i' j', successor i j i' j' -> done k i' j' \/ ~ inner N M i' j') ->
  bwd_inv D R1 E1 gamma w N M
          (fun b' i' j' => done b' i' j' \/ (b', i', j') = (k, i, j))
          (backward_cell D gamma w k j i st).
Proof.
  intros Hinv Hclosed Hin [Hd | Hnd] Hsucc.
  - destruct (backward_cell_revisit done st k i j Hinv Hin Hd Hsucc)
      as [HR HE].
    apply (bwd_inv_pointwise _ st); [exact HR | exact HE |].
    eapply bwd_inv_equiv; [| exact Hinv].
    intros b i' j' _. split; [tauto |].
    intros [H | H]; [exact H | inversion H; subst; exact Hd].
  - now apply backward_cell_inv.
Qed.
End BackwardRevisit.

(** The guard of the backward kernel; the selected thread runs the
    sequential cell body. *)
Lemma cuda_back_step_cases D g w N M P k t p st :
  0 < g ->
  let rev_p := (P - p - 1)%nat in
  ((t < N /\ t <= rev_p /\ rev_p - t < M)%nat /\
   compute_softdtw_backward_cuda D (Fin (1 / g)) w N M P k t p st
   = backward_cell D g w k (rev_p - t + 1) (t + 1) st)
  \/
  (~ (t < N /\ t <= rev_p /\ rev_p - t < M)%nat /\
   compute_softdtw_backward_cuda D (Fin (1 / g)) w N M P k t p st = st).
Proof.
  intros Hg rev_p. unfold compute_softdtw_backward_cuda. fold rev_p.
  destruct st as [Rm E]. cbn [fst snd].
  destruct ((t + clampJ rev_p t M =? rev_p)
            && ((t <? N) && (clampJ rev_p t M <? M)))%nat eqn:G.
  - left. apply andb_true_iff in G. destruct G as [G1 G2].
    apply andb_true_iff in G2. destruct G2 as [G2 G3].
    apply Nat.eqb_eq in G1. apply Nat.ltb_lt in G2, G3.
    assert (HJ : clampJ rev_p t M = (rev_p - t)%nat) by lia.
    split; [lia |]. rewrite HJ. unfold backward_cell. cbn [fst snd].
    rewrite outside_band_pruned.
    destruct (pruned w (t + 1) (rev_p - t + 1)); [reflexivity |].
    cbn [negb]. now rewrite !emul_inv.
  - right. split; [| reflexivity]. intros (H1 & H2 & H3).
    assert (HJ : clampJ rev_p t M = (rev_p - t)%nat) by (unfold clampJ; lia).
    rewrite HJ in G.
    apply andb_false_iff in G. destruct G as [G | G].
    + apply Nat.eqb_neq in G. lia.
    + apply andb_false_iff in G. destruct G as [G | G];
        apply Nat.ltb_ge in G; lia.
Qed.

Lemma kstep_in_dec (x : kstep) (l : list kstep) : In x l \/ ~ In x l.
Proof.
  destruct (in_dec (fun a b : kstep =>
                      ltac:(repeat decide equality)) x l); tauto.
Qed.

Section BackwardKernelInvariant.
Variables (D R1 E1 : tensor3) (gamma : R) (w : Z) (B N M : nat).
Hypothesis gamma_pos : 0 < gamma.
Let T := Nat.max N M.
Let P := (2 * T - 1)%nat.

Lemma run_backward_kernel_inv s :
  launch_schedule B T P s ->
  bwd_inv D R1 E1 gamma w N M (fun b _ _ => (b < B)%nat)
          (run_kernel
             (compute_softdtw_backward_cuda D (Fin (1 / gamma)) w N M P)
             s (R1, E1)).
Proof.
  intros [Hall Hbar].
  apply bwd_inv_equiv with (done := cuda_done_back P s).
  { intros b i j Hin. unfold cuda_done_back. rewrite (Hall _), in_all_steps.
    unfold inner in Hin. unfold P, T. lia. }
  unfold run_kernel. change s with ([] ++ s) at 1.
  apply (fold_prefix_inv _
           (fun l st => bwd_inv D R1 E1 gamma w N M (cuda_done_back P l) st)).
  { eapply bwd_inv_equiv; [| apply bwd_inv_init].
    intros b i j _. unfold cuda_done_back. simpl. tauto. }
  intros l1 [[k p] t] l2 st Heq Hinv. simpl in Heq.
  cbn [kblock kpass kthread fst snd].
  assert (Hx : (k < B /\ p < P /\ t < T)%nat).
  { apply in_all_steps, Hall. rewrite Heq. apply in_elt. }
  assert (Hclosed : succ_closed N M (cuda_done_back P l1)).
  { intros b i j i' j' Hd Hin Hs.
    destruct (inner_dec N M i' j') as [Hin' | Hout]; [| now right].
    left. unfold cuda_done_back in *.
    apply in_split in Hd. destruct Hd as (a & c & ->).
    apply in_or_app. left.
    rewrite <- app_assoc in Heq. simpl in Heq.
    assert (Hy : (b < B /\ P - 1 - (i + j - 2) < P /\ i - 1 < T)%nat).
    { apply in_all_steps, Hall. rewrite Heq. apply in_elt. }
    apply (Hbar a (b, (P - 1 - (i + j - 2))%nat, (i - 1)%nat) _ Heq);
      cbn [kpass fst snd]; unfold successor, inner in *; unfold P, T in *; lia. }
  destruct (cuda_back_step_cases D gamma w N M P k t p st gamma_pos)
    as [[Hg ->] | [Hg ->]].
  - set (rev_p := (P - p - 1)%nat) in *.
    eapply bwd_inv_equiv;
      [| apply backward_cell_inv_any;
         [exact Hinv | exact Hclosed | | apply kstep_in_dec |]].
    + intros b i j Hin. unfold cuda_done_back. rewrite in_app_iff. simpl.
      unfold inner in Hin. unfold rev_p in *.
      split.
      * intros [H | H]; [now left |]. inversion H; subst. right. left.
        f_equal; [f_equal |]; lia.
      * intros [H | [H | []]]; [now left |]. right. inversion H; subst.
        f_equal; [f_equal |]; lia.
    + unfold inner. unfold rev_p in *. lia.
    + intros i' j' Hs.
      destruct (inner_dec N M i' j') as [Hin' | Hout]; [| now right].
      left. unfold cuda_done_back.
      apply (Hbar l1 (k, p, t) l2 Heq); cbn [kpass fst snd];
        unfold successor, inner, rev_p in *; unfold P, T in *; lia.
  - eapply bwd_inv_equiv; [| exact Hinv].
    intros b i j Hin. unfold cuda_done_back. rewrite in_app_iff. simpl.
    split; [tauto |].
    intros [H | [H | []]]; [exact H |]. exfalso. apply Hg.
    inversion H; subst. unfold inner in Hin. lia.
Qed.
End BackwardKernelInvariant.

(** ** The backward pass on the grid of the forward pass *)

Lemma terminal_cell_cases N M w :
  (0 <= w)%Z \/ N = M ->
  terminal_cell N M w = (N, M)
  \/ ((N < M)%nat /\ (0 < w < Z.of_nat M - Z.of_nat N)%Z
      /\ terminal_cell N M w = (N, (N + Z.to_nat w)%nat))
  \/ ((M < N)%nat /\ (0 < w < Z.of_nat N - Z.of_nat M)%Z
      /\ terminal_cell N M w = ((M + Z.to_nat w)%nat, M)).
Proof.
  intros Hw.
  destruct (Nat.eq_dec N M) as [Heq | Hne].
  { left. apply terminal_cell_corner. now left. }
  destruct (Z.eq_dec w 0) as [Hw0 | Hw0].
  { left. apply terminal_cell_corner. tauto. }
  destruct (Z_lt_le_dec w (Z.abs (Z.of_nat N - Z.of_nat M))) as [Hlt | Hge].
  - destruct (Nat.lt_total N M) as [H | [H | H]]; [| contradiction |].
    + right. left. repeat split; try lia. apply terminal_cell_narrow_cols; lia.
    + right. right. repeat split; try lia. apply terminal_cell_narrow_rows; lia.
  - left. apply terminal_cell_corner. right. right. lia.
Qed.

(** The row and the column of the sentinel contain no active interior
    cell. *)
Lemma sentinel_line_pruned N M w i j :
  (0 <= w)%Z \/ N = M ->
  inner N M i j ->
  (i = fst (terminal_cell N M w) + 1 \/ j = snd (terminal_cell N M w) + 1)%nat ->
  pruned w i j = true.
Proof.
  intros Hw Hin Hline. unfold inner in Hin.
  destruct (terminal_cell_cases N M w Hw)
    as [E | [(H1 & H2 & E) | (H1 & H2 & E)]];
    rewrite E in Hline; cbn [fst snd] in Hline; try lia;
    apply pruned_spec; lia.
Qed.

Lemma sentinel_on_border N M w :
  (0 <= w)%Z \/ N = M ->
  (fst (terminal_cell N M w) + 1 = N + 1
   \/ snd (terminal_cell N M w) + 1 = M + 1)%nat.
Proof.
  intros Hw.
  destruct (terminal_cell_cases N M w Hw)
    as [-> | [(H1 & H2 & ->) | (H1 & H2 & ->)]]; cbn [fst snd]; lia.
Qed.

Lemma data_boundary_R_inner Rm N M si sj b i j :
  inner N M i j -> (si = N + 1 \/ sj = M + 1)%nat ->
  data (boundary_R Rm si sj) b i j
  = if ((i =? si) || (j =? sj))%nat then MInf else data Rm b i j.
Proof.
  intros Hin Hs. unfold boundary_R. cbn [data tset_cell tset_row tset_col].
  replace ((i =? si) && (j =? sj))%nat with false.
  - destruct (i =? si)%nat, (j =? sj)%nat; reflexivity.
  - symmetry. apply andb_false_iff. rewrite !Nat.eqb_neq.
    unfold inner in Hin. lia.
Qed.

Lemma data_seed_E_inner B N M si sj b i j :
  inner N M i j -> (si = N + 1 \/ sj = M + 1)%nat ->
  data (seed_E B N M si sj) b i j = Fin 0.
Proof.
  intros Hin Hs. unfold seed_E. cbn [data tset_cell full].
  replace ((i =? si) && (j =? sj))%nat with false; [reflexivity |].
  symmetry. apply andb_false_iff. rewrite !Nat.eqb_neq.
  unfold inner in Hin. lia.
Qed.

Lemma data_pad_inner D b i j :
  inner (shape1 D) (shape2 D) i j ->
  data (pad D) b i j = data D b (i - 1) (j - 1).
Proof.
  intros H. unfold pad. cbn [data].
  apply innerb_spec in H. unfold innerb in H. now rewrite H.
Qed.

Lemma neg_if_inf_not_inf x : isinf x = false -> neg_if_inf x = x.
Proof. unfold neg_if_inf. now intros ->. Qed.

Lemma neg_if_inf_inf x : isinf x = true -> neg_if_inf x = MInf.
Proof. unfold neg_if_inf. now intros ->. Qed.

Lemma is_fin_not_inf x : is_fin x -> isinf x = false.
Proof. destruct x; simpl; tauto. Qed.

Section BackwardOnForward.
Variables (D : tensor3) (gamma : R) (w : Z).
Hypothesis w_ok : (0 <= w)%Z \/ shape1 D = shape2 D.
Let B := shape0 D.
Let N := shape1 D.
Let M := shape2 D.

(** A forward grid: the right shape, and the solution of the recurrence in
    every cell. *)
Variable Rm : tensor3.
Hypothesis Rm_grid :
  forall b i j, (b < B)%nat -> data Rm b i j = soft_grid D gamma w b i j.
Let si := (fst (terminal_cell N M w) + 1)%nat.
Let sj := (snd (terminal_cell N M w) + 1)%nat.
Let R1 := boundary_R Rm si sj.
Let E1 := seed_E B N M si sj.

(** The final state [(R, E)] of a backward pass, sequential or on the
    device, started from the boundary writes on the forward grid. *)
Variable st' : tensor3 * tensor3.
Hypothesis st'_inv :
  bwd_inv (pad D) R1 E1 gamma w N M (fun b _ _ => (b < B)%nat) st'.

(** On interior cells the boundary writes only touch pruned cells. *)
Lemma boundary_on_forward b i j :
  (b < B)%nat -> inner N M i j ->
  neg_if_inf (data R1 b i j) = neg_if_inf (data Rm b i j)
  /\ (pruned w i j = false -> data R1 b i j = data Rm b i j)
  /\ (pruned w i j = true -> neg_if_inf (data R1 b i j) = MInf).
Proof.
  intros Hb Hin. unfold R1.
  rewrite (data_boundary_R_inner Rm N M) by
    (assumption || apply sentinel_on_border; exact w_ok).
  destruct ((i =? si) || (j =? sj))%nat eqn:E.
  - assert (Hp : pruned w i j = true).
    { apply (sentinel_line_pruned N M); try assumption.
      apply orb_true_iff in E. rewrite !Nat.eqb_eq in E. exact E. }
    rewrite Rm_grid by assumption.
    rewrite soft_grid_pruned by assumption.
    repeat split; try reflexivity. congruence.
  - repeat split; try reflexivity. intros Hp.
    rewrite Rm_grid by assumption.
    now rewrite soft_grid_pruned.
Qed.

(** The grid [R] after the backward pass, on interior cells. *)
Lemma R_interior_of_inv b i j :
  (b < B)%nat -> inner N M i j ->
  data (fst st') b i j = neg_if_inf (data Rm b i j).
Proof.
  intros Hb Hin. destruct st'_inv as (I1 & _).
  rewrite I1 by assumption. now apply boundary_on_forward.
Qed.

Lemma R_final_of_inv b i j :
  (b < B)%nat ->
  data (fst st') b i j = data (final_R R1 N M) b i j.
Proof.
  intros Hb. destruct st'_inv as (I1 & I2 & _).
  destruct (inner_dec N M i j) as [Hin | Hout].
  - rewrite data_final_R_inner by assumption. now apply I1.
  - rewrite data_final_R_outer by assumption. apply I2. tauto.
Qed.

(** The adjoint grid after the backward pass: pruned interior cells
    keep their initial zero, active ones satisfy the recurrence. *)
Lemma E_pruned_of_inv b i j :
  inner N M i j -> pruned w i j = true ->
  data (snd st') b i j = Fin 0.
Proof.
  intros Hin Hp. destruct st'_inv as (_ & _ & I3 & _).
  rewrite I3 by (intros (_ & _ & H); congruence).
  unfold E1. apply (data_seed_E_inner B N M); [assumption |].
  apply sentinel_on_border. exact w_ok.
Qed.

Lemma E_active_of_inv b i j :
  (b < B)%nat -> inner N M i j -> pruned w i j = false ->
  data (snd st') b i j
  = adjoint_sum (pad D) (fst st') (snd st') gamma b i j.
Proof.
  intros Hb Hin Hp. destruct st'_inv as (_ & _ & _ & I4).
  rewrite I4 by assumption.
  apply adjoint_sum_agree.
  - symmetry. now apply R_final_of_inv.
  - intros i' j' _. split; [| reflexivity].
    symmetry. now apply R_final_of_inv.
Qed.

(** With finite costs, the term of a pruned successor is zero. *)
Lemma pruned_term_of_inv b i j i' j' :
  0 < gamma -> finite3 D ->
  (b < B)%nat -> inner N M i j -> pruned w i j = false ->
  inner N M i' j' -> pruned w i' j' = true ->
  adjoint_term (pad D) (fst st') (snd st') gamma b i j i' j' = Fin 0.
Proof.
  intros Hg HD Hb Hin Hp Hin' Hp'. unfold adjoint_term.
  rewrite (E_pruned_of_inv b i' j' Hin' Hp').
  rewrite !R_interior_of_inv by assumption.
  rewrite !Rm_grid by assumption.
  rewrite (soft_grid_pruned D gamma w b i' j' Hp').
  rewrite data_pad_inner by assumption.
  pose proof (soft_grid_active_fin D gamma w b Hg HD i j Hin Hp) as Hfin.
  pose proof (HD b (i' - 1) (j' - 1))%nat as Hd.
  destruct (soft_grid D gamma w b i j); simpl in Hfin; try tauto.
  destruct (data D b (i' - 1) (j' - 1)); simpl in Hd; try tauto.
  simpl. rewrite inf_times_pos by assumption. simpl. f_equal. ring.
Qed.

Lemma interior_kept_of_inv :
  0 < gamma ->
  interior_kept_unless_infinite D gamma w Rm (fst st').
Proof.
  intros Hg b i j Hb Hin. fold B N M in Hb, Hin.
  rewrite R_interior_of_inv by assumption.
  repeat split.
  - apply neg_if_inf_not_inf.
  - apply neg_if_inf_inf.
  - rewrite Rm_grid by assumption. now apply soft_grid_pruned.
  - rewrite Rm_grid by assumption. now rewrite soft_grid_pruned.
  - intros HD Hp. apply neg_if_inf_not_inf, is_fin_not_inf.
    rewrite Rm_grid by assumption. now apply soft_grid_active_fin.
Qed.

Lemma pruned_inert_of_inv :
  0 < gamma ->
  pruned_cells_inert D gamma w (fst st') (snd st').
Proof.
  intros Hg b i j Hb Hin. fold B N M in Hb, Hin. split.
  - intros Hp. now apply E_pruned_of_inv.
  - intros Hp. split; [now apply E_active_of_inv |].
    intros HD i' j' _ Hin' Hp'. now apply pruned_term_of_inv.
Qed.
End BackwardOnForward.


(** *** The two backward passes on their forward grids *)

Lemma cuda_boundary_terminal D Rm w :
  let N := shape1 D in
  let M := shape2 D in
  shape1 Rm = (N + 2)%nat -> shape2 Rm = (M + 2)%nat ->
  (0 <= w)%Z \/ N = M ->
  _SoftDTWCUDA.boundary D Rm w
  = Ok (boundary_R Rm (fst (terminal_cell N M w) + 1)
                   (snd (terminal_cell N M w) + 1),
        seed_E (shape0 D) N M (fst (terminal_cell N M w) + 1)
               (snd (terminal_cell N M w) + 1)).
Proof.
  intros N M H1 H2 Hw.
  assert (Hcorner :
    (Rm0 <- set_col_py Rm (-1) MInf ;;
     Rm1 <- set_row_py Rm0 (-1) MInf ;;
     V <- get_cell_py Rm1 (-2) (-2) ;;
     Rm2 <- set_cell_py Rm1 (-1) (-1) (vdata V) ;;
     E <- set_cell_py (full (shape0 D) (N + 2) (M + 2) (Fin 0)) (-1) (-1)
                      (fun _ => Fin 1) ;;
     Ok (Rm2, E))
    = Ok (boundary_R Rm (N + 1) (M + 1),
          seed_E (shape0 D) N M (N + 1) (M + 1))).
  { unfold set_cell_py, set_col_py, set_row_py, get_cell_py.
    step_index H1 H2 (N + 2)%nat (-1)%Z (N + 1)%nat.
    step_index H1 H2 (M + 2)%nat (-1)%Z (M + 1)%nat.
    step_index H1 H2 (N + 2)%nat (-1)%Z (N + 1)%nat.
    step_index H1 H2 (N + 2)%nat (-2)%Z (N + 1 - 1)%nat.
    step_index H1 H2 (M + 2)%nat (-2)%Z (M + 1 - 1)%nat.
    step_index H1 H2 (N + 2)%nat (-1)%Z (N + 1)%nat.
    step_index H1 H2 (M + 2)%nat (-1)%Z (M + 1)%nat.
    reflexivity. }
  unfold _SoftDTWCUDA.boundary. fold N M.
  destruct (terminal_cell_cases N M w Hw)
    as [E | [(Hlt & Hband & E) | (Hlt & Hband & E)]]; rewrite E; cbn [fst snd].
  - destruct (Nat.eq_dec N M) as [Heq | Hne].
    { replace (Z.of_nat N <? Z.of_nat M)%Z with false
        by (symmetry; apply Z.ltb_ge; lia).
      replace (Z.of_nat M <? Z.of_nat N)%Z with false
        by (symmetry; apply Z.ltb_ge; lia).
      exact Hcorner. }
    assert (Hc : ((w >=? Z.abs (Z.of_nat N - Z.of_nat M))%Z || (w =? 0)%Z)
                 = true).
    { unfold terminal_cell in E.
      destruct ((N =? M)%nat || (w =? 0)%Z
                || (w >=? Z.abs (Z.of_nat N - Z.of_nat M))%Z) eqn:Ec.
      - rewrite !orb_true_iff in Ec. rewrite Nat.eqb_eq in Ec.
        rewrite orb_true_iff. tauto.
      - destruct (N <? M)%nat eqn:El.
        + apply Nat.ltb_lt in El. inversion E. lia.
        + apply Nat.ltb_ge in El. inversion E. lia. }
    rewrite Hc.
    destruct (Z.of_nat N <? Z.of_nat M)%Z;
      [| destruct (Z.of_nat M <? Z.of_nat N)%Z]; exact Hcorner.
  - replace (Z.of_nat N <? Z.of_nat M)%Z with true
      by (symmetry; apply Z.ltb_lt; lia).
    replace ((w >=? Z.abs (Z.of_nat N - Z.of_nat M))%Z) with false
      by (symmetry; rewrite Z.geb_leb; apply Z.leb_gt; lia).
    replace ((w =? 0)%Z) with false by (symmetry; apply Z.eqb_neq; lia).
    cbn [orb].
    unfold set_cell_py, set_col_py, set_row_py, get_cell_py.
    set (k := (Z.of_nat N - Z.of_nat M + w - 1)%Z).
    replace (Z.of_nat N - Z.of_nat M + w - 2)%Z with (k - 1)%Z by lia.
    set (sj := (N + Z.to_nat w + 1)%nat).
    step_index H1 H2 (M + 2)%nat k sj.
    step_index H1 H2 (N + 2)%nat (-1)%Z (N + 1)%nat.
    step_index H1 H2 (N + 2)%nat (-2)%Z (N + 1 - 1)%nat.
    step_index H1 H2 (M + 2)%nat (k - 1)%Z (sj - 1)%nat.
    step_index H1 H2 (N + 2)%nat (-1)%Z (N + 1)%nat.
    step_index H1 H2 (M + 2)%nat k sj.
    reflexivity.
  - replace (Z.of_nat N <? Z.of_nat M)%Z with false
      by (symmetry; apply Z.ltb_ge; lia).
    replace (Z.of_nat M <? Z.of_nat N)%Z with true
      by (symmetry; apply Z.ltb_lt; lia).
    replace ((w >=? Z.abs (Z.of_nat N - Z.of_nat M))%Z) with false
      by (symmetry; rewrite Z.geb_leb; apply Z.leb_gt; lia).
    replace ((w =? 0)%Z) with false by (symmetry; apply Z.eqb_neq; lia).
    cbn [orb].
    unfold set_cell_py, set_col_py, set_row_py, get_cell_py.
    set (k := (Z.of_nat M - Z.of_nat N + w - 1)%Z).
    replace (Z.of_nat M - Z.of_nat N + w - 2)%Z with (k - 1)%Z by lia.
    set (si := (M + Z.to_nat w + 1)%nat).
    step_index H1 H2 (M + 2)%nat (-1)%Z (M + 1)%nat.
    step_index H1 H2 (N + 2)%nat k si.
    step_index H1 H2 (N + 2)%nat (k - 1)%Z (si - 1)%nat.
    step_index H1 H2 (M + 2)%nat (-2)%Z (M + 1 - 1)%nat.
    step_index H1 H2 (N + 2)%nat k si.
    step_index H1 H2 (M + 2)%nat (-1)%Z (M + 1)%nat.
    reflexivity.
Qed.

Lemma compute_softdtw_backward_eq D gamma w :
  gamma <> 0 -> (0 <= w)%Z \/ shape1 D = shape2 D ->
  let N := shape1 D in
  let M := shape2 D in
  let Rm := compute_softdtw D gamma w in
  let st' :=
    backward_loop (pad D) gamma w (shape0 D) N M
      (boundary_R Rm (fst (terminal_cell N M w) + 1)
                  (snd (terminal_cell N M w) + 1),
       seed_E (shape0 D) N M (fst (terminal_cell N M w) + 1)
              (snd (terminal_cell N M w) + 1)) in
  compute_softdtw_backward D Rm gamma w
  = Ok (interior (snd st') N M, fst st').
Proof.
  intros Hg Hw N M Rm st'. unfold compute_softdtw_backward. unfold Rm.
  rewrite backward_boundary_terminal;
    auto using compute_softdtw_shape1, compute_softdtw_shape2.
  cbn [bind]. rewrite Reqb_false by assumption. reflexivity.
Qed.

(** The grid the device [forward] saves. *)
Lemma cuda_forward_terminal sch D gamma w :
  (0 <= w)%Z \/ shape1 D = shape2 D ->
  let N := shape1 D in
  let M := shape2 D in
  let Rc :=
    run_kernel (compute_softdtw_cuda D gamma w N M)
               (sch (shape0 D) (Nat.max N M) (2 * Nat.max N M - 1)%nat)
               (tset_cell (full (shape0 D) (N + 2) (M + 2) (emul (Fin 1) PInf))
                          0 0 (fun _ => Fin 0)) in
  tshape Rc = (shape0 D, (N + 2)%nat, (M + 2)%nat)
  /\ _SoftDTWCUDA.forward sch D gamma w
     = Ok (tget_cell Rc (fst (terminal_cell N M w)) (snd (terminal_cell N M w)),
           mkCtx D Rc gamma w).
Proof.
  intros Hw N M Rc.
  assert (Hs : tshape Rc = (shape0 D, (N + 2)%nat, (M + 2)%nat)).
  { unfold Rc. now rewrite run_kernel_shape. }
  split; [exact Hs |]. unfold tshape in Hs. injection Hs as H0 H1 H2.
  unfold _SoftDTWCUDA.forward. fold N M Rc.
  now rewrite read_value_terminal.
Qed.

Lemma cuda_backward_grids_eq sch D Rc gamma w :
  0 < gamma -> (0 <= w)%Z \/ shape1 D = shape2 D ->
  let N := shape1 D in
  let M := shape2 D in
  shape1 Rc = (N + 2)%nat -> shape2 Rc = (M + 2)%nat ->
  _SoftDTWCUDA.backward_grids sch (mkCtx D Rc gamma w)
  = Ok (run_kernel
          (compute_softdtw_backward_cuda (pad D) (Fin (1 / gamma)) w N M
                                         (2 * Nat.max N M - 1)%nat)
          (sch (shape0 D) (Nat.max N M) (2 * Nat.max N M - 1)%nat)
          (boundary_R Rc (fst (terminal_cell N M w) + 1)
                      (snd (terminal_cell N M w) + 1),
           seed_E (shape0 D) N M (fst (terminal_cell N M w) + 1)
                  (snd (terminal_cell N M w) + 1))).
Proof.
  intros Hg Hw N M H1 H2. unfold _SoftDTWCUDA.backward_grids.
  cbn [saved_D saved_R saved_gamma saved_bandwidth].
  rewrite cuda_boundary_terminal by assumption.
  cbn [bind]. rewrite Reqb_false by lra. reflexivity.
Qed.

(** [backward] on the context saved by [forward]. *)
Lemma backward_on_saved D gamma w grad_output :
  gamma <> 0 -> (0 <= w)%Z \/ shape1 D = shape2 D ->
  let Rm := compute_softdtw D gamma w in
  let N := shape1 D in
  let M := shape2 D in
  let st' :=
    backward_loop (pad D) gamma w (shape0 D) N M
      (boundary_R Rm (fst (terminal_cell N M w) + 1)
                  (snd (terminal_cell N M w) + 1),
       seed_E (shape0 D) N M (fst (terminal_cell N M w) + 1)
              (snd (terminal_cell N M w) + 1)) in
  _SoftDTW.backward (mkCtx D Rm gamma w) grad_output
  = Ok (scale_by grad_output (interior (snd st') N M),
        mkCtx D (fst st') gamma w).
Proof.
  intros Hg Hw Rm N M st'. unfold _SoftDTW.backward.
  cbn [saved_D saved_R saved_gamma saved_bandwidth].
  unfold Rm. rewrite compute_softdtw_backward_eq by assumption.
  reflexivity.
Qed.

(** The sequential pair [forward] / [backward] and what the second does
    to the grid saved by the first. *)
Lemma sequential_backward_keeps D gamma w grad_output :
  0 < gamma -> (0 <= w)%Z ->
  exists V c G c',
    _SoftDTW.forward D gamma w = Ok (V, c)
    /\ _SoftDTW.backward c grad_output = Ok (G, c')
    /\ saved_R c = compute_softdtw D gamma w
    /\ interior_kept_unless_infinite D gamma w (saved_R c) (saved_R c').
Proof.
  intros Hg Hw.
  assert (Hnz : gamma <> 0) by lra.
  assert (Hw' : (0 <= w)%Z \/ shape1 D = shape2 D) by now left.
  do 4 eexists. split; [now apply forward_terminal |].
  split; [now apply backward_on_saved |].
  split; [reflexivity |]. cbn [saved_R].
  apply (interior_kept_of_inv D gamma w Hw' (compute_softdtw D gamma w)).
  - intros b i j Hb. now apply compute_softdtw_grid.
  - apply backward_loop_inv.
  - exact Hg.
Qed.

(** The same for the device pair, under every fair scheduler. *)
Lemma device_backward_keeps sch D gamma w grad_output :
  fair sch -> 0 < gamma -> (0 <= w)%Z ->
  exists V c G c',
    _SoftDTWCUDA.forward sch D gamma w = Ok (V, c)
    /\ _SoftDTWCUDA.backward sch c grad_output = Ok (G, c')
    /\ interior_kept_unless_infinite D gamma w (saved_R c) (saved_R c').
Proof.
  intros Hfair Hg Hw.
  assert (Hw' : (0 <= w)%Z \/ shape1 D = shape2 D) by now left.
  destruct (cuda_forward_terminal sch D gamma w Hw') as [Hs HF].
  unfold tshape in Hs. injection Hs as H0 H1 H2.
  do 4 eexists. split; [exact HF |]. split.
  - unfold _SoftDTWCUDA.backward.
    rewrite cuda_backward_grids_eq by assumption.
    cbn [bind saved_D saved_gamma saved_bandwidth]. reflexivity.
  - cbn [saved_R].
    apply (interior_kept_of_inv D gamma w Hw').
    + intros b i j Hb. apply run_kernel_grid; [exact Hg | apply Hfair | exact Hb].
    + apply run_backward_kernel_inv; [exact Hg | apply Hfair].
    + exact Hg.
Qed.

(** C3 (amended). During a gradient call the backward pass, sequential or
    on the device, leaves every interior cell of the saved grid whose
    forward value is not infinite unchanged, in particular every active
    cell when the costs are finite; an interior cell whose forward value
    is infinite (every pruned cell, which holds [+infinity]) holds
    [-infinity] afterwards. *)
Theorem C3_backward_keeps_finite_cells
        (D : tensor3) (gamma : R) (w : Z) (grad_output : tensor1) :
  0 < gamma -> (0 <= w)%Z ->
  (exists V c G c',
      _SoftDTW.forward D gamma w = Ok (V, c)
      /\ _SoftDTW.backward c grad_output = Ok (G, c')
      /\ interior_kept_unless_infinite D gamma w (saved_R c) (saved_R c'))
  /\ (forall sch, fair sch ->
      exists V c G c',
        _SoftDTWCUDA.forward sch D gamma w = Ok (V, c)
        /\ _SoftDTWCUDA.backward sch c grad_output = Ok (G, c')
        /\ interior_kept_unless_infinite D gamma w (saved_R c) (saved_R c')).
Proof.
  intros Hg Hw. split.
  - destruct (sequential_backward_keeps D gamma w grad_output Hg Hw)
      as (V & c & G & c' & HF & HB & _ & HK).
    now exists V, c, G, c'.
  - intros sch Hfair. now apply device_backward_keeps.
Qed.

Lemma C3_backward_keeps_finite_cells_witness :
  0 < 1 /\ (0 <= 1)%Z /\
  exists V c G c',
    _SoftDTW.forward (zero_cost 1 3 3) 1 1 = Ok (V, c)
    /\ _SoftDTW.backward c (mkT1 1 (fun _ => Fin 1)) = Ok (G, c')
    /\ data (saved_R c') 0 1 3 = MInf.
Proof.
  split; [lra |]. split; [lia |].
  destruct (C3_backward_keeps_finite_cells
              (zero_cost 1 3 3) 1 1 (mkT1 1 (fun _ => Fin 1)))
    as [(V & c & G & c' & HF & HB & H) _]; [lra | lia |].
  exists V, c, G, c'. split; [exact HF |]. split; [exact HB |].
  apply (H 0%nat 1%nat 3%nat); [simpl; lia | unfold inner; simpl; lia |].
  reflexivity.
Defined.

(** The claim as stated fails: with [N = M = 3] and bandwidth 1 the
    interior cell (1,3) holds [+infinity] after the forward pass and
    [-infinity] after the backward pass. *)
Lemma C3_counterexample :
  exists V c G c',
    _SoftDTW.forward (zero_cost 1 3 3) 1 1 = Ok (V, c)
    /\ _SoftDTW.backward c (mkT1 1 (fun _ => Fin 1)) = Ok (G, c')
    /\ inner 3 3 1 3
    /\ data (saved_R c) 0 1 3 = PInf
    /\ data (saved_R c') 0 1 3 = MInf
    /\ data (saved_R c') 0 1 3 <> data (saved_R c) 0 1 3.
Proof.
  destruct (sequential_backward_keeps
              (zero_cost 1 3 3) 1 1 (mkT1 1 (fun _ => Fin 1)))
    as (V & c & G & c' & HF & HB & _ & HK); [lra | lia |].
  exists V, c, G, c'. split; [exact HF |]. split; [exact HB |].
  assert (Hin : inner 3 3 1 3) by (unfold inner; lia).
  destruct (HK 0%nat 1%nat 3%nat) as (_ & _ & Hp & _);
    [simpl; lia | exact Hin |].
  destruct (Hp eq_refl) as [Hb Ha].
  split; [exact Hin |]. split; [exact Hb |]. split; [exact Ha |].
  rewrite Ha, Hb. discriminate.
Qed.

(** C8. For [gamma > 0] and bandwidth [w > 0], on both the sequential
    and the device backward pass: the adjoint grid, and so the gradient
    returned, is exactly 0 at every pruned cell; every active cell holds
    the sum of its three successor terms and, the costs being finite, the
    term of a pruned successor is exactly 0. *)
Theorem C8_pruned_cells_carry_no_gradient
        (D : tensor3) (gamma : R) (w : Z) :
  0 < gamma -> (0 < w)%Z ->
  let N := shape1 D in
  let M := shape2 D in
  (exists G Rf Ef,
      compute_softdtw_backward D (compute_softdtw D gamma w) gamma w
      = Ok (G, Rf)
      /\ G = interior Ef N M
      /\ pruned_cells_inert D gamma w Rf Ef
      /\ forall b i j,
          (b < shape0 D)%nat -> inner N M i j -> pruned w i j = true ->
          data G b (i - 1) (j - 1) = Fin 0)
  /\ (forall sch, fair sch ->
      exists V c Rf Ef,
        _SoftDTWCUDA.forward sch D gamma w = Ok (V, c)
        /\ _SoftDTWCUDA.backward_grids sch c = Ok (Rf, Ef)
        /\ pruned_cells_inert D gamma w Rf Ef
        /\ forall grad_output,
            _SoftDTWCUDA.backward sch c grad_output
            = Ok (scale_by grad_output (interior Ef N M),
                  mkCtx D Rf gamma w)).
Proof.
  intros Hg Hw N M.
  assert (Hnz : gamma <> 0) by lra.
  assert (Hw' : (0 <= w)%Z \/ shape1 D = shape2 D) by (left; lia).
  split.
  - do 3 eexists. split; [now apply compute_softdtw_backward_eq |].
    split; [reflexivity |].
    assert (HP : pruned_cells_inert D gamma w
                   (fst (backward_loop (pad D) gamma w (shape0 D) N M
                           (boundary_R (compute_softdtw D gamma w)
                              (fst (terminal_cell N M w) + 1)
                              (snd (terminal_cell N M w) + 1),
                            seed_E (shape0 D) N M
                              (fst (terminal_cell N M w) + 1)
                              (snd (terminal_cell N M w) + 1))))
                   (snd (backward_loop (pad D) gamma w (shape0 D) N M
                           (boundary_R (compute_softdtw D gamma w)
                              (fst (terminal_cell N M w) + 1)
                              (snd (terminal_cell N M w) + 1),
                            seed_E (shape0 D) N M
                              (fst (terminal_cell N M w) + 1)
                              (snd (terminal_cell N M w) + 1))))).
    { apply (pruned_inert_of_inv D gamma w Hw' (compute_softdtw D gamma w)).
      - intros b i j Hb. now apply compute_softdtw_grid.
      - apply backward_loop_inv.
      - exact Hg. }
    split; [exact HP |].
    intros b i j Hb Hin Hp. cbn [interior data].
    unfold inner in Hin.
    replace (i - 1 + 1)%nat with i by lia.
    replace (j - 1 + 1)%nat with j by lia.
    apply (HP b i j Hb); [unfold inner; lia | exact Hp].
  - intros sch Hfair.
    destruct (cuda_forward_terminal sch D gamma w Hw') as [Hs HF].
    unfold tshape in Hs. injection Hs as H0 H1 H2.
    do 4 eexists. split; [exact HF |]. split.
    { rewrite cuda_backward_grids_eq by assumption.
      rewrite <- surjective_pairing. reflexivity. }
    split.
    + eapply (pruned_inert_of_inv D gamma w Hw'); cycle 1.
      * apply run_backward_kernel_inv; [exact Hg | apply Hfair].
      * exact Hg.
      * intros b i j Hb.
        apply run_kernel_grid; [exact Hg | apply Hfair | exact Hb].
    + intros grad_output. unfold _SoftDTWCUDA.backward.
      rewrite cuda_backward_grids_eq by assumption.
      cbn [bind saved_D saved_gamma saved_bandwidth]. reflexivity.
Qed.

Lemma C8_pruned_cells_carry_no_gradient_witness :
  0 < 1 /\ (0 < 1)%Z /\
  exists G Rf,
    compute_softdtw_backward (zero_cost 1 3 3)
                             (compute_softdtw (zero_cost 1 3 3) 1 1) 1 1
    = Ok (G, Rf)
    /\ data G 0 0 2 = Fin 0.
Proof.
  split; [lra |]. split; [lia |].
  destruct (C8_pruned_cells_carry_no_gradient (zero_cost 1 3 3) 1 1)
    as [(G & Rf & Ef & HB & _ & _ & H) _]; [lra | lia |].
  exists G, Rf. split; [exact HB |].
  apply (H 0%nat 1%nat 3%nat); [simpl; lia | unfold inner; simpl; lia |].
  reflexivity.
Defined.

(** ** The band: no pruning *)

Lemma compute_softdtw_band D gamma w w' :
  (forall i j, inner (shape1 D) (shape2 D) i j ->
               pruned w i j = pruned w' i j) ->
  compute_softdtw D gamma w = compute_softdtw D gamma w'.
Proof.
  intros H. unfold compute_softdtw.
  apply fold_left_agree. intros Rb b _.
  apply fold_left_agree. intros Rj j Hj.
  apply fold_left_agree. intros Ri i Hi.
  unfold forward_cell. rewrite (H i j); [reflexivity |].
  apply in_seq in Hi, Hj. unfold inner. lia.
Qed.

Lemma backward_loop_band D gamma w w' B N M st :
  (forall i j, inner N M i j -> pruned w i j = pruned w' i j) ->
  backward_loop D gamma w B N M st = backward_loop D gamma w' B N M st.
Proof.
  intros H. unfold backward_loop.
  apply fold_left_agree. intros sb b _.
  apply fold_left_agree. intros sj j Hj.
  apply fold_left_agree. intros si i Hi.
  unfold backward_cell. rewrite (H i j); [reflexivity |].
  apply in_rev, in_seq in Hi. apply in_rev, in_seq in Hj.
  unfold inner. lia.
Qed.

Lemma wide_band_prunes_nothing N M i j :
  inner N M i j -> pruned (Z.of_nat (Nat.max N M)) i j = pruned 0 i j.
Proof.
  intros Hin. unfold inner in Hin.
  transitivity false; [| symmetry]; apply pruned_false; lia.
Qed.

(** C7. With [gamma > 0], bandwidth 0 and bandwidth [max(N, M)] give the
    same per-batch values and the same gradients: neither setting prunes
    an interior cell and both read the terminal cell [(N, M)]. *)
Theorem C7_band_correctness
        (D : tensor3) (gamma : R) (grad_output : tensor1) :
  0 < gamma ->
  let N := shape1 D in
  let M := shape2 D in
  let wide := Z.of_nat (Nat.max N M) in
  exists V c0 cw G c0' cw',
    _SoftDTW.forward D gamma 0 = Ok (V, c0)
    /\ _SoftDTW.forward D gamma wide = Ok (V, cw)
    /\ _SoftDTW.backward c0 grad_output = Ok (G, c0')
    /\ _SoftDTW.backward cw grad_output = Ok (G, cw')
    /\ (forall b, vdata V b = data (saved_R c0) b N M)
    /\ (forall i j, inner N M i j ->
                    pruned 0 i j = false /\ pruned wide i j = false).
Proof.
  intros Hg N M wide.
  assert (Hnz : gamma <> 0) by lra.
  assert (Hband : forall i j, inner N M i j -> pruned wide i j = pruned 0 i j).
  { intros i j Hin. now apply wide_band_prunes_nothing. }
  assert (Ht0 : terminal_cell N M 0 = (N, M)).
  { apply terminal_cell_corner. tauto. }
  assert (Htw : terminal_cell N M wide = (N, M)).
  { apply terminal_cell_corner. unfold wide. lia. }
  assert (HR : compute_softdtw D gamma wide = compute_softdtw D gamma 0).
  { now apply compute_softdtw_band. }
  do 6 eexists.
  split; [apply forward_terminal; [assumption | left; lia] |].
  split.
  { rewrite forward_terminal; [| assumption | left; unfold wide; lia].
    fold N M. rewrite Htw, Ht0, HR. reflexivity. }
  split; [apply backward_on_saved; [assumption | left; lia] |].
  split.
  { pose proof (backward_on_saved D gamma wide grad_output Hnz) as HB.
    cbv zeta in HB. rewrite HR in HB. rewrite HB by (left; unfold wide; lia).
    fold N M. rewrite Htw, Ht0.
    rewrite (backward_loop_band (pad D) gamma wide 0 (shape0 D) N M)
      by assumption.
    reflexivity. }
  split.
  { intros b. fold N M. rewrite Ht0. reflexivity. }
  intros i j Hin. rewrite Hband by assumption.
  assert (pruned 0 i j = false) by (apply pruned_false; lia). tauto.
Qed.

Lemma C7_band_correctness_witness :
  0 < 1 /\
  exists V c0 cw G c0' cw',
    _SoftDTW.forward (zero_cost 1 2 3) 1 0 = Ok (V, c0)
    /\ _SoftDTW.forward (zero_cost 1 2 3) 1 3 = Ok (V, cw)
    /\ _SoftDTW.backward c0 (mkT1 1 (fun _ => Fin 1)) = Ok (G, c0')
    /\ _SoftDTW.backward cw (mkT1 1 (fun _ => Fin 1)) = Ok (G, cw').
Proof.
  split; [lra |].
  destruct (C7_band_correctness (zero_cost 1 2 3) 1 (mkT1 1 (fun _ => Fin 1)))
    as (V & c0 & cw & G & c0' & cw' & H1 & H2 & H3 & H4 & _); [lra |].
  exists V, c0, cw, G, c0', cw'. repeat split; assumption.
Defined.

(** ** All-zero costs *)

Lemma exp_ge_1 x : 0 <= x -> 1 <= exp x.
Proof. intros H. pose proof (exp_ineq1_le x). lra. Qed.

Lemma ln_ge_0 x : 1 <= x -> 0 <= ln x.
Proof.
  intros [H | <-].
  - left. rewrite <- ln_1. apply ln_increasing; lra.
  - rewrite ln_1. lra.
Qed.

Lemma weight_ge_1 g a : 0 < g -> a <= 0 -> 1 <= weight g (Fin a).
Proof.
  intros Hg Ha. simpl. apply exp_ge_1.
  unfold Rdiv. apply Rmult_le_pos; [lra |].
  left. now apply Rinv_0_lt_compat.
Qed.

Lemma weight_zero g : weight g (Fin 0) = 1.
Proof. simpl. unfold Rdiv. rewrite Ropp_0, Rmult_0_l. apply exp_0. Qed.

Section ZeroCost.
Variables (B N M : nat) (gamma : R) (w : Z) (b : nat).
Hypothesis gamma_pos : 0 < gamma.
Let D := zero_cost B N M.

Lemma zero_cost_finite : finite3 D.
Proof. intros b' i j. exact I.  Qed.

Lemma zero_cost_value i j :
  inner N M i j -> pruned w i j = false ->
  soft_grid D gamma w b i j
  = Fin (- gamma *
           ln (weight gamma (soft_grid D gamma w b (i - 1) (j - 1))
               + weight gamma (soft_grid D gamma w b (i - 1) j)
               + weight gamma (soft_grid D gamma w b i (j - 1)))).
Proof.
  intros Hin Hp.
  rewrite (soft_grid_active_value D gamma w b gamma_pos zero_cost_finite
                                  i j 0 Hin Hp eq_refl).
  f_equal. ring.
Qed.

(** Every cell of the grid is [+inf] or a non-positive real. *)
Lemma zero_cost_nonpos n :
  forall i j, (i + j <= n)%nat ->
    soft_grid D gamma w b i j = PInf
    \/ exists r, soft_grid D gamma w b i j = Fin r /\ r <= 0.
Proof.
  induction n as [| n IH]; intros i j Hn.
  - assert (i = 0 /\ j = 0)%nat as [-> ->] by lia.
    right. exists 0. split; [reflexivity | lra].
  - destruct (inner_dec N M i j) as [Hin | Hout].
    2:{ destruct i as [| i]; [destruct j as [| j] |].
        - right. exists 0. split; [reflexivity | lra].
        - now left.
        - left. apply soft_grid_outer; [exact Hout | congruence]. }
    destruct (pruned w i j) eqn:Hp.
    { left. now apply soft_grid_pruned. }
    right. rewrite zero_cost_value by assumption.
    eexists. split; [reflexivity |].
    set (x0 := soft_grid D gamma w b (i - 1) (j - 1)).
    set (x1 := soft_grid D gamma w b (i - 1) j).
    set (x2 := soft_grid D gamma w b i (j - 1)).
    assert (H1 : 1 <= weight gamma x0 + weight gamma x1 + weight gamma x2).
    { pose proof (weight_nonneg gamma x0). pose proof (weight_nonneg gamma x1).
      pose proof (weight_nonneg gamma x2).
      unfold inner in Hin.
      assert (Hge : forall i' j', (i' + j' <= n)%nat ->
                 is_fin (soft_grid D gamma w b i' j') ->
                 1 <= weight gamma (soft_grid D gamma w b i' j')).
      { intros i' j' Hn' Hf.
        destruct (IH i' j' Hn') as [E | [r [E Hr]]]; rewrite E in *.
        - simpl in Hf. tauto.
        - now apply weight_ge_1. }
      destruct (soft_grid_pred_fin D gamma w b gamma_pos zero_cost_finite
                                   i j Hin Hp) as [Hf | [Hf | Hf]];
        apply Hge in Hf; try lia; fold x0 x1 x2 in Hf; lra. }
    apply ln_ge_0 in H1. nra.
Qed.

(** With a single row or a single column there is one alignment path
    and every active cell holds 0. *)
Lemma zero_cost_single_row j :
  N = 1%nat -> (1 <= j <= M)%nat -> pruned w 1 j = false ->
  soft_grid D gamma w b 1 j = Fin 0.
Proof.
  intros HN. induction j as [| j IH]; intros Hj Hp; [lia |].
  rewrite zero_cost_value by (assumption || unfold inner; lia).
  cbn [Nat.sub]. rewrite Nat.sub_0_r.
  destruct j as [| j].
  - cbn [soft_grid]. rewrite weight_zero. simpl.
    replace (1 + 0 + 0) with 1 by ring. rewrite ln_1. f_equal. ring.
  - rewrite IH; [| lia |].
    + rewrite weight_zero. simpl.
      replace (0 + 0 + 1) with 1 by ring. rewrite ln_1. f_equal. ring.
    + apply pruned_false. apply pruned_false in Hp. lia.
Qed.

Lemma zero_cost_single_col i :
  M = 1%nat -> (1 <= i <= N)%nat -> pruned w i 1 = false ->
  soft_grid D gamma w b i 1 = Fin 0.
Proof.
  intros HM. induction i as [| i IH]; intros Hi Hp; [lia |].
  rewrite zero_cost_value by (assumption || unfold inner; lia).
  cbn [Nat.sub]. rewrite Nat.sub_0_r.
  destruct i as [| i].
  - cbn [soft_grid]. rewrite weight_zero. simpl.
    replace (1 + 0 + 0) with 1 by ring. rewrite ln_1. f_equal. ring.
  - rewrite IH; [| lia |].
    + rewrite weight_zero. rewrite soft_grid_col0. simpl.
      replace (0 + 1 + 0) with 1 by ring. rewrite ln_1. f_equal. ring.
    + apply pruned_false. apply pruned_false in Hp. lia.
Qed.
End ZeroCost.

(** C6 (amended). For [gamma > 0], every non-negative bandwidth and every
    shape with at least one row and one column, [align] on the all-zero
    cost matrix yields a finite value that is at most 0 for every batch
    element, and exactly 0 when [N = 1] or [M = 1]. *)
Theorem C6_zero_cost_value (B N M : nat) (gamma : R) (w : Z) :
  0 < gamma -> (0 <= w)%Z -> (1 <= N)%nat -> (1 <= M)%nat ->
  exists V c,
    _SoftDTW.forward (zero_cost B N M) gamma w = Ok (V, c)
    /\ len V = B
    /\ forall b, (b < B)%nat ->
         exists r, vdata V b = Fin r /\ r <= 0
                   /\ (N = 1%nat \/ M = 1%nat -> r = 0).
Proof.
  intros Hg Hw HN HM.
  do 2 eexists. split; [apply forward_terminal; [lra | now left] |].
  split; [cbn [len tget_cell]; apply compute_softdtw_shape0 |].
  intros b Hb. cbn [vdata tget_cell shape1 shape2 zero_cost full].
  rewrite compute_softdtw_grid by exact Hb.
  destruct (terminal_cell_active N M w HN HM Hw) as [Hin Hp].
  set (ti := fst (terminal_cell N M w)) in *.
  set (tj := snd (terminal_cell N M w)) in *.
  pose proof (soft_grid_active_fin (zero_cost B N M) gamma w b Hg
                (zero_cost_finite B N M) ti tj Hin Hp) as Hfin.
  destruct (zero_cost_nonpos B N M gamma w b Hg (ti + tj) ti tj (le_n _))
    as [E | [r [E Hr]]].
  { rewrite E in Hfin. simpl in Hfin. tauto. }
  exists r. split; [exact E |]. split; [exact Hr |].
  intros [H1 | H1].
  - assert (ti = 1%nat) by (unfold inner in Hin; cbn in Hin; lia).
    assert (E0 : soft_grid (zero_cost B N M) gamma w b ti tj = Fin 0).
    { replace ti with 1%nat in *.
      apply zero_cost_single_row; try assumption.
      unfold inner in Hin. cbn in Hin. lia. }
    congruence.
  - assert (tj = 1%nat) by (unfold inner in Hin; cbn in Hin; lia).
    assert (E0 : soft_grid (zero_cost B N M) gamma w b ti tj = Fin 0).
    { replace tj with 1%nat in *.
      apply zero_cost_single_col; try assumption.
      unfold inner in Hin. cbn in Hin. lia. }
    congruence.
Qed.

Lemma C6_zero_cost_value_witness :
  0 < 1 /\ (0 <= 0)%Z /\ (1 <= 1)%nat /\ (1 <= 3)%nat /\
  exists V c,
    _SoftDTW.forward (zero_cost 2 1 3) 1 0 = Ok (V, c)
    /\ len V = 2%nat
    /\ forall b, (b < 2)%nat ->
         exists r, vdata V b = Fin r /\ r <= 0
                   /\ (1%nat = 1%nat \/ 3%nat = 1%nat -> r = 0).
Proof.
  split; [lra |]. split; [lia |]. split; [lia |]. split; [lia |].
  apply (C6_zero_cost_value 2 1 3 1 0); [lra | lia | lia | lia].
Defined.

(** The claim as stated fails: for one [2 x 2] all-zero cost matrix,
    [gamma = 1] and no band, the value is negative (three paths reach the
    corner). *)
Lemma C6_counterexample :
  exists V c r,
    _SoftDTW.forward (zero_cost 1 2 2) 1 0 = Ok (V, c)
    /\ vdata V 0%nat = Fin r /\ r < 0 /\ vdata V 0%nat <> Fin 0.
Proof.
  assert (Hg : 0 < 1) by lra.
  set (D := zero_cost 1 2 2).
  assert (Hact : forall i j, inner 2 2 i j ->
             exists r, soft_grid D 1 0 0 i j = Fin r /\ r <= 0).
  { intros i j Hin.
    pose proof (soft_grid_active_fin D 1 0 0%nat Hg (zero_cost_finite 1 2 2)
                  i j Hin eq_refl) as Hfin.
    destruct (zero_cost_nonpos 1 2 2 1 0 0%nat Hg (i + j) i j (le_n _))
      as [E | H]; [| exact H].
    fold D in E. rewrite E in Hfin. simpl in Hfin. tauto. }
  destruct (Hact 1 1)%nat as [r11 [E11 H11]]; [unfold inner; lia |].
  destruct (Hact 1 2)%nat as [r12 [E12 H12]]; [unfold inner; lia |].
  destruct (Hact 2 1)%nat as [r21 [E21 H21]]; [unfold inner; lia |].
  assert (E22 : soft_grid D 1 0 0 2 2
                = Fin (- 1 * ln (weight 1 (Fin r11) + weight 1 (Fin r12)
                                 + weight 1 (Fin r21)))).
  { unfold D. rewrite zero_cost_value; [| exact Hg | unfold inner; lia | reflexivity].
    cbn [Nat.sub]. fold D. now rewrite E11, E12, E21. }
  pose proof (weight_ge_1 1 r11 Hg H11) as W11.
  pose proof (weight_ge_1 1 r12 Hg H12) as W12.
  pose proof (weight_ge_1 1 r21 Hg H21) as W21.
  assert (Hln : 0 < ln (weight 1 (Fin r11) + weight 1 (Fin r12)
                        + weight 1 (Fin r21))).
  { rewrite <- ln_1. apply ln_increasing; lra. }
  set (L := ln _) in *.
  do 3 eexists. split; [apply forward_terminal; [lra | now left] |].
  cbn [vdata tget_cell]. fold D.
  rewrite compute_softdtw_grid by (simpl; lia).
  change (terminal_cell (shape1 D) (shape2 D) 0) with (2%nat, 2%nat).
  cbn [fst snd]. rewrite E22.
  split; [reflexivity |]. split; [lra |].
  intros H. injection H as H. lra.
Qed.

(** ** Dispatch *)

(** C4 (amended). When the CUDA backend is selected and a sequence length
    exceeds 1024, the dispatcher raises no error: it prints a notice and
    selects the sequential implementation; with both lengths at most 1024
    it selects the CUDA implementation and prints nothing. *)
Theorem C4_capacity_fallback (self : SoftDTW.t) (x y : tensor3) :
  SoftDTW.use_cuda self = true ->
  shape0 x = shape0 y -> shape2 x = shape2 y ->
  ((1024 < shape1 x)%nat \/ (1024 < shape1 y)%nat ->
   SoftDTW._get_func_dtw self x y
   = Ok (SoftDTW.SoftDTW_apply, [SoftDTW.capacity_notice]))
  /\ ((shape1 x <= 1024)%nat /\ (shape1 y <= 1024)%nat ->
      SoftDTW._get_func_dtw self x y = Ok (SoftDTW.SoftDTWCUDA_apply, [])).
Proof.
  intros Hc Hb Hd. unfold SoftDTW._get_func_dtw.
  rewrite Hb, Hd, !Nat.eqb_refl, Hc. cbn [negb andb].
  split.
  - intros H.
    replace ((1024 <? shape1 x)%nat || (1024 <? shape1 y)%nat) with true;
      [reflexivity |].
    symmetry. apply orb_true_iff. rewrite !Nat.ltb_lt. exact H.
  - intros [H1 H2].
    replace ((1024 <? shape1 x)%nat || (1024 <? shape1 y)%nat) with false;
      [reflexivity |].
    symmetry. apply orb_false_iff. rewrite !Nat.ltb_ge. tauto.
Qed.

Lemma C4_capacity_fallback_witness :
  SoftDTW.use_cuda (SoftDTW.init true 1 false None) = true /\
  SoftDTW._get_func_dtw (SoftDTW.init true 1 false None)
                        (zero_cost 1 2000 3) (zero_cost 1 5 3)
  = Ok (SoftDTW.SoftDTW_apply, [SoftDTW.capacity_notice]).
Proof.
  split; [reflexivity |].
  apply (C4_capacity_fallback (SoftDTW.init true 1 false None)
                              (zero_cost 1 2000 3) (zero_cost 1 5 3));
    try reflexivity.
  left. simpl. lia.
Defined.

(** The claim as stated fails: with the CUDA backend selected and a
    sequence of length 1025, no error is raised; the sequential
    implementation is selected and [forward] returns its values. *)
Lemma C4_counterexample :
  let self := SoftDTW.init true 1 false None in
  let X := zero_cost 1 1025 1 in
  let Y := zero_cost 1 1 1 in
  SoftDTW.use_cuda self = true
  /\ (1024 < shape1 X)%nat
  /\ SoftDTW._get_func_dtw self X Y
     = Ok (SoftDTW.SoftDTW_apply, [SoftDTW.capacity_notice])
  /\ exists V, SoftDTW.forward self in_order X Y
               = Ok (V, [SoftDTW.capacity_notice]).
Proof.
  cbv zeta. split; [reflexivity |]. split; [simpl; lia |].
  assert (H : SoftDTW._get_func_dtw (SoftDTW.init true 1 false None)
                (zero_cost 1 1025 1) (zero_cost 1 1 1)
              = Ok (SoftDTW.SoftDTW_apply, [SoftDTW.capacity_notice])).
  { unfold SoftDTW._get_func_dtw.
    cbn [shape0 shape1 shape2 zero_cost full SoftDTW.use_cuda SoftDTW.init
         Nat.eqb negb andb].
    replace (1024 <? 1025)%nat with true by (symmetry; apply Nat.ltb_lt; lia).
    reflexivity. }
  split; [exact H |].
  unfold SoftDTW.forward. rewrite H.
  cbn [bind fst snd SoftDTW.normalize SoftDTW.init SoftDTW.gamma
       SoftDTW.bandwidth SoftDTW.apply].
  rewrite forward_terminal; [| lra | left; lia].
  cbn [bind fst]. eexists. reflexivity.
Qed.

(** C5 (amended). [align] performs no check of [gamma]: for every
    negative [gamma] (and non-negative bandwidth) it allocates the grid,
    runs the recurrence and returns the value read at the terminal cell;
    no invalid-argument failure is raised. *)
Theorem C5_gamma_is_not_validated (D : tensor3) (gamma : R) (w : Z) :
  gamma < 0 -> (0 <= w)%Z ->
  exists V c,
    _SoftDTW.forward D gamma w = Ok (V, c)
    /\ saved_R c = compute_softdtw D gamma w
    /\ tshape (saved_R c) = (shape0 D, (shape1 D + 2)%nat, (shape2 D + 2)%nat)
    /\ forall b, vdata V b
                 = data (saved_R c) b
                        (fst (terminal_cell (shape1 D) (shape2 D) w))
                        (snd (terminal_cell (shape1 D) (shape2 D) w)).
Proof.
  intros Hg Hw. do 2 eexists.
  split; [apply forward_terminal; [lra | now left] |].
  cbn [saved_R]. split; [reflexivity |].
  split; [apply compute_softdtw_shape | reflexivity].
Qed.

Lemma C5_gamma_is_not_validated_witness :
  -1 < 0 /\ (0 <= 0)%Z /\
  exists V c, _SoftDTW.forward (zero_cost 1 2 2) (-1) 0 = Ok (V, c).
Proof.
  split; [lra |]. split; [lia |].
  destruct (C5_gamma_is_not_validated (zero_cost 1 2 2) (-1) 0)
    as (V & c & H & _); [lra | lia |].
  exists V, c. exact H.
Defined.

(** The claim as stated fails: with [gamma = -1] the call succeeds; the
    grid is allocated and a value is returned. *)
Lemma C5_counterexample :
  -1 <= 0 /\
  exists V c,
    _SoftDTW.forward (zero_cost 1 1 1) (-1) 0 = Ok (V, c)
    /\ tshape (saved_R c) = (1, 3, 3)%nat.
Proof.
  split; [lra |]. do 2 eexists.
  split; [apply forward_terminal; [lra | now left] |].
  cbn [saved_R]. apply compute_softdtw_shape.
Qed.

(** ** The cost matrix built by the module *)

Lemma rbf_bounds a b :
  exists r, SoftDTW.rbf (Fin a) (Fin b) = Fin r /\ 0 <= r <= 2.
Proof.
  unfold SoftDTW.rbf. simpl. eexists. split; [reflexivity |].
  pose proof (Rle_0_sqr (a + - b)) as Ht. unfold Rsqr in Ht.
  generalize dependent ((a + - b) * (a + - b)). intros t Ht.
  assert (He : exp (- (0.5) * t) <= 1).
  { destruct (Req_dec t 0) as [-> | Hne].
    - rewrite Rmult_0_r, exp_0. lra.
    - left. rewrite <- exp_0. apply exp_increasing. lra. }
  pose proof (exp_pos (- (0.5) * t)). lra.
Qed.

(** C10. For sequences [X] and [Y] of finite reals, every entry of the
    cost matrix built by the module is a finite real between 0 and
    [2 * D], where [D] is the number of feature dimensions. *)
Theorem C10_cost_matrix_bounds (x y : tensor3) :
  finite3 x -> finite3 y ->
  let C := SoftDTW._calc_distance_matrix x y in
  tshape C = (shape0 x, shape1 x, shape1 y)
  /\ finite3 C
  /\ forall b i j,
      exists r, data C b i j = Fin r /\ 0 <= r <= 2 * INR (shape2 x).
Proof.
  intros Hx Hy C.
  assert (Hentry : forall b i j,
             exists r, data C b i j = Fin r /\ 0 <= r <= 2 * INR (shape2 x)).
  { intros b i j. unfold C, SoftDTW._calc_distance_matrix. cbn [data].
    change (shape2 x) with (0 + shape2 x)%nat at 2.
    apply (fold_seq_inv _
             (fun k acc => exists r, acc = Fin r /\ 0 <= r <= 2 * INR k)).
    - exists 0. simpl. split; [reflexivity | lra].
    - intros k acc _ [r [-> Hr]].
      pose proof (Hx b i k) as Hxk. pose proof (Hy b j k) as Hyk.
      destruct (data x b i k) as [a | | |]; simpl in Hxk; try tauto.
      destruct (data y b j k) as [c | | |]; simpl in Hyk; try tauto.
      destruct (rbf_bounds a c) as [t [-> Ht]].
      exists (r + t). split; [reflexivity |]. rewrite S_INR. lra. }
  split; [reflexivity |]. split; [| exact Hentry].
  intros b i j. destruct (Hentry b i j) as [r [-> _]]. exact I.
Qed.

Lemma C10_cost_matrix_bounds_witness :
  finite3 (zero_cost 1 2 3) /\ finite3 (zero_cost 1 4 3) /\
  exists r, data (SoftDTW._calc_distance_matrix (zero_cost 1 2 3)
                                                (zero_cost 1 4 3)) 0 1 2
            = Fin r /\ 0 <= r <= 2 * INR 3.
Proof.
  assert (H1 : finite3 (zero_cost 1 2 3)) by (intros b i j; exact I).
  assert (H2 : finite3 (zero_cost 1 4 3)) by (intros b i j; exact I).
  split; [exact H1 |]. split; [exact H2 |].
  destruct (C10_cost_matrix_bounds (zero_cost 1 2 3) (zero_cost 1 4 3) H1 H2)
    as (_ & _ & H).
  exact (H 0%nat 1%nat 2%nat).
Defined.

(* ------------------------------------------------------------------ *)
(** * Further properties of the code *)

(** ** The value of [forward] *)

Lemma forward_terminal_any D gamma w :
  gamma <> 0 \/ has_cells D = false ->
  (0 <= w)%Z \/ shape1 D = shape2 D ->
  _SoftDTW.forward D gamma w
  = Ok (tget_cell (compute_softdtw D gamma w)
                  (fst (terminal_cell (shape1 D) (shape2 D) w))
                  (snd (terminal_cell (shape1 D) (shape2 D) w)),
        mkCtx D (compute_softdtw D gamma w) gamma w).
Proof.
  intros Hg Hw. unfold _SoftDTW.forward.
  replace (Reqb gamma 0 && has_cells D) with false.
  - rewrite read_value_terminal;
      auto using compute_softdtw_shape1, compute_softdtw_shape2.
  - symmetry. apply andb_false_iff.
    destruct Hg as [Hg | Hg]; [left; now apply Reqb_false | now right].
Qed.

(** Both backends return, for each batch element, the solution of the
    recurrence at the terminal cell. *)
Lemma apply_value f sch D gamma w :
  fair sch -> 0 < gamma -> (0 <= w)%Z \/ shape1 D = shape2 D ->
  exists V,
    SoftDTW.apply f sch D gamma w = Ok V
    /\ len V = shape0 D
    /\ forall b, (b < shape0 D)%nat ->
         vdata V b
         = soft_grid D gamma w b
                     (fst (terminal_cell (shape1 D) (shape2 D) w))
                     (snd (terminal_cell (shape1 D) (shape2 D) w)).
Proof.
  intros Hfair Hg Hw. destruct f; unfold SoftDTW.apply.
  - rewrite forward_terminal by (assumption || lra). cbn [bind fst].
    eexists. split; [reflexivity |].
    split; [apply compute_softdtw_shape0 |].
    intros b Hb. cbn [vdata tget_cell]. now apply compute_softdtw_grid.
  - destruct (cuda_forward_terminal sch D gamma w Hw) as [Hs ->].
    cbn [bind fst]. eexists. split; [reflexivity |].
    unfold tshape in Hs. injection Hs as H0 H1 H2.
    split; [exact H0 |].
    intros b Hb. cbn [vdata tget_cell].
    apply run_kernel_grid; [exact Hg | apply Hfair | exact Hb].
Qed.

(** With finite costs the solution at the terminal cell is finite. *)
Lemma terminal_value_finite D gamma w b :
  0 < gamma -> finite3 D ->
  (1 <= shape1 D)%nat -> (1 <= shape2 D)%nat -> (0 <= w)%Z ->
  is_fin (soft_grid D gamma w b
                    (fst (terminal_cell (shape1 D) (shape2 D) w))
                    (snd (terminal_cell (shape1 D) (shape2 D) w))).
Proof.
  intros Hg HD HN HM Hw.
  destruct (terminal_cell_active (shape1 D) (shape2 D) w HN HM Hw) as [Hin Hp].
  now apply soft_grid_active_fin.
Qed.



(** X2. Empty sequences: when one of the two lengths is 0 the sequential
    [forward] raises nothing, whatever [gamma] (no cell is visited, so no
    division is executed); the value of every batch element is [+inf],
    except that two empty sequences give 0. *)
Theorem X2_empty_sequence (D : tensor3) (gamma : R) (w : Z) :
  (shape1 D = 0 \/ shape2 D = 0)%nat -> (0 <= w)%Z ->
  exists V c,
    _SoftDTW.forward D gamma w = Ok (V, c)
    /\ forall b, (b < shape0 D)%nat ->
         vdata V b
         = if ((shape1 D =? 0) && (shape2 D =? 0))%nat then Fin 0 else PInf.
Proof.
  intros Hempty Hw.
  assert (Hc : has_cells D = false).
  { unfold has_cells. rewrite !andb_false_iff, !Nat.ltb_ge. lia. }
  do 2 eexists. split; [apply forward_terminal_any; [now right | now left] |].
  intros b Hb. cbn [vdata tget_cell].
  rewrite compute_softdtw_grid by exact Hb.
  assert (Hbool : ((shape1 D =? 0) && (shape2 D =? 0))%nat = true
                  -> shape1 D = 0%nat /\ shape2 D = 0%nat).
  { rewrite andb_true_iff, !Nat.eqb_eq. tauto. }
  destruct (terminal_cell_cases (shape1 D) (shape2 D) w (or_introl Hw))
    as [E | [(H1 & H2 & E) | (H1 & H2 & E)]]; rewrite E; cbn [fst snd].
  - destruct ((shape1 D =? 0) && (shape2 D =? 0))%nat eqn:Eb.
    + destruct (Hbool eq_refl) as [-> ->]. reflexivity.
    + apply soft_grid_outer; [unfold inner; lia |].
      intros H. injection H as HN HM.
      rewrite HN, HM in Eb. discriminate.
  - destruct ((shape1 D =? 0) && (shape2 D =? 0))%nat eqn:Eb.
    + destruct (Hbool eq_refl). lia.
    + apply soft_grid_outer; [unfold inner; lia |].
      intros H. inversion H. lia.
  - destruct ((shape1 D =? 0) && (shape2 D =? 0))%nat eqn:Eb.
    + destruct (Hbool eq_refl). lia.
    + apply soft_grid_outer; [unfold inner; lia |].
      intros H. inversion H. lia.
Qed.

Lemma X2_empty_sequence_witness :
  (shape1 (zero_cost 2 0 4) = 0 \/ shape2 (zero_cost 2 0 4) = 0)%nat /\
  (0 <= 2)%Z /\
  exists V c,
    _SoftDTW.forward (zero_cost 2 0 4) 0 2 = Ok (V, c)
    /\ forall b, (b < 2)%nat -> vdata V b = PInf.
Proof.
  split; [left; reflexivity |]. split; [lia |].
  destruct (X2_empty_sequence (zero_cost 2 0 4) 0 2) as (V & c & HF & HV);
    [left; reflexivity | lia |].
  exists V, c. split; [exact HF |]. intros b Hb. now apply HV.
Defined.

(** ** The band guard *)

(** X3. A bandwidth that is zero or negative, or at least
    [max(N, M) - 1], prunes nothing: the forward grid and the backward
    loops are those of bandwidth 0. *)
Theorem X3_band_guard (D : tensor3) (gamma : R) (w : Z) :
  (w <= 0)%Z \/ (Z.of_nat (Nat.max (shape1 D) (shape2 D)) - 1 <= w)%Z ->
  compute_softdtw D gamma w = compute_softdtw D gamma 0
  /\ forall st,
      backward_loop (pad D) gamma w (shape0 D) (shape1 D) (shape2 D) st
      = backward_loop (pad D) gamma 0 (shape0 D) (shape1 D) (shape2 D) st.
Proof.
  intros Hw.
  assert (Hband : forall i j, inner (shape1 D) (shape2 D) i j ->
                              pruned w i j = pruned 0 i j).
  { intros i j Hin. unfold inner in Hin.
    transitivity false; [| symmetry]; apply pruned_false; lia. }
  split.
  - now apply compute_softdtw_band.
  - intros st. now apply backward_loop_band.
Qed.

Lemma X3_band_guard_witness :
  ((-3 <= 0)%Z \/
   (Z.of_nat (Nat.max (shape1 (zero_cost 1 4 6)) (shape2 (zero_cost 1 4 6))) - 1
    <= -3)%Z) /\
  compute_softdtw (zero_cost 1 4 6) 1 (-3) = compute_softdtw (zero_cost 1 4 6) 1 0.
Proof.
  assert (H : (-3 <= 0)%Z) by lia.
  split; [left; exact H |].
  exact (proj1 (X3_band_guard (zero_cost 1 4 6) 1 (-3) (or_introl H))).
Defined.

(** ** Negative bandwidth and the index of the value *)

Lemma index_or_raise_below n k :
  (k < - Z.of_nat n)%Z -> index_or_raise n k = Raise IndexError.
Proof.
  intros Hk. unfold index_or_raise, py_index.
  replace ((0 <=? k)%Z) with false by (symmetry; apply Z.leb_gt; lia).
  replace ((- Z.of_nat n <=? k)%Z) with false by (symmetry; apply Z.leb_gt; lia).
  reflexivity.
Qed.

(** X4. A negative bandwidth is not rejected.  For unequal lengths the
    sequential [forward] then takes the offset branch: with [N < M] it
    reads column [N + w] of row [N] when [-N <= w], and raises
    [IndexError] when [w < -N]; with [M < N] it reads row [M + w] of
    column [M] when [-M <= w], and raises [IndexError] when [w < -M]. *)
Theorem X4_negative_bandwidth (D : tensor3) (gamma : R) (w : Z) :
  gamma <> 0 -> (w < 0)%Z ->
  let N := shape1 D in
  let M := shape2 D in
  let Rm := compute_softdtw D gamma w in
  ((N < M)%nat ->
   _SoftDTW.forward D gamma w
   = if (w <? - Z.of_nat N)%Z then Raise IndexError
     else Ok (tget_cell Rm N (Z.to_nat (Z.of_nat N + w)), mkCtx D Rm gamma w))
  /\ ((M < N)%nat ->
      _SoftDTW.forward D gamma w
      = if (w <? - Z.of_nat M)%Z then Raise IndexError
        else Ok (tget_cell Rm (Z.to_nat (Z.of_nat M + w)) M,
                 mkCtx D Rm gamma w)).
Proof.
  intros Hg Hw N M Rm.
  assert (H1 : shape1 Rm = (N + 2)%nat) by apply compute_softdtw_shape1.
  assert (H2 : shape2 Rm = (M + 2)%nat) by apply compute_softdtw_shape2.
  assert (Hc : ((w >=? Z.abs (Z.of_nat N - Z.of_nat M))%Z || (w =? 0)%Z)
               = false).
  { apply orb_false_iff. rewrite Z.geb_leb, Z.leb_gt, Z.eqb_neq. lia. }
  split; intros Hlt; unfold _SoftDTW.forward; rewrite Reqb_false by assumption;
    cbn [andb]; fold N M Rm; unfold read_value; rewrite Hc.
  - replace (N <? M)%nat with true by (symmetry; apply Nat.ltb_lt; lia).
    unfold get_cell_py. rewrite H1, H2.
    rewrite (index_or_raise_neg (N + 2) (-2) N) by lia. cbn [bind].
    destruct (w <? - Z.of_nat N)%Z eqn:E.
    + apply Z.ltb_lt in E. rewrite index_or_raise_below by lia. reflexivity.
    + apply Z.ltb_ge in E.
      rewrite (index_or_raise_neg (M + 2) _ (Z.to_nat (Z.of_nat N + w))) by lia.
      reflexivity.
  - replace (N <? M)%nat with false by (symmetry; apply Nat.ltb_ge; lia).
    replace (M <? N)%nat with true by (symmetry; apply Nat.ltb_lt; lia).
    unfold get_cell_py. rewrite H1, H2.
    destruct (w <? - Z.of_nat M)%Z eqn:E.
    + apply Z.ltb_lt in E. rewrite index_or_raise_below by lia. reflexivity.
    + apply Z.ltb_ge in E.
      rewrite (index_or_raise_neg (N + 2) _ (Z.to_nat (Z.of_nat M + w))) by lia.
      cbn [bind].
      rewrite (index_or_raise_neg (M + 2) (-2) M) by lia. reflexivity.
Qed.

Lemma X4_negative_bandwidth_witness :
  (1 : R) <> 0 /\ (-3 < 0)%Z /\
  _SoftDTW.forward (zero_cost 1 2 5) 1 (-3) = Raise IndexError.
Proof.
  assert (Hg : (1 : R) <> 0) by lra.
  split; [exact Hg |]. split; [lia |].
  destruct (X4_negative_bandwidth (zero_cost 1 2 5) 1 (-3) Hg) as [H _];
    [lia |].
  apply H. simpl. lia.
Defined.

(** ** The shape checks of the module *)

(** X5. [SoftDTW.forward] raises [AssertionError] whenever the two inputs
    differ in batch size or in feature dimension, on either backend and
    with or without normalisation, and nothing is printed or computed
    before. *)
Theorem X5_shape_mismatch
        (self : SoftDTW.t) (sch : scheduler) (X Y : tensor3) :
  shape0 X <> shape0 Y \/ shape2 X <> shape2 Y ->
  SoftDTW._get_func_dtw self X Y = Raise AssertionError
  /\ SoftDTW.forward self sch X Y = Raise AssertionError.
Proof.
  intros H.
  assert (HG : SoftDTW._get_func_dtw self X Y = Raise AssertionError).
  { unfold SoftDTW._get_func_dtw.
    destruct (Nat.eq_dec (shape0 X) (shape0 Y)) as [Hb | Hb].
    - rewrite Hb, Nat.eqb_refl. cbn [negb].
      destruct H as [H | H]; [contradiction |].
      apply Nat.eqb_neq in H. now rewrite H.
    - apply Nat.eqb_neq in Hb. now rewrite Hb. }
  split; [exact HG |]. unfold SoftDTW.forward. now rewrite HG.
Qed.

Lemma X5_shape_mismatch_witness :
  (shape0 (zero_cost 2 3 4) <> shape0 (zero_cost 2 5 7)
   \/ shape2 (zero_cost 2 3 4) <> shape2 (zero_cost 2 5 7)) /\
  SoftDTW.forward (SoftDTW.init false 1 true None) in_order
                  (zero_cost 2 3 4) (zero_cost 2 5 7)
  = Raise AssertionError.
Proof.
  assert (H : shape0 (zero_cost 2 3 4) <> shape0 (zero_cost 2 5 7)
              \/ shape2 (zero_cost 2 3 4) <> shape2 (zero_cost 2 5 7)).
  { right. simpl. lia. }
  split; [exact H |].
  exact (proj2 (X5_shape_mismatch (SoftDTW.init false 1 true None) in_order
                  (zero_cost 2 3 4) (zero_cost 2 5 7) H)).
Defined.

(** ** The cost matrix *)

Lemma rbf_sym x y : SoftDTW.rbf x y = SoftDTW.rbf y x.
Proof.
  unfold SoftDTW.rbf. do 3 f_equal.
  destruct x as [a | | |], y as [b | | |]; simpl; try reflexivity.
  f_equal. ring.
Qed.

Lemma rbf_self a : SoftDTW.rbf (Fin a) (Fin a) = Fin 0.
Proof.
  unfold SoftDTW.rbf. simpl. f_equal.
  replace (- (0.5) * ((a + - a) * (a + - a))) with 0 by ring.
  rewrite exp_0. ring.
Qed.

(** X6. The cost matrix is symmetric in its two arguments: for inputs of
    the same feature dimension, the matrix of [(y, x)] is the transpose of
    the matrix of [(x, y)].  This holds for all entries, finite or not. *)
Theorem X6_cost_matrix_symmetric (x y : tensor3) :
  shape0 x = shape0 y -> shape2 x = shape2 y ->
  same_grid (SoftDTW._calc_distance_matrix y x)
            (transpose (SoftDTW._calc_distance_matrix x y)).
Proof.
  intros H0 H2. split.
  - unfold tshape, transpose, SoftDTW._calc_distance_matrix. cbn.
    now rewrite H0.
  - intros b i j _. unfold transpose, SoftDTW._calc_distance_matrix.
    cbn [data]. rewrite H2.
    apply fold_left_agree. intros acc k _. now rewrite rbf_sym.
Qed.

Lemma X6_cost_matrix_symmetric_witness :
  shape0 (zero_cost 1 2 3) = shape0 (zero_cost 1 4 3) /\
  shape2 (zero_cost 1 2 3) = shape2 (zero_cost 1 4 3) /\
  same_grid (SoftDTW._calc_distance_matrix (zero_cost 1 4 3) (zero_cost 1 2 3))
            (transpose (SoftDTW._calc_distance_matrix (zero_cost 1 2 3)
                                                      (zero_cost 1 4 3))).
Proof.
  split; [reflexivity |]. split; [reflexivity |].
  apply (X6_cost_matrix_symmetric (zero_cost 1 2 3) (zero_cost 1 4 3));
    reflexivity.
Defined.

(** X7. The cost of a timestep against itself is exactly 0: for a
    sequence of finite features, the diagonal of its cost matrix against
    itself is zero. *)
Theorem X7_cost_matrix_zero_diagonal (x : tensor3) (b i : nat) :
  finite3 x ->
  data (SoftDTW._calc_distance_matrix x x) b i i = Fin 0.
Proof.
  intros Hx. unfold SoftDTW._calc_distance_matrix. cbn [data].
  change (shape2 x) with (0 + shape2 x)%nat.
  apply (fold_seq_inv _ (fun _ acc => acc = Fin 0)); [reflexivity |].
  intros k acc _ ->.
  pose proof (Hx b i k) as Hk.
  destruct (data x b i k) as [a | | |]; simpl in Hk; try tauto.
  rewrite rbf_self. simpl. f_equal. ring.
Qed.

Lemma X7_cost_matrix_zero_diagonal_witness :
  finite3 (zero_cost 1 3 2) /\
  data (SoftDTW._calc_distance_matrix (zero_cost 1 3 2) (zero_cost 1 3 2)) 0 1 1
  = Fin 0.
Proof.
  assert (H : finite3 (zero_cost 1 3 2)) by apply zero_cost_finite.
  split; [exact H |].
  exact (X7_cost_matrix_zero_diagonal (zero_cost 1 3 2) 0 1 H).
Defined.

(** ** The backward recurrence has one solution *)

Lemma fold_left_preserves {A B : Type} (f : A -> B -> A) (P : A -> Prop) l :
  (forall a x, P a -> P (f a x)) -> forall a, P a -> P (fold_left f l a).
Proof.
  intros Hf. induction l as [| x l IH]; intros a Ha; simpl; auto.
Qed.

Lemma backward_cell_shape D gamma w k j i st :
  tshape (fst (backward_cell D gamma w k j i st)) = tshape (fst st)
  /\ tshape (snd (backward_cell D gamma w k j i st)) = tshape (snd st).
Proof.
  unfold backward_cell.
  destruct (isinf (data (fst st) k i j)), (pruned w i j); split; reflexivity.
Qed.

Lemma backward_loop_shape D gamma w B N M st :
  tshape (fst (backward_loop D gamma w B N M st)) = tshape (fst st)
  /\ tshape (snd (backward_loop D gamma w B N M st)) = tshape (snd st).
Proof.
  unfold backward_loop.
  apply (fold_left_preserves _
           (fun s => tshape (fst s) = tshape (fst st)
                     /\ tshape (snd s) = tshape (snd st)));
    [| split; reflexivity].
  intros s1 k H1. apply fold_left_preserves; [| exact H1].
  intros s2 j H2. apply fold_left_preserves; [| exact H2].
  intros s3 i [H3 H4].
  destruct (backward_cell_shape D gamma w k j i s3) as [-> ->]. now split.
Qed.

Lemma backward_kernel_shape D ig w N M P s st :
  tshape (fst (run_kernel (compute_softdtw_backward_cuda D ig w N M P) s st))
  = tshape (fst st)
  /\ tshape (snd (run_kernel (compute_softdtw_backward_cuda D ig w N M P) s st))
     = tshape (snd st).
Proof.
  unfold run_kernel.
  apply (fold_left_preserves _
           (fun s' => tshape (fst s') = tshape (fst st)
                      /\ tshape (snd s') = tshape (snd st)));
    [| split; reflexivity].
  intros s1 x [H1 H2]. unfold compute_softdtw_backward_cuda.
  repeat match goal with |- context [if ?c then _ else _] => destruct c end;
    cbn [fst snd]; split; assumption.
Qed.

Lemma boundary_R_agree Rm Rc si sj b b' :
  (forall i j, data Rm b i j = data Rc b' i j) ->
  forall i j,
    data (boundary_R Rm si sj) b i j = data (boundary_R Rc si sj) b' i j.
Proof.
  intros H i j. unfold boundary_R. cbn [data tset_cell tset_row tset_col].
  now rewrite !H.
Qed.

Lemma adjoint_sum_agree_gen D D' Rm Rm' E E' gamma k k' i j :
  data Rm k i j = data Rm' k' i j ->
  (forall i' j', successor i j i' j' ->
     data D k i' j' = data D' k' i' j'
     /\ data Rm k i' j' = data Rm' k' i' j'
     /\ data E k i' j' = data E' k' i' j') ->
  adjoint_sum D Rm E gamma k i j = adjoint_sum D' Rm' E' gamma k' i j.
Proof.
  intros H0 Hs. unfold adjoint_sum, adjoint_terms, adjoint_term. cbn [fst snd].
  destruct (Hs (i + 1)%nat j) as (-> & -> & ->); [unfold successor; lia |].
  destruct (Hs i (j + 1)%nat) as (-> & -> & ->); [unfold successor; lia |].
  destruct (Hs (i + 1)%nat (j + 1)%nat) as (-> & -> & ->);
    [unfold successor; lia |].
  now rewrite H0.
Qed.

(** Two final states of the backward recurrence, one read at batch index
    [b] and one at batch index [b'], on inputs that agree there. *)
Section BackwardUnique.
Variables (D D' R1 R1' E1 E1' : tensor3) (gamma : R) (w : Z) (N M B B' : nat).
Variables (st st' : tensor3 * tensor3) (b b' : nat).
Hypothesis b_lt : (b < B)%nat.
Hypothesis b'_lt : (b' < B')%nat.
Hypothesis D_agree : forall i j, data D b i j = data D' b' i j.
Hypothesis R1_agree : forall i j, data R1 b i j = data R1' b' i j.
Hypothesis E1_agree : forall i j, data E1 b i j = data E1' b' i j.
Hypothesis st_inv :
  bwd_inv D R1 E1 gamma w N M (fun k _ _ => (k < B)%nat) st.
Hypothesis st'_inv :
  bwd_inv D' R1' E1' gamma w N M (fun k _ _ => (k < B')%nat) st'.

Lemma final_R_agree i j :
  data (final_R R1 N M) b i j = data (final_R R1' N M) b' i j.
Proof. cbn [final_R data]. now rewrite R1_agree. Qed.

Lemma bwd_R_unique i j : data (fst st) b i j = data (fst st') b' i j.
Proof.
  destruct st_inv as (I1 & I2 & _), st'_inv as (J1 & J2 & _).
  destruct (inner_dec N M i j) as [Hin | Hout].
  - rewrite I1, J1 by assumption. now rewrite R1_agree.
  - rewrite I2, J2 by tauto. now apply R1_agree.
Qed.

Lemma bwd_E_unique :
  forall n i j, (N + M + 2 - (i + j) <= n)%nat ->
                data (snd st) b i j = data (snd st') b' i j.
Proof.
  destruct st_inv as (_ & _ & I3 & I4), st'_inv as (_ & _ & J3 & J4).
  assert (Hrest : forall i j,
             ~ (inner N M i j /\ pruned w i j = false) ->
             data (snd st) b i j = data (snd st') b' i j).
  { intros i j Hn. rewrite I3, J3 by tauto. apply E1_agree. }
  induction n as [| n IH]; intros i j Hn.
  - apply Hrest. unfold inner. lia.
  - destruct (inner_dec N M i j) as [Hin | Hout]; [| apply Hrest; tauto].
    destruct (pruned w i j) eqn:Hp;
      [apply Hrest; intros [_ H]; congruence |].
    rewrite I4, J4 by assumption.
    apply adjoint_sum_agree_gen.
    + now apply final_R_agree.
    + intros i' j' Hs. split; [apply D_agree |].
      split; [now apply final_R_agree |].
      apply IH. unfold successor in Hs. unfold inner in Hin. lia.
Qed.
End BackwardUnique.

(** X8. The two backward passes agree: for [gamma > 0], a non-negative
    bandwidth and every execution order of the launches that respects the
    barrier, the device [forward]/[backward] pair returns the same
    gradient as the sequential pair and leaves the same grid in the
    context. *)
Theorem X8_backward_wavefront_equals_sequential
        (sch : scheduler) (D : tensor3) (gamma : R) (w : Z)
        (grad_output : tensor1) :
  fair sch -> 0 < gamma -> (0 <= w)%Z ->
  exists Vs cs Gs cs' Vc cc Gc cc',
    _SoftDTW.forward D gamma w = Ok (Vs, cs)
    /\ _SoftDTW.backward cs grad_output = Ok (Gs, cs')
    /\ _SoftDTWCUDA.forward sch D gamma w = Ok (Vc, cc)
    /\ _SoftDTWCUDA.backward sch cc grad_output = Ok (Gc, cc')
    /\ same_grid Gs Gc
    /\ same_grid (saved_R cs') (saved_R cc').
Proof.
  intros Hfair Hg Hw.
  assert (Hnz : gamma <> 0) by lra.
  assert (Hw' : (0 <= w)%Z \/ shape1 D = shape2 D) by now left.
  destruct (cuda_forward_terminal sch D gamma w Hw') as [Hs HF].
  set (Rc := run_kernel (compute_softdtw_cuda D gamma w (shape1 D) (shape2 D)) _ _)
    in *.
  set (Rs := compute_softdtw D gamma w).
  unfold tshape in Hs. injection Hs as Hc0 Hc1 Hc2.
  set (si := (fst (terminal_cell (shape1 D) (shape2 D) w) + 1)%nat).
  set (sj := (snd (terminal_cell (shape1 D) (shape2 D) w) + 1)%nat).
  set (E1 := seed_E (shape0 D) (shape1 D) (shape2 D) si sj).
  set (ss := backward_loop (pad D) gamma w (shape0 D) (shape1 D) (shape2 D)
                           (boundary_R Rs si sj, E1)).
  set (sc := run_kernel
               (compute_softdtw_backward_cuda
                  (pad D) (Fin (1 / gamma)) w (shape1 D) (shape2 D)
                  (2 * Nat.max (shape1 D) (shape2 D) - 1)%nat)
               (sch (shape0 D) (Nat.max (shape1 D) (shape2 D))
                    (2 * Nat.max (shape1 D) (shape2 D) - 1)%nat)
               (boundary_R Rc si sj, E1)).
  assert (HR1 : forall b i j, (b < shape0 D)%nat ->
                  data (boundary_R Rs si sj) b i j
                  = data (boundary_R Rc si sj) b i j).
  { intros b i j Hb. apply (boundary_R_agree Rs Rc si sj b b). intros i' j'.
    unfold Rs, Rc. rewrite compute_softdtw_grid by exact Hb.
    symmetry. apply run_kernel_grid; [exact Hg | apply Hfair | exact Hb]. }
  assert (Hss : bwd_inv (pad D) (boundary_R Rs si sj) E1 gamma w
                        (shape1 D) (shape2 D)
                        (fun b _ _ => (b < shape0 D)%nat) ss)
    by apply backward_loop_inv.
  assert (Hsc : bwd_inv (pad D) (boundary_R Rc si sj) E1 gamma w
                        (shape1 D) (shape2 D)
                        (fun b _ _ => (b < shape0 D)%nat) sc)
    by (apply run_backward_kernel_inv; [exact Hg | apply Hfair]).
  destruct (backward_loop_shape (pad D) gamma w (shape0 D) (shape1 D)
              (shape2 D) (boundary_R Rs si sj, E1)) as [HsR HsE].
  destruct (backward_kernel_shape (pad D) (Fin (1 / gamma)) w (shape1 D)
              (shape2 D) (2 * Nat.max (shape1 D) (shape2 D) - 1)%nat
              (sch (shape0 D) (Nat.max (shape1 D) (shape2 D))
                   (2 * Nat.max (shape1 D) (shape2 D) - 1)%nat)
              (boundary_R Rc si sj, E1)) as [HcR HcE].
  fold ss in HsR, HsE. fold sc in HcR, HcE. cbn [fst snd] in HsR, HsE, HcR, HcE.
  exists (tget_cell Rs (fst (terminal_cell (shape1 D) (shape2 D) w))
                    (snd (terminal_cell (shape1 D) (shape2 D) w))),
         (mkCtx D Rs gamma w),
         (scale_by grad_output (interior (snd ss) (shape1 D) (shape2 D))),
         (mkCtx D (fst ss) gamma w).
  do 4 eexists.
  split; [now apply forward_terminal |].
  split; [now apply backward_on_saved |].
  split; [exact HF |].
  split.
  { unfold _SoftDTWCUDA.backward.
    rewrite cuda_backward_grids_eq by assumption.
    cbn [bind saved_D saved_gamma saved_bandwidth]. fold si sj E1 sc.
    reflexivity. }
  split.
  - split.
    + unfold tshape, scale_by, interior. cbn.
      unfold tshape in HsE, HcE.
      injection HsE as A0 _ _. injection HcE as B0 _ _. congruence.
    + intros b i j Hb. cbn [scale_by interior data shape0] in *.
      unfold tshape in HsE. injection HsE as A0 _ _.
      rewrite A0 in Hb. cbn in Hb.
      f_equal.
      apply (bwd_E_unique (pad D) (pad D) (boundary_R Rs si sj)
                          (boundary_R Rc si sj) E1 E1 gamma w
                          (shape1 D) (shape2 D) (shape0 D) (shape0 D) ss sc b b
                          Hb Hb
                          (fun _ _ => eq_refl) (fun i' j' => HR1 b i' j' Hb)
                          (fun _ _ => eq_refl) Hss Hsc
                          (shape1 D + shape2 D + 2 - (i + 1 + (j + 1)))%nat).
      lia.
  - cbn [saved_R]. split.
    + rewrite HsR, HcR. unfold tshape, boundary_R. cbn.
      unfold Rs. rewrite compute_softdtw_shape0, compute_softdtw_shape1,
                 compute_softdtw_shape2. congruence.
    + intros b i j Hb.
      unfold tshape in HsR. injection HsR as A0 _ _.
      rewrite A0 in Hb. cbn in Hb. unfold Rs in Hb.
      rewrite compute_softdtw_shape0 in Hb.
      apply (bwd_R_unique (pad D) (pad D) (boundary_R Rs si sj)
                          (boundary_R Rc si sj) E1 E1 gamma w
                          (shape1 D) (shape2 D) (shape0 D) (shape0 D) ss sc b b
                          Hb Hb (fun i' j' => HR1 b i' j' Hb) Hss Hsc).
Qed.

Lemma X8_backward_wavefront_equals_sequential_witness :
  fair in_order /\ 0 < 1 /\ (0 <= 1)%Z /\
  exists Gs cs' Gc cc',
    _SoftDTW.backward
      (mkCtx (zero_cost 1 2 3) (compute_softdtw (zero_cost 1 2 3) 1 1) 1 1)
      (mkT1 1 (fun _ => Fin 1)) = Ok (Gs, cs')
    /\ same_grid Gs Gc /\ same_grid (saved_R cs') (saved_R cc').
Proof.
  split; [exact in_order_fair |]. split; [lra |]. split; [lia |].
  destruct (X8_backward_wavefront_equals_sequential
              in_order (zero_cost 1 2 3) 1 1 (mkT1 1 (fun _ => Fin 1))
              in_order_fair)
    as (Vs & cs & Gs & cs' & Vc & cc & Gc & cc' & HF & HB & _ & _ & HG & HR);
    [lra | lia |].
  rewrite forward_terminal in HF by (lra || (left; lia)).
  injection HF as _ <-.
  exists Gs, cs', Gc, cc'. split; [exact HB |]. now split.
Defined.

(** ** Batch elements are independent *)

Lemma soft_row_ext D D' gamma w b b' prev prev' i :
  shape1 D = shape1 D' -> shape2 D = shape2 D' ->
  (forall i j, data D b i j = data D' b' i j) ->
  (forall j, prev j = prev' j) ->
  forall j, soft_row D gamma w b prev i j = soft_row D' gamma w b' prev' i j.
Proof.
  intros H1 H2 HD Hprev. induction j as [| j IH]; [reflexivity |].
  cbn [soft_row]. now rewrite H1, H2, HD, !Hprev, IH.
Qed.

Lemma soft_grid_ext D D' gamma w b b' :
  shape1 D = shape1 D' -> shape2 D = shape2 D' ->
  (forall i j, data D b i j = data D' b' i j) ->
  forall i j, soft_grid D gamma w b i j = soft_grid D' gamma w b' i j.
Proof.
  intros H1 H2 HD. induction i as [| i IH]; intros j; [reflexivity |].
  cbn [soft_grid]. now apply soft_row_ext.
Qed.

(** X9. Batch elements do not influence each other: the value, the
    gradient and the final grid that the sequential [forward]/[backward]
    pair computes for element [b] of a batch are those it computes for
    that element alone, as a batch of one. *)
Theorem X9_batch_independence
        (D : tensor3) (gamma : R) (w : Z) (grad_output : tensor1) (b : nat) :
  gamma <> 0 -> (0 <= w)%Z -> (b < shape0 D)%nat ->
  exists V c G c' V1 c1 G1 c1',
    _SoftDTW.forward D gamma w = Ok (V, c)
    /\ _SoftDTW.backward c grad_output = Ok (G, c')
    /\ _SoftDTW.forward (batch_element D b) gamma w = Ok (V1, c1)
    /\ _SoftDTW.backward c1 (mkT1 1 (fun _ => vdata grad_output b))
       = Ok (G1, c1')
    /\ vdata V b = vdata V1 0%nat
    /\ (forall i j, data (saved_R c) b i j = data (saved_R c1) 0%nat i j)
    /\ (forall i j, data G b i j = data G1 0%nat i j)
    /\ (forall i j, data (saved_R c') b i j = data (saved_R c1') 0%nat i j).
Proof.
  intros Hg Hw Hb.
  set (De := batch_element D b).
  assert (Hw' : (0 <= w)%Z \/ shape1 D = shape2 D) by now left.
  assert (Hwe : (0 <= w)%Z \/ shape1 De = shape2 De) by now left.
  assert (Hgrid : forall i j,
             data (compute_softdtw D gamma w) b i j
             = data (compute_softdtw De gamma w) 0%nat i j).
  { intros i j. rewrite !compute_softdtw_grid by (assumption || (simpl; lia)).
    apply soft_grid_ext; reflexivity. }
  do 8 eexists.
  split; [now apply forward_terminal |].
  split; [now apply backward_on_saved |].
  split; [now apply forward_terminal |].
  split; [now apply backward_on_saved |].
  cbn [saved_R vdata tget_cell scale_by interior data].
  change (shape1 De) with (shape1 D). change (shape2 De) with (shape2 D).
  change (shape0 De) with 1%nat.
  set (si := (fst (terminal_cell (shape1 D) (shape2 D) w) + 1)%nat).
  set (sj := (snd (terminal_cell (shape1 D) (shape2 D) w) + 1)%nat).
  set (ss := backward_loop (pad D) gamma w (shape0 D) (shape1 D) (shape2 D) _).
  set (se := backward_loop (pad De) gamma w 1 (shape1 D) (shape2 D) _).
  assert (Hss : bwd_inv (pad D)
                  (boundary_R (compute_softdtw D gamma w) si sj)
                  (seed_E (shape0 D) (shape1 D) (shape2 D) si sj)
                  gamma w (shape1 D) (shape2 D)
                  (fun k _ _ => (k < shape0 D)%nat) ss)
    by apply backward_loop_inv.
  assert (Hse : bwd_inv (pad De)
                  (boundary_R (compute_softdtw De gamma w) si sj)
                  (seed_E 1 (shape1 D) (shape2 D) si sj)
                  gamma w (shape1 D) (shape2 D)
                  (fun k _ _ => (k < 1)%nat) se)
    by apply backward_loop_inv.
  assert (HR1 : forall i j,
             data (boundary_R (compute_softdtw D gamma w) si sj) b i j
             = data (boundary_R (compute_softdtw De gamma w) si sj) 0%nat i j).
  { now apply boundary_R_agree. }
  split; [apply Hgrid |]. split; [exact Hgrid |].
  split.
  - intros i j. f_equal.
    apply (bwd_E_unique (pad D) (pad De)
                        (boundary_R (compute_softdtw D gamma w) si sj)
                        (boundary_R (compute_softdtw De gamma w) si sj)
                        (seed_E (shape0 D) (shape1 D) (shape2 D) si sj)
                        (seed_E 1 (shape1 D) (shape2 D) si sj)
                        gamma w (shape1 D) (shape2 D)
                        (shape0 D) 1 ss se b 0 Hb Nat.lt_0_1
                        (fun _ _ => eq_refl) HR1 (fun _ _ => eq_refl) Hss Hse
                        (shape1 D + shape2 D + 2 - (i + 1 + (j + 1)))%nat).
    lia.
  - intros i j.
    apply (bwd_R_unique (pad D) (pad De)
                        (boundary_R (compute_softdtw D gamma w) si sj)
                        (boundary_R (compute_softdtw De gamma w) si sj)
                        (seed_E (shape0 D) (shape1 D) (shape2 D) si sj)
                        (seed_E 1 (shape1 D) (shape2 D) si sj)
                        gamma w (shape1 D) (shape2 D)
                        (shape0 D) 1 ss se b 0 Hb Nat.lt_0_1 HR1 Hss Hse).
Qed.

Lemma X9_batch_independence_witness :
  (1 : R) <> 0 /\ (0 <= 1)%Z /\ (1 < shape0 (zero_cost 3 2 4))%nat /\
  exists V V1 c1,
    _SoftDTW.forward (batch_element (zero_cost 3 2 4) 1) 1 1 = Ok (V1, c1)
    /\ vdata V 1%nat = vdata V1 0%nat.
Proof.
  assert (Hg : (1 : R) <> 0) by lra.
  split; [exact Hg |]. split; [lia |]. split; [simpl; lia |].
  destruct (X9_batch_independence (zero_cost 3 2 4) 1 1
              (mkT1 3 (fun _ => Fin 1)) 1 Hg)
    as (V & c & G & c' & V1 & c1 & G1 & c1' & _ & _ & HF & _ & HV & _);
    [lia | simpl; lia |].
  exists V, V1, c1. now split.
Defined.

(** ** The gradient on finite costs *)

Lemma data_boundary_R Rm si sj b i j :
  data (boundary_R Rm si sj) b i j
  = if ((i =? si) && (j =? sj))%nat
    then (if (si - 1 =? si)%nat then MInf
          else if (sj - 1 =? sj)%nat then MInf
               else data Rm b (si - 1) (sj - 1))
    else if (i =? si)%nat then MInf
         else if (j =? sj)%nat then MInf else data Rm b i j.
Proof. reflexivity. Qed.

Lemma data_seed_E B N M si sj b i j :
  data (seed_E B N M si sj) b i j
  = if ((i =? si) && (j =? sj))%nat then Fin 1 else Fin 0.
Proof. reflexivity. Qed.

(** The weight of a step, read on values the backward pass meets. *)
Lemma adjoint_weight g xs r d :
  0 < g -> fin_or_minf xs ->
  exists x, eexp (ediv (esub (esub xs (Fin r)) (Fin d)) g) = Fin x /\ 0 <= x.
Proof.
  intros Hg Hx. destruct xs as [a | | |]; simpl in Hx; try tauto; simpl.
  - eexists. split; [reflexivity |]. left. apply exp_pos.
  - rewrite inf_times_pos by assumption. simpl.
    exists 0. split; [reflexivity | lra].
Qed.

Lemma pad_finite D :
  finite3 D -> finite3 (pad D).
Proof.
  intros HD b i j. unfold pad. cbn [data].
  destruct ((1 <=? i)%nat && (i <=? shape1 D)%nat && (1 <=? j)%nat
            && (j <=? shape2 D)%nat); [apply HD | exact I].
Qed.

Section GradientOnFinite.
Variables (D : tensor3) (gamma : R) (w : Z).
Hypothesis gamma_pos : 0 < gamma.
Hypothesis w_nonneg : (0 <= w)%Z.
Hypothesis D_finite : finite3 D.
Let B := shape0 D.
Let N := shape1 D.
Let M := shape2 D.
Let ti := fst (terminal_cell N M w).
Let tj := snd (terminal_cell N M w).
Let si := (ti + 1)%nat.
Let sj := (tj + 1)%nat.

Variable Rm : tensor3.
Hypothesis Rm_grid :
  forall b i j, (b < B)%nat -> data Rm b i j = soft_grid D gamma w b i j.
Let R1 := boundary_R Rm si sj.
Let E1 := seed_E B N M si sj.

Variable st' : tensor3 * tensor3.
Hypothesis st'_inv :
  bwd_inv (pad D) R1 E1 gamma w N M (fun b _ _ => (b < B)%nat) st'.

Let w_ok : (0 <= w)%Z \/ shape1 D = shape2 D := or_introl w_nonneg.

Lemma final_active_fin b i j :
  (b < B)%nat -> inner N M i j -> pruned w i j = false ->
  data (fst st') b i j = soft_grid D gamma w b i j
  /\ is_fin (soft_grid D gamma w b i j).
Proof.
  intros Hb Hin Hp.
  pose proof (soft_grid_active_fin D gamma w b gamma_pos D_finite i j Hin Hp)
    as Hfin.
  split; [| exact Hfin].
  rewrite (R_interior_of_inv D gamma w w_ok Rm Rm_grid st' st'_inv)
    by assumption.
  rewrite Rm_grid by assumption.
  now apply neg_if_inf_not_inf, is_fin_not_inf.
Qed.

Lemma sentinel_value b :
  (b < B)%nat -> (1 <= N)%nat -> (1 <= M)%nat ->
  data (fst st') b si sj = soft_grid D gamma w b ti tj
  /\ is_fin (soft_grid D gamma w b ti tj)
  /\ ~ inner N M si sj.
Proof.
  intros Hb HN HM.
  assert (Hout : ~ inner N M si sj).
  { pose proof (sentinel_on_border N M w w_ok) as H. fold ti tj si sj in H.
    unfold inner. lia. }
  split; [| split; [| exact Hout]].
  - destruct st'_inv as (_ & I2 & _). rewrite I2 by tauto.
    unfold R1. rewrite data_boundary_R, !Nat.eqb_refl. cbn [andb].
    replace (si - 1 =? si)%nat with false
      by (symmetry; apply Nat.eqb_neq; unfold si; lia).
    replace (sj - 1 =? sj)%nat with false
      by (symmetry; apply Nat.eqb_neq; unfold sj; lia).
    replace (si - 1)%nat with ti by (unfold si; lia).
    replace (sj - 1)%nat with tj by (unfold sj; lia).
    now apply Rm_grid.
  - now apply terminal_value_finite.
Qed.

(** What an active cell reads at a successor is a real or [-inf]. *)
Lemma successor_value b i j i' j' :
  (b < B)%nat -> inner N M i j -> pruned w i j = false ->
  successor i j i' j' ->
  fin_or_minf (data (fst st') b i' j').
Proof.
  intros Hb Hin Hp Hs.
  assert (HN : (1 <= N)%nat) by (unfold inner in Hin; lia).
  assert (HM : (1 <= M)%nat) by (unfold inner in Hin; lia).
  destruct (inner_dec N M i' j') as [Hin' | Hout].
  - rewrite (R_interior_of_inv D gamma w w_ok Rm Rm_grid st' st'_inv)
      by assumption.
    rewrite Rm_grid by assumption.
    pose proof (soft_grid_fin_or_pinf D gamma w b gamma_pos D_finite i' j') as H.
    destruct (soft_grid D gamma w b i' j'); simpl in *; tauto.
  - destruct (Nat.eq_dec i' si) as [Hi | Hi];
      [destruct (Nat.eq_dec j' sj) as [Hj | Hj] |].
    + subst i' j'. destruct (sentinel_value b Hb HN HM) as (-> & Hf & _).
      destruct (soft_grid D gamma w b ti tj); simpl in *; tauto.
    + destruct st'_inv as (_ & I2 & _). rewrite I2 by tauto.
      unfold R1. rewrite data_boundary_R.
      apply Nat.eqb_eq in Hi. apply Nat.eqb_neq in Hj.
      rewrite Hi, Hj. exact I.
    + destruct (Nat.eq_dec j' sj) as [Hj | Hj].
      * destruct st'_inv as (_ & I2 & _). rewrite I2 by tauto.
        unfold R1. rewrite data_boundary_R.
        apply Nat.eqb_neq in Hi. apply Nat.eqb_eq in Hj.
        rewrite Hi, Hj. exact I.
      * exfalso. apply pruned_false in Hp.
        unfold inner in Hin, Hout. unfold successor in Hs.
        unfold si, sj, ti, tj in Hi, Hj.
        destruct (terminal_cell_cases N M w w_ok)
          as [E | [(H1 & H2 & E) | (H1 & H2 & E)]];
          rewrite E in Hi, Hj; cbn [fst snd] in Hi, Hj; lia.
Qed.

Lemma adjoint_term_nonneg b i j i' j' :
  (b < B)%nat -> inner N M i j -> pruned w i j = false ->
  successor i j i' j' ->
  forall e, data (snd st') b i' j' = Fin e ->
  exists x, adjoint_term (pad D) (fst st') (snd st') gamma b i j i' j'
            = Fin (e * x) /\ 0 <= x.
Proof.
  intros Hb Hin Hp Hs e He. unfold adjoint_term. rewrite He.
  destruct (final_active_fin b i j Hb Hin Hp) as [-> Hf].
  pose proof (pad_finite D D_finite b i' j') as Hd.
  pose proof (successor_value b i j i' j' Hb Hin Hp Hs) as Hx.
  destruct (soft_grid D gamma w b i j) as [r | | |]; simpl in Hf; try tauto.
  destruct (data (pad D) b i' j') as [d | | |]; simpl in Hd; try tauto.
  destruct (adjoint_weight gamma _ r d gamma_pos Hx) as [x [-> Hx0]].
  exists x. split; [reflexivity | exact Hx0].
Qed.

(** Every entry of the adjoint grid is a non-negative real. *)
Lemma adjoint_grid_nonneg b :
  (b < B)%nat ->
  forall n i j, (N + M + 2 - (i + j) <= n)%nat ->
                nonneg_fin (data (snd st') b i j).
Proof.
  intros Hb.
  assert (Hrest : forall i j,
             ~ (inner N M i j /\ pruned w i j = false) ->
             nonneg_fin (data (snd st') b i j)).
  { intros i j Hn. destruct st'_inv as (_ & _ & I3 & _).
    rewrite I3 by tauto. unfold E1. rewrite data_seed_E.
    destruct ((i =? si) && (j =? sj))%nat; simpl; lra. }
  induction n as [| n IH]; intros i j Hn.
  - apply Hrest. unfold inner. lia.
  - destruct (inner_dec N M i j) as [Hin | Hout]; [| apply Hrest; tauto].
    destruct (pruned w i j) eqn:Hp;
      [apply Hrest; intros [_ H]; congruence |].
    rewrite (E_active_of_inv D gamma w w_ok Rm st' st'_inv) by assumption.
    unfold adjoint_sum, adjoint_terms. cbn [fst snd].
    assert (Hterm : forall i' j', successor i j i' j' ->
               nonneg_fin (adjoint_term (pad D) (fst st') (snd st') gamma
                                        b i j i' j')).
    { intros i' j' Hs.
      assert (He : nonneg_fin (data (snd st') b i' j')).
      { apply IH. unfold successor in Hs. unfold inner in Hin. lia. }
      destruct (data (snd st') b i' j') as [e | | |] eqn:Ee; simpl in He;
        try tauto.
      destruct (adjoint_term_nonneg b i j i' j' Hb Hin Hp Hs e Ee)
        as [x [-> Hx]].
      simpl. nra. }
    pose proof (Hterm (i + 1)%nat j) as T1.
    pose proof (Hterm i (j + 1)%nat) as T2.
    pose proof (Hterm (i + 1)%nat (j + 1)%nat) as T3.
    destruct (adjoint_term _ _ _ _ b i j (i + 1) j);
      try (exfalso; apply T1; unfold successor; lia).
    destruct (adjoint_term _ _ _ _ b i j i (j + 1));
      try (exfalso; apply T2; unfold successor; lia).
    destruct (adjoint_term _ _ _ _ b i j (i + 1) (j + 1));
      try (exfalso; apply T3; unfold successor; lia).
    simpl in *.
    assert (0 <= r) by (apply T1; unfold successor; lia).
    assert (0 <= r0) by (apply T2; unfold successor; lia).
    assert (0 <= r1) by (apply T3; unfold successor; lia).
    lra.
Qed.

(** The adjoint of the terminal cell is exactly 1. *)
Lemma adjoint_terminal_one b :
  (b < B)%nat -> (1 <= N)%nat -> (1 <= M)%nat ->
  data (snd st') b ti tj = Fin 1.
Proof.
  intros Hb HN HM.
  destruct (terminal_cell_active N M w HN HM w_nonneg) as [Hin Hp].
  fold ti tj in Hin, Hp.
  rewrite (E_active_of_inv D gamma w w_ok Rm st' st'_inv) by assumption.
  unfold adjoint_sum, adjoint_terms. cbn [fst snd].
  assert (Hzero : forall i' j',
             successor ti tj i' j' -> (i', j') <> (si, sj) ->
             data (snd st') b i' j' = Fin 0).
  { intros i' j' Hs Hne.
    destruct (inner_dec N M i' j') as [Hin' | Hout].
    - apply (E_pruned_of_inv D gamma w w_ok Rm st' st'_inv); [exact Hin' |].
      apply (sentinel_line_pruned N M w i' j' w_ok Hin').
      fold ti tj. unfold successor in Hs. lia.
    - destruct st'_inv as (_ & _ & I3 & _). rewrite I3 by tauto.
      unfold E1. rewrite data_seed_E.
      replace ((i' =? si) && (j' =? sj))%nat with false; [reflexivity |].
      symmetry. apply andb_false_iff. rewrite !Nat.eqb_neq.
      destruct (Nat.eq_dec i' si), (Nat.eq_dec j' sj); subst; tauto. }
  assert (Hz : forall i' j',
             successor ti tj i' j' -> (i', j') <> (si, sj) ->
             adjoint_term (pad D) (fst st') (snd st') gamma b ti tj i' j'
             = Fin 0).
  { intros i' j' Hs Hne.
    destruct (adjoint_term_nonneg b ti tj i' j' Hb Hin Hp Hs 0
                (Hzero i' j' Hs Hne)) as [x [-> _]].
    f_equal. ring. }
  rewrite (Hz (ti + 1)%nat tj);
    [| unfold successor; lia | unfold si, sj; intros H; inversion H; lia].
  rewrite (Hz ti (tj + 1)%nat);
    [| unfold successor; lia | unfold si, sj; intros H; inversion H; lia].
  fold si sj. unfold adjoint_term.
  destruct (sentinel_value b Hb HN HM) as (-> & Hf & Hout).
  destruct (final_active_fin b ti tj Hb Hin Hp) as [-> _].
  destruct st'_inv as (_ & _ & I3 & _). rewrite I3 by tauto.
  unfold E1. rewrite data_seed_E, !Nat.eqb_refl. cbn [andb].
  assert (Hd : data (pad D) b si sj = Fin 0).
  { unfold pad. cbn [data]. fold N M.
    destruct ((1 <=? si)%nat && (si <=? N)%nat && (1 <=? sj)%nat
              && (sj <=? M)%nat) eqn:E; [| reflexivity].
    exfalso. apply Hout. rewrite !andb_true_iff, !Nat.leb_le in E.
    unfold inner. lia. }
  rewrite Hd.
  destruct (soft_grid D gamma w b ti tj) as [r | | |]; simpl in Hf; try tauto.
  simpl. f_equal.
  replace ((r + - r + - 0) / gamma) with 0 by (field; lra).
  rewrite exp_0. ring.
Qed.
End GradientOnFinite.

(** The final state of each backward pass on its own forward grid. *)
Lemma sequential_backward_state D gamma w :
  gamma <> 0 -> (0 <= w)%Z \/ shape1 D = shape2 D ->
  let N := shape1 D in
  let M := shape2 D in
  let Rm := compute_softdtw D gamma w in
  exists st',
    compute_softdtw_backward D Rm gamma w
    = Ok (interior (snd st') N M, fst st')
    /\ (forall b i j, (b < shape0 D)%nat ->
                      data Rm b i j = soft_grid D gamma w b i j)
    /\ bwd_inv (pad D)
               (boundary_R Rm (fst (terminal_cell N M w) + 1)
                           (snd (terminal_cell N M w) + 1))
               (seed_E (shape0 D) N M (fst (terminal_cell N M w) + 1)
                       (snd (terminal_cell N M w) + 1))
               gamma w N M (fun b _ _ => (b < shape0 D)%nat) st'.
Proof.
  intros Hg Hw N M Rm. eexists.
  split; [now apply compute_softdtw_backward_eq |].
  split; [intros b i j Hb; now apply compute_softdtw_grid |].
  apply backward_loop_inv.
Qed.

Lemma device_backward_state sch D gamma w :
  fair sch -> 0 < gamma -> (0 <= w)%Z \/ shape1 D = shape2 D ->
  let N := shape1 D in
  let M := shape2 D in
  exists V c st',
    _SoftDTWCUDA.forward sch D gamma w = Ok (V, c)
    /\ _SoftDTWCUDA.backward_grids sch c = Ok st'
    /\ (forall b i j, (b < shape0 D)%nat ->
                      data (saved_R c) b i j = soft_grid D gamma w b i j)
    /\ bwd_inv (pad D)
               (boundary_R (saved_R c) (fst (terminal_cell N M w) + 1)
                           (snd (terminal_cell N M w) + 1))
               (seed_E (shape0 D) N M (fst (terminal_cell N M w) + 1)
                       (snd (terminal_cell N M w) + 1))
               gamma w N M (fun b _ _ => (b < shape0 D)%nat) st'.
Proof.
  intros Hfair Hg Hw N M.
  destruct (cuda_forward_terminal sch D gamma w Hw) as [Hs HF].
  unfold tshape in Hs. injection Hs as H0 H1 H2.
  do 3 eexists. split; [exact HF |].
  split; [now apply cuda_backward_grids_eq |].
  cbn [saved_R]. split.
  - intros b i j Hb. apply run_kernel_grid; [exact Hg | apply Hfair | exact Hb].
  - apply run_backward_kernel_inv; [exact Hg | apply Hfair].
Qed.

(** X10. With finite costs, [gamma > 0] and a non-negative bandwidth,
    every entry of the gradient (the adjoint grid [E]) computed by the
    backward pass is a non-negative real, on the sequential backend and,
    under every fair scheduler, on the device. *)
Theorem X10_gradient_nonnegative (D : tensor3) (gamma : R) (w : Z) :
  0 < gamma -> (0 <= w)%Z -> finite3 D ->
  (exists G Rf,
      compute_softdtw_backward D (compute_softdtw D gamma w) gamma w
      = Ok (G, Rf)
      /\ forall b i j, (b < shape0 D)%nat -> nonneg_fin (data G b i j))
  /\ (forall sch, fair sch ->
      exists V c Rf Ef,
        _SoftDTWCUDA.forward sch D gamma w = Ok (V, c)
        /\ _SoftDTWCUDA.backward_grids sch c = Ok (Rf, Ef)
        /\ forall b i j, (b < shape0 D)%nat -> nonneg_fin (data Ef b i j)).
Proof.
  intros Hg Hw HD.
  assert (Hnz : gamma <> 0) by lra.
  split.
  - destruct (sequential_backward_state D gamma w Hnz (or_introl Hw))
      as (st' & HB & Hgrid & Hinv).
    do 2 eexists. split; [exact HB |].
    intros b i j Hb. cbn [interior data].
    apply (adjoint_grid_nonneg D gamma w Hg Hw HD _ Hgrid st' Hinv b Hb
             (shape1 D + shape2 D + 2 - (i + 1 + (j + 1)))%nat).
    lia.
  - intros sch Hfair.
    destruct (device_backward_state sch D gamma w Hfair Hg (or_introl Hw))
      as (V & c & st' & HF & HB & Hgrid & Hinv).
    exists V, c, (fst st'), (snd st').
    split; [exact HF |]. split; [now rewrite <- surjective_pairing |].
    intros b i j Hb.
    apply (adjoint_grid_nonneg D gamma w Hg Hw HD _ Hgrid st' Hinv b Hb
             (shape1 D + shape2 D + 2 - (i + j))%nat).
    lia.
Qed.

Lemma X10_gradient_nonnegative_witness :
  0 < 1 /\ (0 <= 1)%Z /\ finite3 (zero_cost 1 3 4) /\
  exists G Rf,
    compute_softdtw_backward (zero_cost 1 3 4)
                             (compute_softdtw (zero_cost 1 3 4) 1 1) 1 1
    = Ok (G, Rf)
    /\ nonneg_fin (data G 0 1 2).
Proof.
  split; [lra |]. split; [lia |]. split; [apply zero_cost_finite |].
  destruct (X10_gradient_nonnegative (zero_cost 1 3 4) 1 1)
    as [(G & Rf & HB & H) _]; [lra | lia | apply zero_cost_finite |].
  exists G, Rf. split; [exact HB |]. apply H. simpl. lia.
Defined.

(** X11. With finite costs, [gamma > 0], a non-negative bandwidth and at
    least one timestep in each sequence, the gradient at the terminal
    cell is exactly 1 for every batch element, on both backends. *)
Theorem X11_gradient_at_terminal_cell (D : tensor3) (gamma : R) (w : Z) :
  0 < gamma -> (0 <= w)%Z -> finite3 D ->
  (1 <= shape1 D)%nat -> (1 <= shape2 D)%nat ->
  let ti := fst (terminal_cell (shape1 D) (shape2 D) w) in
  let tj := snd (terminal_cell (shape1 D) (shape2 D) w) in
  (exists G Rf,
      compute_softdtw_backward D (compute_softdtw D gamma w) gamma w
      = Ok (G, Rf)
      /\ forall b, (b < shape0 D)%nat ->
                   data G b (ti - 1) (tj - 1) = Fin 1)
  /\ (forall sch, fair sch ->
      exists V c Rf Ef,
        _SoftDTWCUDA.forward sch D gamma w = Ok (V, c)
        /\ _SoftDTWCUDA.backward_grids sch c = Ok (Rf, Ef)
        /\ forall b, (b < shape0 D)%nat -> data Ef b ti tj = Fin 1).
Proof.
  intros Hg Hw HD HN HM ti tj.
  assert (Hnz : gamma <> 0) by lra.
  destruct (terminal_cell_active (shape1 D) (shape2 D) w HN HM Hw) as [Hin _].
  fold ti tj in Hin. unfold inner in Hin.
  split.
  - destruct (sequential_backward_state D gamma w Hnz (or_introl Hw))
      as (st' & HB & Hgrid & Hinv).
    do 2 eexists. split; [exact HB |].
    intros b Hb. cbn [interior data].
    replace (ti - 1 + 1)%nat with ti by lia.
    replace (tj - 1 + 1)%nat with tj by lia.
    now apply (adjoint_terminal_one D gamma w Hg Hw HD _ Hgrid st' Hinv).
  - intros sch Hfair.
    destruct (device_backward_state sch D gamma w Hfair Hg (or_introl Hw))
      as (V & c & st' & HF & HB & Hgrid & Hinv).
    exists V, c, (fst st'), (snd st').
    split; [exact HF |]. split; [now rewrite <- surjective_pairing |].
    intros b Hb.
    now apply (adjoint_terminal_one D gamma w Hg Hw HD _ Hgrid st' Hinv).
Qed.

Lemma X11_gradient_at_terminal_cell_witness :
  0 < 1 /\ (0 <= 1)%Z /\ finite3 (zero_cost 1 3 5) /\
  exists G Rf,
    compute_softdtw_backward (zero_cost 1 3 5)
                             (compute_softdtw (zero_cost 1 3 5) 1 1) 1 1
    = Ok (G, Rf)
    /\ data G 0 2 3 = Fin 1.
Proof.
  split; [lra |]. split; [lia |]. split; [apply zero_cost_finite |].
  destruct (X11_gradient_at_terminal_cell (zero_cost 1 3 5) 1 1)
    as [(G & Rf & HB & H) _];
    [lra | lia | apply zero_cost_finite | simpl; lia | simpl; lia |].
  exists G, Rf. split; [exact HB |]. apply (H 0%nat). simpl. lia.
Defined.

(** ** The soft minimum against the hard minimum *)

Lemma ln_le_mono x y : 0 < x -> x <= y -> ln x <= ln y.
Proof.
  intros Hx [Hlt | ->]; [left; now apply ln_increasing | lra].
Qed.

Lemma exp_le_mono x y : x <= y -> exp x <= exp y.
Proof.
  intros [Hlt | ->]; [left; now apply exp_increasing | lra].
Qed.

Lemma weight_upper g x m :
  0 < g -> fin_or_pinf x -> (forall a, x = Fin a -> m <= a) ->
  weight g x <= exp (- m / g).
Proof.
  intros Hg Hx Hm. destruct x as [a | | |]; simpl in *; try tauto.
  - apply exp_le_mono. specialize (Hm a eq_refl).
    unfold Rdiv. apply Rmult_le_compat_r; [| lra].
    left. now apply Rinv_0_lt_compat.
  - left. apply exp_pos.
Qed.

Lemma div_mul_cancel g x : 0 < g -> g * (x / g) = x.
Proof. intros Hg. field. lra. Qed.

(** X12. With finite costs and [gamma > 0], the value the forward pass
    stores in an active cell is at most the cost plus any finite
    predecessor, and at least the cost plus any lower bound of the finite
    predecessors minus [gamma * ln 3]: the soft minimum is within
    [gamma * ln 3] below the hard minimum. *)
Theorem X12_soft_minimum_bounds
        (D : tensor3) (gamma : R) (w : Z) (b i j : nat) :
  0 < gamma -> finite3 D ->
  (b < shape0 D)%nat -> inner (shape1 D) (shape2 D) i j ->
  pruned w i j = false ->
  let Rm := compute_softdtw D gamma w in
  exists r d,
    data Rm b i j = Fin r
    /\ data D b (i - 1) (j - 1) = Fin d
    /\ (forall i' j' x, predecessor i j i' j' -> data Rm b i' j' = Fin x ->
                        r <= d + x)
    /\ (forall m,
           (forall i' j' x, predecessor i j i' j' ->
                            data Rm b i' j' = Fin x -> m <= x) ->
           d + m - gamma * ln 3 <= r).
Proof.
  intros Hg HD Hb Hin Hp Rm.
  pose proof (HD b (i - 1) (j - 1))%nat as Hd.
  destruct (data D b (i - 1) (j - 1)) as [d | | |] eqn:Ed; simpl in Hd;
    try tauto.
  set (x0 := soft_grid D gamma w b (i - 1) (j - 1)).
  set (x1 := soft_grid D gamma w b (i - 1) j).
  set (x2 := soft_grid D gamma w b i (j - 1)).
  assert (Hval := soft_grid_active_value D gamma w b Hg HD i j d Hin Hp Ed).
  fold x0 x1 x2 in Hval.
  assert (H0 : fin_or_pinf x0) by now apply soft_grid_fin_or_pinf.
  assert (H1 : fin_or_pinf x1) by now apply soft_grid_fin_or_pinf.
  assert (H2 : fin_or_pinf x2) by now apply soft_grid_fin_or_pinf.
  assert (Hpos : 0 < weight gamma x0 + weight gamma x1 + weight gamma x2).
  { apply weights_pos. now apply soft_grid_pred_fin. }
  pose proof (weight_nonneg gamma x0) as N0.
  pose proof (weight_nonneg gamma x1) as N1.
  pose proof (weight_nonneg gamma x2) as N2.
  set (W := weight gamma x0 + weight gamma x1 + weight gamma x2) in *.
  assert (Hpred : forall i' j', predecessor i j i' j' ->
             data Rm b i' j' = x0 \/ data Rm b i' j' = x1
             \/ data Rm b i' j' = x2).
  { intros i' j' [[-> ->] | [[-> ->] | [-> ->]]]; unfold Rm;
      rewrite compute_softdtw_grid by assumption; tauto. }
  exists (d + - gamma * ln W), d.
  split; [unfold Rm; now rewrite compute_softdtw_grid |].
  split; [reflexivity |]. split.
  - intros i' j' x Hpr Hx.
    assert (Hw : exp (- x / gamma) <= W).
    { destruct (Hpred i' j' Hpr) as [E | [E | E]]; rewrite E in Hx;
        unfold W; rewrite Hx in *; simpl; simpl in N0, N1, N2; lra. }
    assert (Hl : - x / gamma <= ln W).
    { rewrite <- (ln_exp (- x / gamma)). apply ln_le_mono; [apply exp_pos | exact Hw]. }
    assert (Hm : gamma * (- x / gamma) <= gamma * ln W)
      by (apply Rmult_le_compat_l; lra).
    rewrite div_mul_cancel in Hm by assumption. lra.
  - intros m Hm.
    assert (Hle : forall x, fin_or_pinf x ->
               (x = x0 \/ x = x1 \/ x = x2) ->
               weight gamma x <= exp (- m / gamma)).
    { intros x Hx Hc. apply weight_upper; try assumption.
      intros a Ha. subst x.
      destruct Hc as [E | [E | E]].
      - apply (Hm (i - 1) (j - 1))%nat; [left; tauto |].
        unfold Rm. rewrite compute_softdtw_grid by assumption.
        fold x0. now rewrite <- E.
      - apply (Hm (i - 1)%nat j); [right; left; tauto |].
        unfold Rm. rewrite compute_softdtw_grid by assumption.
        fold x1. now rewrite <- E.
      - apply (Hm i (j - 1)%nat); [right; right; tauto |].
        unfold Rm. rewrite compute_softdtw_grid by assumption.
        fold x2. now rewrite <- E. }
    pose proof (Hle x0 H0 (or_introl eq_refl)) as L0.
    pose proof (Hle x1 H1 (or_intror (or_introl eq_refl))) as L1.
    pose proof (Hle x2 H2 (or_intror (or_intror eq_refl))) as L2.
    pose proof (exp_pos (- m / gamma)) as He.
    assert (HW : W <= 3 * exp (- m / gamma)) by (unfold W; lra).
    assert (Hl : ln W <= ln 3 + - m / gamma).
    { rewrite <- (ln_exp (- m / gamma)).
      rewrite <- ln_mult by lra. apply ln_le_mono; assumption. }
    assert (Hg' : gamma * ln W <= gamma * (ln 3 + - m / gamma))
      by (apply Rmult_le_compat_l; lra).
    rewrite Rmult_plus_distr_l, div_mul_cancel in Hg' by assumption. lra.
Qed.

Lemma X12_soft_minimum_bounds_witness :
  0 < 1 /\ finite3 (zero_cost 1 2 2) /\ (0 < shape0 (zero_cost 1 2 2))%nat /\
  inner 2 2 2 2 /\ pruned 0 2 2 = false /\
  exists r, data (compute_softdtw (zero_cost 1 2 2) 1 0) 0 2 2 = Fin r.
Proof.
  assert (Hin : inner 2 2 2 2) by (unfold inner; lia).
  split; [lra |]. split; [apply zero_cost_finite |]. split; [simpl; lia |].
  split; [exact Hin |]. split; [reflexivity |].
  destruct (X12_soft_minimum_bounds (zero_cost 1 2 2) 1 0 0 2 2)
    as (r & d & H & _);
    [lra | apply zero_cost_finite | simpl; lia | exact Hin | reflexivity |].
  exists r. exact H.
Defined.

(** ** Larger costs, larger value *)

Lemma weight_antitone g r r' :
  0 < g -> r <= r' -> weight g (Fin r') <= weight g (Fin r).
Proof.
  intros Hg Hr. simpl. apply exp_le_mono.
  unfold Rdiv. apply Rmult_le_compat_r; [| lra].
  left. now apply Rinv_0_lt_compat.
Qed.

Section CostMonotone.
Variables (D D' : tensor3) (gamma : R) (w : Z) (b : nat).
Hypothesis gamma_pos : 0 < gamma.
Hypothesis D_finite : finite3 D.
Hypothesis D'_finite : finite3 D'.
Hypothesis shape1_eq : shape1 D = shape1 D'.
Hypothesis shape2_eq : shape2 D = shape2 D'.
Hypothesis D_le : forall i j, ele (data D b i j) (data D' b i j).

Lemma soft_grid_mono n :
  forall i j, (i + j <= n)%nat ->
    (soft_grid D gamma w b i j = PInf /\ soft_grid D' gamma w b i j = PInf)
    \/ exists r r',
        soft_grid D gamma w b i j = Fin r
        /\ soft_grid D' gamma w b i j = Fin r' /\ r <= r'.
Proof.
  induction n as [| n IH]; intros i j Hn.
  - assert (i = 0 /\ j = 0)%nat as [-> ->] by lia.
    right. exists 0, 0. repeat split; lra.
  - destruct (inner_dec (shape1 D) (shape2 D) i j) as [Hin | Hout].
    2:{ destruct i as [| i]; [destruct j as [| j] |].
        - right. exists 0, 0. repeat split; lra.
        - left. split; reflexivity.
        - left. split; apply soft_grid_outer; congruence. }
    destruct (pruned w i j) eqn:Hp.
    { left. split; now apply soft_grid_pruned. }
    assert (Hin' : inner (shape1 D') (shape2 D') i j)
      by now rewrite <- shape1_eq, <- shape2_eq.
    pose proof (D_finite b (i - 1) (j - 1))%nat as Hd.
    pose proof (D'_finite b (i - 1) (j - 1))%nat as Hd'.
    pose proof (D_le (i - 1) (j - 1))%nat as Hle.
    destruct (data D b (i - 1) (j - 1)) as [d | | |] eqn:Ed; simpl in Hd;
      try tauto.
    destruct (data D' b (i - 1) (j - 1)) as [d' | | |] eqn:Ed'; simpl in Hd';
      try tauto.
    simpl in Hle.
    right.
    rewrite (soft_grid_active_value D gamma w b gamma_pos D_finite i j d
                                    Hin Hp Ed).
    rewrite (soft_grid_active_value D' gamma w b gamma_pos D'_finite i j d'
                                    Hin' Hp Ed').
    do 2 eexists. split; [reflexivity |]. split; [reflexivity |].
    assert (Hw : forall i' j', (i' + j' <= n)%nat ->
               weight gamma (soft_grid D' gamma w b i' j')
               <= weight gamma (soft_grid D gamma w b i' j')).
    { intros i' j' Hn'.
      destruct (IH i' j' Hn') as [[-> ->] | (r & r' & -> & -> & Hr)].
      - simpl. lra.
      - now apply weight_antitone. }
    unfold inner in Hin.
    assert (W0 := Hw (i - 1)%nat (j - 1)%nat ltac:(lia)).
    assert (W1 := Hw (i - 1)%nat j ltac:(lia)).
    assert (W2 := Hw i (j - 1)%nat ltac:(lia)).
    assert (Hpos' : 0 < weight gamma (soft_grid D' gamma w b (i - 1) (j - 1))
                        + weight gamma (soft_grid D' gamma w b (i - 1) j)
                        + weight gamma (soft_grid D' gamma w b i (j - 1))).
    { apply weights_pos. now apply soft_grid_pred_fin. }
    set (W := weight gamma (soft_grid D' gamma w b (i - 1) (j - 1)) + _ + _)
      in *.
    set (V := weight gamma (soft_grid D gamma w b (i - 1) (j - 1)) + _ + _).
    assert (HWV : W <= V) by (unfold W, V; lra).
    pose proof (ln_le_mono W V Hpos' HWV) as Hl.
    assert (gamma * ln W <= gamma * ln V)
      by (apply Rmult_le_compat_l; lra).
    lra.
Qed.

Lemma align_value_mono :
  ele (align_value D gamma w b) (align_value D' gamma w b).
Proof.
  unfold align_value. rewrite <- shape1_eq, <- shape2_eq.
  set (ti := fst _). set (tj := snd _).
  destruct (soft_grid_mono (ti + tj) ti tj (le_n _))
    as [[-> ->] | (r & r' & -> & -> & Hr)]; simpl; tauto.
Qed.
End CostMonotone.

(** X13. Larger costs give a larger value: for two batches of finite
    cost matrices of the same shape, the first entrywise at most the
    second, the value of every batch element for the first is at most the
    value for the second, on both backends ([gamma > 0], non-negative
    bandwidth). *)
Theorem X13_value_monotone_in_cost
        (f : SoftDTW.func_dtw) (sch : scheduler)
        (D D' : tensor3) (gamma : R) (w : Z) :
  fair sch -> 0 < gamma -> (0 <= w)%Z ->
  finite3 D -> finite3 D' -> tshape D = tshape D' ->
  (forall b i j, ele (data D b i j) (data D' b i j)) ->
  exists V V',
    SoftDTW.apply f sch D gamma w = Ok V
    /\ SoftDTW.apply f sch D' gamma w = Ok V'
    /\ forall b, (b < shape0 D)%nat -> ele (vdata V b) (vdata V' b).
Proof.
  intros Hfair Hg Hw HD HD' Hs Hle.
  unfold tshape in Hs. injection Hs as H0 H1 H2.
  destruct (apply_value f sch D gamma w Hfair Hg (or_introl Hw))
    as (V & HV & _ & Hval).
  destruct (apply_value f sch D' gamma w Hfair Hg (or_introl Hw))
    as (V' & HV' & _ & Hval').
  exists V, V'. split; [exact HV |]. split; [exact HV' |].
  intros b Hb. rewrite Hval by exact Hb.
  rewrite Hval' by (rewrite <- H0; exact Hb).
  now apply (align_value_mono D D' gamma w b).
Qed.

Lemma X13_value_monotone_in_cost_witness :
  fair in_order /\ 0 < 1 /\ (0 <= 0)%Z /\
  finite3 (zero_cost 1 2 2) /\ finite3 (full 1 2 2 (Fin 1)) /\
  exists V V',
    SoftDTW.apply SoftDTW.SoftDTW_apply in_order (zero_cost 1 2 2) 1 0 = Ok V
    /\ SoftDTW.apply SoftDTW.SoftDTW_apply in_order (full 1 2 2 (Fin 1)) 1 0
       = Ok V'
    /\ forall b, (b < 1)%nat -> ele (vdata V b) (vdata V' b).
Proof.
  assert (H1 : finite3 (zero_cost 1 2 2)) by apply zero_cost_finite.
  assert (H2 : finite3 (full 1 2 2 (Fin 1))) by (intros b i j; exact I).
  split; [exact in_order_fair |]. split; [lra |]. split; [lia |].
  split; [exact H1 |]. split; [exact H2 |].
  apply (X13_value_monotone_in_cost SoftDTW.SoftDTW_apply in_order
           (zero_cost 1 2 2) (full 1 2 2 (Fin 1)) 1 0 in_order_fair);
    [lra | lia | exact H1 | exact H2 | reflexivity |].
  intros b i j. simpl. lra.
Defined.

(** ** Transposing the cost matrix *)

Lemma pruned_sym w i j : pruned w j i = pruned w i j.
Proof.
  unfold pruned.
  now replace (Z.abs (Z.of_nat j - Z.of_nat i))
    with (Z.abs (Z.of_nat i - Z.of_nat j)) by lia.
Qed.

Lemma terminal_cell_swap N M w :
  terminal_cell M N w
  = (snd (terminal_cell N M w), fst (terminal_cell N M w)).
Proof.
  unfold terminal_cell.
  rewrite (Nat.eqb_sym M N).
  replace (Z.abs (Z.of_nat M - Z.of_nat N))
    with (Z.abs (Z.of_nat N - Z.of_nat M)) by lia.
  destruct ((N =? M)%nat || (w =? 0)%Z
            || (w >=? Z.abs (Z.of_nat N - Z.of_nat M))%Z) eqn:Ec;
    [reflexivity |].
  rewrite !orb_false_iff in Ec. destruct Ec as [[Ec _] _].
  apply Nat.eqb_neq in Ec.
  destruct (Nat.lt_total N M) as [H | [H | H]]; [| contradiction |].
  - replace (N <? M)%nat with true by (symmetry; apply Nat.ltb_lt; lia).
    replace (M <? N)%nat with false by (symmetry; apply Nat.ltb_ge; lia).
    reflexivity.
  - replace (N <? M)%nat with false by (symmetry; apply Nat.ltb_ge; lia).
    replace (M <? N)%nat with true by (symmetry; apply Nat.ltb_lt; lia).
    reflexivity.
Qed.

Section Transposed.
Variables (D : tensor3) (gamma : R) (w : Z) (b : nat).
Hypothesis gamma_pos : 0 < gamma.
Hypothesis D_finite : finite3 D.

Lemma transpose_finite : finite3 (transpose D).
Proof. intros b' i j. apply D_finite. Qed.

Lemma soft_grid_transpose n :
  forall i j, (i + j <= n)%nat ->
    soft_grid (transpose D) gamma w b j i = soft_grid D gamma w b i j.
Proof.
  induction n as [| n IH]; intros i j Hn.
  - assert (i = 0 /\ j = 0)%nat as [-> ->] by lia. reflexivity.
  - destruct (inner_dec (shape1 D) (shape2 D) i j) as [Hin | Hout].
    2:{ destruct i as [| i]; [destruct j as [| j] |]; try reflexivity.
        destruct j as [| j]; [reflexivity |].
        rewrite (soft_grid_outer D) by (assumption || congruence).
        apply soft_grid_outer; [| intros H; inversion H].
        cbn [transpose shape1 shape2]. unfold inner in *. lia. }
    destruct (pruned w i j) eqn:Hp.
    { rewrite (soft_grid_pruned D) by assumption.
      apply soft_grid_pruned. now rewrite pruned_sym. }
    pose proof (D_finite b (i - 1) (j - 1))%nat as Hd.
    destruct (data D b (i - 1) (j - 1)) as [d | | |] eqn:Ed; simpl in Hd;
      try tauto.
    rewrite (soft_grid_active_value D gamma w b gamma_pos D_finite i j d
                                    Hin Hp Ed).
    rewrite (soft_grid_active_value (transpose D) gamma w b gamma_pos
                                    transpose_finite j i d);
      [| cbn [transpose shape1 shape2]; unfold inner in *; lia
       | now rewrite pruned_sym | exact Ed].
    unfold inner in Hin.
    rewrite (IH (i - 1) (j - 1))%nat by lia.
    rewrite (IH i (j - 1))%nat by lia.
    rewrite (IH (i - 1)%nat j) by lia.
    do 4 f_equal. ring.
Qed.

Lemma align_value_transpose :
  align_value (transpose D) gamma w b = align_value D gamma w b.
Proof.
  unfold align_value. cbn [transpose shape1 shape2].
  rewrite terminal_cell_swap. cbn [fst snd].
  set (ti := fst _). set (tj := snd _).
  now apply (soft_grid_transpose (ti + tj)).
Qed.
End Transposed.

(** X14. Exchanging the roles of the two sequences does not change the
    value: for finite costs, [gamma > 0] and a non-negative bandwidth,
    both backends return for the transposed cost matrix the value they
    return for the matrix itself (over the reals, where a sum does not
    depend on the order of its terms). *)
Theorem X14_value_of_transpose
        (f : SoftDTW.func_dtw) (sch : scheduler)
        (D : tensor3) (gamma : R) (w : Z) :
  fair sch -> 0 < gamma -> (0 <= w)%Z -> finite3 D ->
  exists V V',
    SoftDTW.apply f sch D gamma w = Ok V
    /\ SoftDTW.apply f sch (transpose D) gamma w = Ok V'
    /\ same_vector V V'.
Proof.
  intros Hfair Hg Hw HD.
  destruct (apply_value f sch D gamma w Hfair Hg (or_introl Hw))
    as (V & HV & Hlen & Hval).
  destruct (apply_value f sch (transpose D) gamma w Hfair Hg (or_introl Hw))
    as (V' & HV' & Hlen' & Hval').
  exists V, V'. split; [exact HV |]. split; [exact HV' |].
  split; [rewrite Hlen, Hlen'; reflexivity |].
  intros b Hb. rewrite Hlen in Hb.
  rewrite Hval by exact Hb. rewrite Hval' by exact Hb.
  symmetry. now apply align_value_transpose.
Qed.

Lemma X14_value_of_transpose_witness :
  fair in_order /\ 0 < 1 /\ (0 <= 1)%Z /\ finite3 (zero_cost 1 2 4) /\
  exists V V',
    SoftDTW.apply SoftDTW.SoftDTW_apply in_order (zero_cost 1 2 4) 1 1 = Ok V
    /\ SoftDTW.apply SoftDTW.SoftDTW_apply in_order
                     (transpose (zero_cost 1 2 4)) 1 1 = Ok V'
    /\ same_vector V V'.
Proof.
  split; [exact in_order_fair |]. split; [lra |]. split; [lia |].
  split; [apply zero_cost_finite |].
  apply (X14_value_of_transpose SoftDTW.SoftDTW_apply in_order
           (zero_cost 1 2 4) 1 1 in_order_fair);
    [lra | lia | apply zero_cost_finite].
Defined.

(* ------------------------------------------------------------------ *)
(** ** The module's [forward] as a whole *)

Lemma eadd_comm x y : eadd x y = eadd y x.
Proof.
  destruct x as [a | | |], y as [c | | |]; simpl; try reflexivity.
  f_equal. ring.
Qed.

Lemma calc_distance_finite x y :
  finite3 x -> finite3 y -> finite3 (SoftDTW._calc_distance_matrix x y).
Proof.
  intros Hx Hy b i j. unfold SoftDTW._calc_distance_matrix. cbn [data].
  change (shape2 x) with (0 + shape2 x)%nat.
  apply (fold_seq_inv _ (fun _ acc => is_fin acc)); [exact I |].
  intros k acc _ Hacc.
  pose proof (Hx b i k) as Hxk. pose proof (Hy b j k) as Hyk.
  destruct acc as [r | | |]; simpl in Hacc; try contradiction.
  destruct (data x b i k) as [a | | |]; simpl in Hxk; try contradiction.
  destruct (data y b j k) as [c | | |]; simpl in Hyk; try contradiction.
  destruct (rbf_bounds a c) as [t [-> _]]. exact I.
Qed.

Lemma calc_distance_swap x y b i j :
  shape2 x = shape2 y ->
  data (SoftDTW._calc_distance_matrix y x) b j i
  = data (SoftDTW._calc_distance_matrix x y) b i j.
Proof.
  intros H2. unfold SoftDTW._calc_distance_matrix. cbn [data]. rewrite H2.
  apply fold_left_agree. intros acc k _. now rewrite rbf_sym.
Qed.

Lemma align_value_ext D D' gamma w b :
  shape1 D = shape1 D' -> shape2 D = shape2 D' ->
  (forall i j, data D b i j = data D' b i j) ->
  align_value D gamma w b = align_value D' gamma w b.
Proof.
  intros H1 H2 HD. unfold align_value. rewrite H1, H2.
  now apply soft_grid_ext.
Qed.

(** Both backends return the alignment value of each batch element. *)
Lemma apply_align f sch D gamma w :
  fair sch -> 0 < gamma -> (0 <= w)%Z ->
  exists V,
    SoftDTW.apply f sch D gamma w = Ok V
    /\ len V = shape0 D
    /\ forall b, (b < shape0 D)%nat -> vdata V b = align_value D gamma w b.
Proof.
  intros Hfair Hg Hw.
  exact (apply_value f sch D gamma w Hfair Hg (or_introl Hw)).
Qed.

(** The implementation selected for inputs of matching batch size and
    feature dimension does not depend on the order of the inputs. *)
Lemma get_func_dtw_swap self X Y :
  shape0 X = shape0 Y -> shape2 X = shape2 Y ->
  exists sel,
    SoftDTW._get_func_dtw self X Y = Ok sel
    /\ SoftDTW._get_func_dtw self Y X = Ok sel.
Proof.
  intros H0 H2. unfold SoftDTW._get_func_dtw.
  rewrite H0, H2, !Nat.eqb_refl. cbn [negb].
  rewrite (orb_comm (1024 <? shape1 Y)%nat).
  destruct (SoftDTW.use_cuda self && _); eexists; split; reflexivity.
Qed.

(** X15. The normalised divergence of a batch against itself is exactly
    0: with [normalize] set, [gamma > 0], a non-negative bandwidth and a
    batch of finite sequences with at least one timestep,
    [SoftDTW.forward X X] returns 0 for every batch element, on either
    backend. *)
Theorem X15_normalized_self_is_zero
        (self : SoftDTW.t) (sch : scheduler) (X : tensor3) :
  fair sch -> SoftDTW.normalize self = true ->
  0 < SoftDTW.gamma self -> (0 <= SoftDTW.bandwidth self)%Z ->
  finite3 X -> (1 <= shape1 X)%nat ->
  exists V msgs,
    SoftDTW.forward self sch X X = Ok (V, msgs)
    /\ len V = shape0 X
    /\ forall b, (b < shape0 X)%nat -> vdata V b = Fin 0.
Proof.
  intros Hfair Hn Hg Hw HX HN.
  destruct (get_func_dtw_swap self X X eq_refl eq_refl) as (sel & Hsel & _).
  unfold SoftDTW.forward. rewrite Hsel, Hn. cbn [bind].
  set (C := SoftDTW._calc_distance_matrix X X).
  destruct (apply_align (fst sel) sch C _ _ Hfair Hg Hw)
    as (V & -> & Hlen & Hval).
  cbn [bind]. do 2 eexists. split; [reflexivity |].
  cbn [len vdata]. split; [exact Hlen |].
  intros b Hb. rewrite Hval by exact Hb. unfold align_value.
  pose proof (terminal_value_finite C (SoftDTW.gamma self)
                (SoftDTW.bandwidth self) b Hg
                (calc_distance_finite X X HX HX) HN HN Hw) as Hfin.
  destruct (soft_grid C _ _ b _ _) as [v | | |]; simpl in Hfin; try tauto.
  simpl. f_equal. field.
Qed.

Lemma X15_normalized_self_is_zero_witness :
  fair in_order /\
  exists V msgs,
    SoftDTW.forward (SoftDTW.init true 1 true (Some 1%Z)) in_order
                    (zero_cost 2 3 2) (zero_cost 2 3 2) = Ok (V, msgs)
    /\ len V = 2%nat
    /\ forall b, (b < 2)%nat -> vdata V b = Fin 0.
Proof.
  split; [exact in_order_fair |].
  apply (X15_normalized_self_is_zero (SoftDTW.init true 1 true (Some 1%Z))
           in_order (zero_cost 2 3 2)).
  - exact in_order_fair.
  - reflexivity.
  - simpl; lra.
  - simpl; lia.
  - intros b i j; exact I.
  - simpl; lia.
Defined.

(** X16. [SoftDTW.forward] is symmetric in its two inputs: for finite
    batches of the same batch size and feature dimension, [gamma > 0] and
    a non-negative bandwidth, [forward X Y] and [forward Y X] select the
    same backend, print the same lines and return the same value for
    every batch element, with or without normalisation (over the reals,
    where sums do not depend on the order of their terms). *)
Theorem X16_forward_symmetric
        (self : SoftDTW.t) (sch : scheduler) (X Y : tensor3) :
  fair sch -> 0 < SoftDTW.gamma self -> (0 <= SoftDTW.bandwidth self)%Z ->
  finite3 X -> finite3 Y ->
  shape0 X = shape0 Y -> shape2 X = shape2 Y ->
  exists V V' msgs,
    SoftDTW.forward self sch X Y = Ok (V, msgs)
    /\ SoftDTW.forward self sch Y X = Ok (V', msgs)
    /\ same_vector V V'.
Proof.
  intros Hfair Hg Hw HX HY H0 H2.
  destruct (get_func_dtw_swap self X Y H0 H2) as (sel & Hxy & Hyx).
  unfold SoftDTW.forward. rewrite Hxy, Hyx. cbn [bind].
  set (g := SoftDTW.gamma self) in *. set (w := SoftDTW.bandwidth self) in *.
  destruct (apply_align (fst sel) sch (SoftDTW._calc_distance_matrix X Y)
              g w Hfair Hg Hw) as (Vxy & -> & Lxy & Exy).
  destruct (apply_align (fst sel) sch (SoftDTW._calc_distance_matrix Y X)
              g w Hfair Hg Hw) as (Vyx & -> & Lyx & Eyx).
  destruct (apply_align (fst sel) sch (SoftDTW._calc_distance_matrix X X)
              g w Hfair Hg Hw) as (Vxx & Axx & Lxx & Exx).
  destruct (apply_align (fst sel) sch (SoftDTW._calc_distance_matrix Y Y)
              g w Hfair Hg Hw) as (Vyy & Ayy & Lyy & Eyy).
  assert (Hswap : forall b, (b < shape0 X)%nat -> vdata Vxy b = vdata Vyx b).
  { intros b Hb.
    rewrite Exy by exact Hb.
    rewrite Eyx by (cbn [SoftDTW._calc_distance_matrix shape0]; lia).
    rewrite <- (align_value_transpose (SoftDTW._calc_distance_matrix X Y)
                  g w b Hg (calc_distance_finite X Y HX HY)).
    apply align_value_ext; try reflexivity.
    intros i j. cbn [transpose data]. symmetry.
    now apply calc_distance_swap. }
  cbn [SoftDTW._calc_distance_matrix shape0] in Lxy, Lyx.
  destruct (SoftDTW.normalize self).
  - rewrite Axx, Ayy. cbn [bind].
    do 3 eexists. split; [reflexivity |]. split; [reflexivity |].
    split; cbn [len vdata]; [lia |].
    intros b Hb. rewrite Lxy in Hb.
    rewrite (Hswap b Hb), (eadd_comm (vdata Vxx b)). reflexivity.
  - cbn [bind]. do 3 eexists. split; [reflexivity |]. split; [reflexivity |].
    split; [lia |]. intros b Hb. rewrite Lxy in Hb. now apply Hswap.
Qed.

Lemma X16_forward_symmetric_witness :
  fair in_order /\
  exists V V' msgs,
    SoftDTW.forward (SoftDTW.init false 1 true (Some 1%Z)) in_order
                    (zero_cost 2 3 2) (zero_cost 2 4 2) = Ok (V, msgs)
    /\ SoftDTW.forward (SoftDTW.init false 1 true (Some 1%Z)) in_order
                       (zero_cost 2 4 2) (zero_cost 2 3 2) = Ok (V', msgs)
    /\ same_vector V V'.
Proof.
  split; [exact in_order_fair |].
  apply (X16_forward_symmetric (SoftDTW.init false 1 true (Some 1%Z))
           in_order (zero_cost 2 3 2) (zero_cost 2 4 2)).
  - exact in_order_fair.
  - simpl; lra.
  - simpl; lia.
  - intros b i j; exact I.
  - intros b i j; exact I.
  - reflexivity.
  - reflexivity.
Defined.

(* ------------------------------------------------------------------ *)
(** ** A second backward pass over the context left by the first *)


(** Two final states of the backward recurrence started from grids whose
    settled forms agree hold the same adjoints. *)
Section BackwardUniqueFinal.
Variables (D R1 R1' E1 : tensor3) (gamma : R) (w : Z) (N M B : nat).
Variables (st st' : tensor3 * tensor3) (b : nat).
Hypothesis b_lt : (b < B)%nat.
Hypothesis final_agree :
  forall i j, data (final_R R1 N M) b i j = data (final_R R1' N M) b i j.
Hypothesis st_inv :
  bwd_inv D R1 E1 gamma w N M (fun k _ _ => (k < B)%nat) st.
Hypothesis st'_inv :
  bwd_inv D R1' E1 gamma w N M (fun k _ _ => (k < B)%nat) st'.


End BackwardUniqueFinal.

(** The boundary writes of a second pass, on the grid left by a first
    one, settle to the grid the first pass settled to, provided the value
    at the terminal cell is not infinite. *)
Section SecondPass.
Variables (D Rm E1 : tensor3) (gamma : R) (w : Z) (N M B ti tj : nat).
Variable st : tensor3 * tensor3.
Hypothesis terminal_kept :
  forall b, (b < B)%nat -> inner N M ti tj -> isinf (data Rm b ti tj) = false.
Hypothesis st_inv :
  bwd_inv D (boundary_R Rm (ti + 1) (tj + 1)) E1 gamma w N M
          (fun k _ _ => (k < B)%nat) st.


End SecondPass.

(** The sequential [backward] on a context whose grid has the shape of a
    forward grid. *)
Lemma sequential_backward_on D Rm gamma w grad_output :
  gamma <> 0 -> (0 <= w)%Z \/ shape1 D = shape2 D ->
  let N := shape1 D in
  let M := shape2 D in
  let si := (fst (terminal_cell N M w) + 1)%nat in
  let sj := (snd (terminal_cell N M w) + 1)%nat in
  tshape Rm = (shape0 D, (N + 2)%nat, (M + 2)%nat) ->
  exists st,
    _SoftDTW.backward (mkCtx D Rm gamma w) grad_output
    = Ok (scale_by grad_output (interior (snd st) N M),
          mkCtx D (fst st) gamma w)
    /\ bwd_inv (pad D) (boundary_R Rm si sj) (seed_E (shape0 D) N M si sj)
               gamma w N M (fun b _ _ => (b < shape0 D)%nat) st
    /\ tshape (fst st) = tshape Rm
    /\ shape0 (snd st) = shape0 D.
Proof.
  intros Hg Hw N M si sj Hs. unfold tshape in Hs. injection Hs as H0 H1 H2.
  exists (backward_loop (pad D) gamma w (shape0 D) N M
            (boundary_R Rm si sj, seed_E (shape0 D) N M si sj)).
  split.
  { unfold _SoftDTW.backward, compute_softdtw_backward.
    cbn [saved_D saved_R saved_gamma saved_bandwidth].
    rewrite backward_boundary_terminal by assumption.
    cbn [bind]. rewrite Reqb_false by assumption. reflexivity. }
  split; [apply backward_loop_inv |].
  destruct (backward_loop_shape (pad D) gamma w (shape0 D) N M
              (boundary_R Rm si sj, seed_E (shape0 D) N M si sj)) as [HR HE].
  split; [exact HR |].
  unfold tshape in HE. now injection HE.
Qed.

(** The device [backward], likewise. *)
Lemma device_backward_on sch D Rm gamma w grad_output :
  fair sch -> 0 < gamma -> (0 <= w)%Z \/ shape1 D = shape2 D ->
  let N := shape1 D in
  let M := shape2 D in
  let si := (fst (terminal_cell N M w) + 1)%nat in
  let sj := (snd (terminal_cell N M w) + 1)%nat in
  tshape Rm = (shape0 D, (N + 2)%nat, (M + 2)%nat) ->
  exists st,
    _SoftDTWCUDA.backward sch (mkCtx D Rm gamma w) grad_output
    = Ok (scale_by grad_output (interior (snd st) N M),
          mkCtx D (fst st) gamma w)
    /\ bwd_inv (pad D) (boundary_R Rm si sj) (seed_E (shape0 D) N M si sj)
               gamma w N M (fun b _ _ => (b < shape0 D)%nat) st
    /\ tshape (fst st) = tshape Rm
    /\ shape0 (snd st) = shape0 D.
Proof.
  intros Hfair Hg Hw N M si sj Hs. unfold tshape in Hs.
  injection Hs as H0 H1 H2.
  exists (run_kernel
            (compute_softdtw_backward_cuda (pad D) (Fin (1 / gamma)) w N M
                                           (2 * Nat.max N M - 1)%nat)
            (sch (shape0 D) (Nat.max N M) (2 * Nat.max N M - 1)%nat)
            (boundary_R Rm si sj, seed_E (shape0 D) N M si sj)).
  split.
  { unfold _SoftDTWCUDA.backward.
    rewrite cuda_backward_grids_eq by assumption.
    cbn [bind saved_D saved_gamma saved_bandwidth]. reflexivity. }
  split; [apply run_backward_kernel_inv; [exact Hg | apply Hfair] |].
  destruct (backward_kernel_shape (pad D) (Fin (1 / gamma)) w N M
              (2 * Nat.max N M - 1)%nat
              (sch (shape0 D) (Nat.max N M) (2 * Nat.max N M - 1)%nat)
              (boundary_R Rm si sj, seed_E (shape0 D) N M si sj)) as [HR HE].
  split; [exact HR |].
  unfold tshape in HE. now injection HE.
Qed.




(* ------------------------------------------------------------------ *)
(** ** A zero [gamma] *)



(* ------------------------------------------------------------------ *)
(** ** A single timestep *)

Lemma row_cost_finite D b n : finite3 D -> is_fin (row_cost D b n).
Proof.
  intros HD. induction n as [| n IH]; [exact I |].
  cbn [row_cost]. pose proof (HD b 0%nat n) as Hd.
  destruct (row_cost D b n); simpl in IH; try contradiction.
  destruct (data D b 0 n); simpl in Hd; try contradiction.
  exact I.
Qed.

(** The first row of the grid accumulates the costs of the first row of
    [D]: each of its cells has a single finite predecessor. *)
Lemma soft_grid_first_row D gamma w b j :
  0 < gamma -> finite3 D -> (1 <= shape1 D)%nat ->
  (1 <= j <= shape2 D)%nat -> pruned w 1 j = false ->
  soft_grid D gamma w b 1 j = row_cost D b j.
Proof.
  intros Hg HD HN. induction j as [| j IH]; intros Hj Hp; [lia |].
  pose proof (HD b 0%nat j) as Hd.
  destruct (data D b 0 j) as [d | | |] eqn:Ed; simpl in Hd; try contradiction.
  rewrite (soft_grid_active_value D gamma w b Hg HD 1 (S j) d);
    [| unfold inner; lia | exact Hp
     | now replace (S j - 1)%nat with j by lia].
  cbn [row_cost]. rewrite Ed.
  replace (1 - 1)%nat with 0%nat by reflexivity.
  replace (S j - 1)%nat with j by lia.
  destruct j as [| j].
  - cbn [soft_grid soft_row row_cost weight eadd].
    replace (- 0 / gamma) with 0 by (field; lra).
    rewrite exp_0. replace (1 + 0 + 0) with 1 by ring. rewrite ln_1.
    f_equal. ring.
  - assert (Hp' : pruned w 1 (S j) = false).
    { apply pruned_false. apply pruned_false in Hp. lia. }
    rewrite IH by (assumption || lia).
    pose proof (row_cost_finite D b (S j) HD) as Hs.
    destruct (row_cost D b (S j)) as [s | | |]; simpl in Hs;
      try contradiction.
    replace (soft_grid D gamma w b 0 (S j)) with PInf by reflexivity.
    replace (soft_grid D gamma w b 0 (S (S j))) with PInf by reflexivity.
    cbn [weight eadd]. rewrite !Rplus_0_l, ln_exp. f_equal. field. lra.
Qed.

(** X19. A single timestep has a single alignment: when [X] has one
    timestep (and costs are finite, [gamma > 0], the bandwidth
    non-negative), the value both backends return is the plain sum of
    the costs up to the terminal column, with no smoothing left. *)
Theorem X19_single_timestep
        (f : SoftDTW.func_dtw) (sch : scheduler)
        (D : tensor3) (gamma : R) (w : Z) :
  fair sch -> 0 < gamma -> (0 <= w)%Z -> finite3 D ->
  shape1 D = 1%nat -> (1 <= shape2 D)%nat ->
  exists V,
    SoftDTW.apply f sch D gamma w = Ok V
    /\ len V = shape0 D
    /\ forall b, (b < shape0 D)%nat ->
         vdata V b = row_cost D b (snd (terminal_cell 1 (shape2 D) w)).
Proof.
  intros Hfair Hg Hw HD HN HM.
  destruct (apply_value f sch D gamma w Hfair Hg (or_introl Hw))
    as (V & HV & Hlen & Hval).
  exists V. split; [exact HV |]. split; [exact Hlen |].
  intros b Hb. rewrite Hval by exact Hb. rewrite HN.
  destruct (terminal_cell_active 1 (shape2 D) w (le_n 1) HM Hw) as [Hin Hp].
  destruct (terminal_cell 1 (shape2 D) w) as [ti tj] eqn:Et.
  cbn [fst snd] in *.
  assert (ti = 1%nat) as -> by (unfold inner in Hin; lia).
  apply soft_grid_first_row; try assumption; unfold inner in Hin; lia.
Qed.

Lemma X19_single_timestep_witness :
  fair in_order /\
  exists V,
    SoftDTW.apply SoftDTW.SoftDTWCUDA_apply in_order (zero_cost 2 1 4) 1 2
    = Ok V
    /\ len V = 2%nat
    /\ forall b, (b < 2)%nat ->
         vdata V b
         = row_cost (zero_cost 2 1 4) b (snd (terminal_cell 1 4 2)).
Proof.
  split; [exact in_order_fair |].
  apply (X19_single_timestep SoftDTW.SoftDTWCUDA_apply in_order
                             (zero_cost 2 1 4) 1 2).
  - exact in_order_fair.
  - lra.
  - lia.
  - intros b i j; exact I.
  - reflexivity.
  - simpl; lia.
Defined.

(* ------------------------------------------------------------------ *)
(** ** Shapes *)

(** X20. Shapes of what [forward] and [backward] return: for
    [gamma > 0] and a non-negative bandwidth, on both backends, the value
    has one entry per batch element, the gradient has the shape of the
    cost matrix, and [backward] leaves the saved grid with its
    [(B, N + 2, M + 2)] shape. *)
Theorem X20_result_shapes
        (sch : scheduler) (D : tensor3) (gamma : R) (w : Z)
        (grad_output : tensor1) :
  fair sch -> 0 < gamma -> (0 <= w)%Z ->
  (exists V c G c',
      _SoftDTW.forward D gamma w = Ok (V, c)
      /\ _SoftDTW.backward c grad_output = Ok (G, c')
      /\ len V = shape0 D /\ tshape G = tshape D
      /\ tshape (saved_R c') = (shape0 D, shape1 D + 2, shape2 D + 2)%nat)
  /\ (exists V c G c',
      _SoftDTWCUDA.forward sch D gamma w = Ok (V, c)
      /\ _SoftDTWCUDA.backward sch c grad_output = Ok (G, c')
      /\ len V = shape0 D /\ tshape G = tshape D
      /\ tshape (saved_R c') = (shape0 D, shape1 D + 2, shape2 D + 2)%nat).
Proof.
  intros Hfair Hg Hw.
  assert (Hnz : gamma <> 0) by lra.
  assert (Hw' : (0 <= w)%Z \/ shape1 D = shape2 D) by now left.
  split.
  - pose proof (compute_softdtw_shape D gamma w) as Hs.
    destruct (sequential_backward_on D (compute_softdtw D gamma w) gamma w
                grad_output Hnz Hw' Hs) as (st & HB & _ & HsR & HsE).
    do 4 eexists.
    split; [now apply forward_terminal |].
    split; [exact HB |].
    split; [cbn [len tget_cell]; apply compute_softdtw_shape0 |].
    split; [unfold tshape, scale_by, interior; cbn; now rewrite HsE |].
    cbn [saved_R]. now rewrite HsR.
  - destruct (cuda_forward_terminal sch D gamma w Hw') as [Hs HF].
    set (Rc := run_kernel _ _ _) in *.
    destruct (device_backward_on sch D Rc gamma w grad_output
                Hfair Hg Hw' Hs) as (st & HB & _ & HsR & HsE).
    do 4 eexists.
    split; [exact HF |].
    split; [exact HB |].
    split; [cbn [len tget_cell]; unfold tshape in Hs; now injection Hs |].
    split; [unfold tshape, scale_by, interior; cbn; now rewrite HsE |].
    cbn [saved_R]. now rewrite HsR.
Qed.

Lemma X20_result_shapes_witness :
  fair in_order /\ 0 < 1 /\ (0 <= 1)%Z /\
  exists V c G c',
    _SoftDTW.forward (zero_cost 2 3 4) 1 1 = Ok (V, c)
    /\ _SoftDTW.backward c (mkT1 2 (fun _ => Fin 1)) = Ok (G, c')
    /\ len V = 2%nat /\ tshape G = (2, 3, 4)%nat
    /\ tshape (saved_R c') = (2, 5, 6)%nat.
Proof.
  split; [exact in_order_fair |]. split; [lra |]. split; [lia |].
  apply (X20_result_shapes in_order (zero_cost 2 3 4) 1 1
                           (mkT1 2 (fun _ => Fin 1)));
    [exact in_order_fair | lra | lia].
Defined.
